(** * Memory-aware job admission and accounting core of make

    A shallow embedding of the memory core of [src/main.c] (profile store,
    shared accounting region, descendant walker) and of the command-line
    classifier of [memory.c], followed by the properties checked against
    the specification. *)

From Stdlib Require Import ZArith Ascii String Lia Bool.
From stdpp Require Import base list.

Local Open Scope Z_scope.

(* ===================================================================== *)
(** * Part I: definitions                                                 *)
(* ===================================================================== *)

(** ** Machine integers

    [unsigned long] is 64 bits, [unsigned int] and [int] are 32 bits (LP64).
    Values are carried as [Z]; every operation that can leave the range of
    its C type has its wrap-around written out. *)

Definition ULONG_MOD : Z := 2 ^ 64.
Definition UINT_MOD : Z := 2 ^ 32.

Definition wrap_ulong (z : Z) : Z := z mod ULONG_MOD.
Definition wrap_uint (z : Z) : Z := z mod UINT_MOD.

(** Conversion of a 64-bit pattern to [long] (two's complement). *)
Definition to_long (z : Z) : Z :=
  let u := wrap_ulong z in
  if u <? 2 ^ 63 then u else u - ULONG_MOD.

(** Conversion of a value to [int] (two's complement, 32 bits). *)
Definition to_int (z : Z) : Z :=
  let u := wrap_uint z in
  if u <? 2 ^ 31 then u else u - UINT_MOD.

Definition ulong_range (z : Z) : Prop := 0 <= z < ULONG_MOD.
Definition uint_range (z : Z) : Prop := 0 <= z < UINT_MOD.
Definition int_range (z : Z) : Prop := - 2 ^ 31 <= z < 2 ^ 31.
Definition long_range (z : Z) : Prop := - 2 ^ 63 <= z < 2 ^ 63.

(** The subtraction the specification asks for: it stops at zero. *)
Definition saturating_sub (a b : Z) : Z := if a <? b then 0 else a - b.

(** C strings are lists of characters; [NUL] terminates them. *)
Definition cstring : Type := list ascii.
Definition NUL : ascii := Ascii.zero.

Definition chr_eqb (a b : ascii) : bool := Ascii.eqb a b.

(** ** Profile store ([memory_profiles], [memory_profile_count],
       [memory_profiles_capacity], [memory_profiles_dirty])

    [struct file_memory_profile] is declared in a header that is not part of
    the sources at hand; the fields are the ones [main.c] reads and writes. *)

Record file_memory_profile : Type := {
  filename : option cstring;
  peak_memory_mb : Z;
  last_used : Z
}.

(** [memory_profiles] is [None] for the NULL pointer and otherwise the
    allocated array, whose length is its allocated size. *)
Record profile_store : Type := {
  memory_profiles : option (list file_memory_profile);
  memory_profile_count : Z;
  memory_profiles_capacity : Z;
  memory_profiles_dirty : Z
}.

Definition zero_profile : file_memory_profile :=
  {| filename := None; peak_memory_mb := 0; last_used := 0 |}.

(** [grow_memory_profiles]: 1000 entries at first, then doubling; the new
    entries are zeroed.  [xmalloc]/[xrealloc] do not return NULL. *)
Definition grow_memory_profiles (s : profile_store) : profile_store :=
  let new_capacity :=
    if memory_profiles_capacity s =? 0 then 1000
    else wrap_uint (memory_profiles_capacity s * 2) in
  let old := match memory_profiles s with Some arr => arr | None => [] end in
  {| memory_profiles := Some (resize (Z.to_nat new_capacity) zero_profile old);
     memory_profile_count := memory_profile_count s;
     memory_profiles_capacity := new_capacity;
     memory_profiles_dirty := memory_profiles_dirty s |}.

(** [record_file_memory_usage_by_index (profile_idx, memory_mb, final)].
    [now] is the value [time (NULL)] returns.  The result is [None] when the
    function would index outside the allocated array (undefined behaviour in
    C), and the new store otherwise. *)
Definition record_file_memory_usage_by_index
    (now : Z) (profile_idx memory_mb final : Z) (s : profile_store)
    : option profile_store :=
  if (profile_idx <? 0) || (memory_profile_count s <=? wrap_uint profile_idx)
  then Some s
  else
    match memory_profiles s with
    | None => Some s
    | Some arr =>
        match arr !! Z.to_nat profile_idx with
        | None => None
        | Some e =>
            let prev_peak_mb := peak_memory_mb e in
            if (memory_mb <=? prev_peak_mb) && (final =? 0) then Some s
            else
              let memory_mb' :=
                if negb (final =? 0) && (memory_mb <? prev_peak_mb)
                then wrap_ulong (prev_peak_mb
                                 - wrap_ulong (prev_peak_mb - memory_mb) / 3)
                else memory_mb in
              Some {| memory_profiles :=
                        Some (<[Z.to_nat profile_idx :=
                                  {| filename := filename e;
                                     peak_memory_mb := memory_mb';
                                     last_used := now |}]> arr);
                      memory_profile_count := memory_profile_count s;
                      memory_profiles_capacity := memory_profiles_capacity s;
                      memory_profiles_dirty := 1 |}
        end
    end.

(** Reading one profile of a store, for the statements below. *)
Definition profile_at (s : profile_store) (i : Z) : option file_memory_profile :=
  match memory_profiles s with
  | None => None
  | Some arr => if i <? 0 then None else arr !! Z.to_nat i
  end.

(** Index of the first element that satisfies [f]. *)
Fixpoint first_index {A : Type} (f : A -> bool) (l : list A) : option nat :=
  match l with
  | [] => None
  | x :: l' => if f x then Some 0%nat else option_map S (first_index f l')
  end.

(** [strcmp (a, b) == 0] on NUL-free character lists. *)
Fixpoint cstring_eqb (a b : cstring) : bool :=
  match a, b with
  | [], [] => true
  | x :: a', y :: b' => chr_eqb x y && cstring_eqb a' b'
  | _, _ => false
  end.

(** The profile lookup of [find_child_descendants]:
    [for (i = 0; i < memory_profile_count; i++)
       if (memory_profiles[i].filename && strcmp (memory_profiles[i].filename, strip_ptr) == 0)]. *)
Definition lookup_profile (s : profile_store) (name : cstring) : option nat :=
  match memory_profiles s with
  | None => None
  | Some arr =>
      first_index
        (fun e => match filename e with
                  | Some f => cstring_eqb f name
                  | None => false
                  end)
        (take (Z.to_nat (memory_profile_count s)) arr)
  end.

(** ** Shared accounting region ([struct shared_memory_data])

    The two mutexes carry no data and every process is modelled on its own,
    so they do not appear. *)

Definition MAX_RESERVATIONS : Z := 64.

Record pid_reservation : Type := {
  pid : Z;
  reserved_mb : Z
}.

Record shared_memory_data : Type := {
  reservation_count : Z;
  reservations : list pid_reservation;
  unused_peaks_mb : Z;
  total_reserved_mb : Z
}.

Definition free_slot : pid_reservation := {| pid := 0; reserved_mb := 0 |}.

(** The region after [memset (shared_data, 0, ...)]. *)
Definition zeroed_region : shared_memory_data :=
  {| reservation_count := 0;
     reservations := replicate (Z.to_nat MAX_RESERVATIONS) free_slot;
     unused_peaks_mb := 0;
     total_reserved_mb := 0 |}.

(** The pointer [shared_data]: NULL, [MAP_FAILED], or the mapped region. *)
Inductive mapping : Type :=
  | NullPtr
  | MapFailed
  | Mapped (r : shared_memory_data).

(** The per-process globals the accounting functions read. *)
Record process : Type := {
  memory_aware_flag : Z;
  makelevel : Z;
  shared_data : mapping
}.

(** What the host answers when a process opens and maps the named object:
    [shm_open] or [ftruncate] fails, [mmap] fails, or the object is mapped
    with the contents it has at that moment. *)
Inductive shm_outcome : Type :=
  | ShmOpenFails
  | MmapFails
  | ShmAttached (r : shared_memory_data).

Definition with_shared_data (p : process) (m : mapping) : process :=
  {| memory_aware_flag := memory_aware_flag p;
     makelevel := makelevel p;
     shared_data := m |}.

(** [init_shared_memory]: returns 0 on success and -1 on failure.  A failed
    [mmap] leaves [shared_data] at [MAP_FAILED]; the top-level make zeroes
    the region it maps. *)
Definition init_shared_memory (host : shm_outcome) (p : process) : Z * process :=
  match host with
  | ShmOpenFails => (-1, p)
  | MmapFails => (-1, with_shared_data p MapFailed)
  | ShmAttached r =>
      (0, with_shared_data p
            (Mapped (if makelevel p =? 0 then zeroed_region else r)))
  end.

Definition is_null (m : mapping) : bool :=
  match m with NullPtr => true | _ => false end.

(** The common prologue of [get_imminent_memory_mb] and [reserve_memory_mb]:
    [if (memory_aware_flag && shared_data == NULL) if (init_shared_memory () != 0) return 0;].
    The boolean tells whether the early [return 0] is taken. *)
Definition lazy_init (host : shm_outcome) (p : process) : bool * process :=
  if negb (memory_aware_flag p =? 0) && is_null (shared_data p)
  then let '(rc, p') := init_shared_memory host p in (negb (rc =? 0), p')
  else (false, p).

(** [get_imminent_memory_mb].  [None] stands for the dereference of
    [MAP_FAILED]. *)
Definition get_imminent_memory_mb (host : shm_outcome) (p : process)
    : option (Z * process) :=
  let '(failed, p1) := lazy_init host p in
  if failed then Some (0, p1)
  else
    match shared_data p1 with
    | NullPtr => Some (wrap_ulong (0 + 0), p1)
    | MapFailed => None
    | Mapped r =>
        Some (wrap_ulong (total_reserved_mb r + unused_peaks_mb r), p1)
    end.

(** [for (i = 0; i < count && i < MAX_RESERVATIONS; i++) if (reservations[i].pid == pid)] *)
Definition find_reservation (r : shared_memory_data) (p : Z) : option nat :=
  let count := to_int (reservation_count r) in
  first_index (fun s => pid s =? p)
              (take (Z.to_nat (Z.min count MAX_RESERVATIONS)) (reservations r)).

(** [for (i = 0; i < MAX_RESERVATIONS; i++) if (reservations[i].pid == 0)] *)
Definition find_empty_slot (r : shared_memory_data) : option nat :=
  first_index (fun s => pid s =? 0)
              (take (Z.to_nat MAX_RESERVATIONS) (reservations r)).

Definition set_slots (r : shared_memory_data) (count : Z)
    (slots : list pid_reservation) (total : Z) : shared_memory_data :=
  {| reservation_count := count;
     reservations := slots;
     unused_peaks_mb := unused_peaks_mb r;
     total_reserved_mb := total |}.

Definition slot_reserved (r : shared_memory_data) (i : nat) : Z :=
  match reservations r !! i with
  | Some s => reserved_mb s
  | None => 0
  end.

(** The part of [reserve_memory_mb] that follows the slot search, for the
    slot [i] that [res] points to: the release branch ([mb <= 0]) and the
    overwrite branch. *)
Definition apply_reservation (r : shared_memory_data) (i : nat) (p mb : Z)
    : Z * shared_memory_data :=
  let old_value := slot_reserved r i in
  if mb <=? 0 then
    let total := wrap_ulong (total_reserved_mb r - old_value) in
    let clear (s : pid_reservation) :=
      {| pid := if pid s =? p then 0 else pid s; reserved_mb := 0 |} in
    ((if (mb =? 0) || ((mb <? 0) && (old_value =? wrap_ulong (- mb)))
      then 1 else 0),
     set_slots r (reservation_count r) (alter clear i (reservations r)) total)
  else
    let store (s : pid_reservation) := {| pid := pid s; reserved_mb := mb |} in
    let total :=
      if old_value <=? mb
      then wrap_ulong (total_reserved_mb r + wrap_ulong (mb - old_value))
      else if total_reserved_mb r <? wrap_ulong (old_value - mb) then 0
           else wrap_ulong (total_reserved_mb r - wrap_ulong (old_value - mb)) in
    (0, set_slots r (reservation_count r) (alter store i (reservations r)) total).

(** [reserve_memory_mb] on the mapped region. *)
Definition reserve_in_region (r : shared_memory_data) (p mb : Z)
    : Z * shared_memory_data :=
  match find_reservation r p with
  | Some i => apply_reservation r i p mb
  | None =>
      if mb =? 0 then (0, r)
      else
        let count := to_int (reservation_count r) in
        match find_empty_slot r with
        | Some empty_slot =>
            let slots :=
              <[empty_slot := {| pid := p; reserved_mb := 0 |}]> (reservations r) in
            let count' :=
              if count <=? Z.of_nat empty_slot
              then Z.of_nat empty_slot + 1 else reservation_count r in
            apply_reservation
              (set_slots r count' slots (total_reserved_mb r)) empty_slot p mb
        | None => (0, r)
        end
  end.

(** [reserve_memory_mb (pid, mb, filepath)]; [filepath] only reaches the
    log.  [None] stands for the dereference of [MAP_FAILED]. *)
Definition reserve_memory_mb (host : shm_outcome) (p : process) (child mb : Z)
    : option (Z * process) :=
  let '(failed, p1) := lazy_init host p in
  if failed then Some (0, p1)
  else
    match shared_data p1 with
    | NullPtr => Some (0, p1)
    | MapFailed => None
    | Mapped r =>
        let '(rc, r') := reserve_in_region r child mb in
        Some (rc, with_shared_data p1 (Mapped r'))
    end.

(** Concrete stores used in the examples below. *)
Definition profile_d : file_memory_profile :=
  {| filename := Some (list_ascii_of_string "src/d.cpp");
     peak_memory_mb := 900; last_used := 5 |}.

Definition store_d : profile_store :=
  {| memory_profiles := Some [profile_d];
     memory_profile_count := 1;
     memory_profiles_capacity := 1;
     memory_profiles_dirty := 0 |}.

(** Well-formed reservation tables: the fixed array has [MAX_RESERVATIONS]
    slots, slots from [reservation_count] on are free, and no process owns
    two slots.  The zeroed region is well formed and [reserve_memory_mb]
    keeps it so (lemmas [zeroed_region_wf], [reserve_in_region_wf]). *)
Record wf_region (r : shared_memory_data) : Prop := {
  wf_length : length (reservations r) = Z.to_nat MAX_RESERVATIONS;
  wf_count : 0 <= reservation_count r <= MAX_RESERVATIONS;
  wf_tail : forall (i : nat) s,
      reservations r !! i = Some s -> reservation_count r <= Z.of_nat i ->
      pid s = 0;
  wf_owner : forall (i j : nat) si sj,
      reservations r !! i = Some si -> reservations r !! j = Some sj ->
      pid si = pid sj -> pid si <> 0 -> i = j
}.

(** The table after a call, slot by slot: the slot the call works on (the
    owner's, or else the first free one) is rewritten, every other slot is
    kept. *)
Definition target_slot (r : shared_memory_data) (p mb : Z) : option nat :=
  match find_reservation r p with
  | Some i => Some i
  | None => if mb =? 0 then None else find_empty_slot r
  end.

(** ** Command-line classifier ([extract_filename_common] and its callers)

    A text is the content of a NUL-terminated buffer; [char_at text i] is
    [text[i]], the terminator included. *)

Definition char_at (text : cstring) (i : nat) : ascii := nth i text NUL.

Definition lit (s : string) : cstring := list_ascii_of_string s.

(** [strncmp (text + i, l, strlen (l)) == 0] for a literal [l]. *)
Fixpoint starts_with (l : cstring) (text : cstring) (i : nat) : bool :=
  match l with
  | [] => true
  | c :: l' => chr_eqb (char_at text i) c && starts_with l' text (S i)
  end.

Definition is_space (c : ascii) : bool := chr_eqb c " ".
Definition DQUOTE : ascii := ascii_of_nat 34.
Definition is_space_or_quote (c : ascii) : bool :=
  chr_eqb c " " || chr_eqb c DQUOTE.
Definition is_slash (c : ascii) : bool := chr_eqb c "/".

(** The extension test of the scan: the index of the last character of the
    extension found at [i], if any.  [.c] counts only before a space or the
    terminator. *)
Definition candidate_end (text : cstring) (i : nat) : option nat :=
  if starts_with (lit ".cpp") text i then Some (i + 3)%nat
  else if starts_with (lit ".cc") text i then Some (i + 2)%nat
  else if starts_with (lit ".c") text i
          && (chr_eqb (char_at text (i + 2)) " "
              || chr_eqb (char_at text (i + 2)) NUL)
       then Some (i + 1)%nat
  else None.

(** [while (p > text && !stop (p[-1])) p--;] started at [text + i]. *)
Fixpoint backtrack (stop : ascii -> bool) (text : cstring) (i : nat) : nat :=
  match i with
  | O => O
  | S j => if stop (char_at text j) then i else backtrack stop text j
  end.

(** The loop [for (start = from; start <= to; start++)] that looks for a
    slash at [start]. *)
Definition has_slash (text : cstring) (from to : nat) : bool :=
  existsb (fun k => is_slash (char_at text k)) (seq from (S to - from)).

(** One turn of the scan at [ptr = text + i]: the end of the extension found
    there when its token, from the previous space on, has a slash. *)
Definition occurrence_end (text : cstring) (i : nat) : option nat :=
  match candidate_end text i with
  | Some ce =>
      if has_slash text (backtrack is_space text i) ce then Some ce else None
  | None => None
  end.

(** The scan [while (ptr[0] && (size_t)(ptr - text) < text_len) { ...; ptr++; }]:
    [rest] is the text from [ptr] on, [i] is [ptr - text], [end_] the last
    candidate kept so far. *)
Fixpoint scan_suffixes (text : cstring) (text_len : nat)
    (rest : cstring) (i : nat) (end_ : option nat) : option nat :=
  match rest with
  | [] => end_
  | c :: rest' =>
      if chr_eqb c NUL || (text_len <=? i)%nat then end_
      else
        scan_suffixes text text_len rest' (S i)
          (match occurrence_end text i with
           | Some ce => Some ce
           | None => end_
           end)
  end.

(** [while (strncmp (strip_ptr, "../", 3) == 0) strip_ptr += 3;] *)
Fixpoint strip_leading_dotdot (s : cstring) : cstring :=
  match s with
  | a :: b :: c :: s' =>
      if chr_eqb a "." && chr_eqb b "." && chr_eqb c "/"
      then strip_leading_dotdot s'
      else s
  | _ => s
  end.

(** [extract_filename_common (text, text_len, ...)]; the remaining
    parameters only name the debug file.  [len] is an [int]. *)
Definition extract_filename_common (text : cstring) (text_len : nat)
    : option cstring :=
  match scan_suffixes text text_len text 0 None with
  | None => None
  | Some e =>
      let start := backtrack is_space_or_quote text e in
      let len := to_int (Z.of_nat e - Z.of_nat start + 1) in
      if (len <? 1000) && (0 <? len)
      then Some (strip_leading_dotdot (take (Z.to_nat len) (drop start text)))
      else None
  end.

(** The characters of a C string, up to its terminator. *)
Fixpoint c_str (s : cstring) : cstring :=
  match s with
  | [] => []
  | c :: s' => if chr_eqb c NUL then [] else c :: c_str s'
  end.

(** [strcat] of the arguments with single spaces in between. *)
Fixpoint join_args (argv : list cstring) : cstring :=
  match argv with
  | [] => []
  | [a] => c_str a
  | a :: rest => c_str a ++ " "%char :: join_args rest
  end.

Definition ARGV_BUF_SIZE : Z := 4096.

(** [extract_filename_from_argv (argv, caller)]. *)
Definition extract_filename_from_argv (argv : list cstring) : option cstring :=
  let total_len :=
    fold_left (fun n a => n + Z.of_nat (length (c_str a)) + 1) argv 0 in
  if (Z.of_nat (length argv) =? 0) || (ARGV_BUF_SIZE <=? total_len) then None
  else
    let argv_buf := join_args argv in
    extract_filename_common argv_buf (length argv_buf).

(** [extract_filename_from_cmdline (pid, ...)] on what [/proc/<pid>/cmdline]
    holds: [None] when the file cannot be opened, else its bytes, of which
    [fread] takes at most 4095. *)
Definition extract_filename_from_cmdline (cmdline : option (list ascii))
    : option cstring :=
  match cmdline with
  | None => None
  | Some bytes =>
      let cmdline_buf := take (Z.to_nat (ARGV_BUF_SIZE - 1)) bytes in
      let cmdline_len := length cmdline_buf in
      if (cmdline_len =? 0)%nat then None
      else
        let text :=
          map (fun c => if chr_eqb c NUL then " "%char else c)
              (take (cmdline_len - 1) cmdline_buf) in
        extract_filename_common text cmdline_len
  end.

(** The two entry points as one classifier. *)
Inductive classifier_input : Type :=
  | Argv (argv : list cstring)
  | Cmdline (bytes : list ascii).

Definition classify (x : classifier_input) : option cstring :=
  match x with
  | Argv argv => extract_filename_from_argv argv
  | Cmdline bytes => extract_filename_from_cmdline (Some bytes)
  end.

(** The classifier in the words of the specification (section 4.3): the last
    space-separated token that ends in [.cpp], [.cc] or [.c] and contains a
    directory separator, with the leading [../] segments stripped. *)
Fixpoint split_tokens (text : cstring) (cur : cstring) : list cstring :=
  match text with
  | [] => [rev cur]
  | c :: text' =>
      if is_space c then rev cur :: split_tokens text' []
      else split_tokens text' (c :: cur)
  end.

Definition ends_with (suffix token : cstring) : bool :=
  (length suffix <=? length token)%nat
  && cstring_eqb (drop (length token - length suffix) token) suffix.

Definition is_source_token (t : cstring) : bool :=
  (ends_with (lit ".cpp") t || ends_with (lit ".cc") t || ends_with (lit ".c") t)
  && existsb is_slash t.

Definition classify_spec (text : cstring) : option cstring :=
  option_map strip_leading_dotdot
             (last (filter (fun t => is_source_token t = true)
                           (split_tokens text []))).

(** ** Descendant walker ([main_monitoring_data], [find_child_descendants]) *)

Definition MAX_TRACKED_DESCENDANTS : Z := 100.

(** One element of [main_monitoring_data.descendants]; [d_pid] is its [pid]
    field. *)
Record descendant : Type := {
  d_pid : Z;
  peak_mb : Z;
  old_peak_mb : Z;
  current_mb : Z;
  profile_idx : Z
}.

Record monitoring_data : Type := {
  compile_count : Z;
  descendants : list descendant
}.

Definition zero_descendant : descendant :=
  {| d_pid := 0; peak_mb := 0; old_peak_mb := 0; current_mb := 0; profile_idx := 0 |}.

(** [main_monitoring_data = {0}]. *)
Definition initial_monitoring : monitoring_data :=
  {| compile_count := 0;
     descendants := replicate (Z.to_nat MAX_TRACKED_DESCENDANTS) zero_descendant |}.

(** The globals the walker works on. *)
Record walker : Type := {
  w_monitoring : monitoring_data;
  w_store : profile_store;
  w_process : process
}.

(** What one pass over [/proc] shows: for every directory entry whether its
    name starts with a digit, [atoi] of the name, what the parse of
    [/proc/<pid>/status] leaves in [check_pid] and [rss_kb] ([None] when the
    file cannot be opened), the bytes of [/proc/<pid>/cmdline], and what the
    pass made for the children of this entry shows in turn ([None] when
    [opendir] fails). *)
#[local] Unset Elimination Schemes.
Inductive proc_entry : Type :=
  ProcEntry (numeric : bool) (entry_pid : Z) (status : option (Z * Z))
            (cmdline : option (list ascii))
            (nested : option (list proc_entry)).
#[local] Set Elimination Schemes.

(** What the walker cannot decide by itself: the host's answer to a mapping
    attempt, the clock, and the bytes in front of the [descendants] array,
    which the read at index -1 returns. *)
Record walk_env : Type := {
  env_host : shm_outcome;
  env_now : Z;
  env_before_array : descendant
}.

(** [descendants[idx]] as an rvalue. *)
Definition descendant_at (env : walk_env) (m : monitoring_data) (idx : Z)
    : descendant :=
  if idx <? 0 then env_before_array env
  else match descendants m !! Z.to_nat idx with
       | Some d => d
       | None => env_before_array env
       end.

Definition alter_descendant (f : descendant -> descendant) (idx : Z)
    (m : monitoring_data) : monitoring_data :=
  {| compile_count := compile_count m;
     descendants := alter f (Z.to_nat idx) (descendants m) |}.

(** The lookup loop over the descendant table; returns
    [(descendant_idx, profile_idx, found_ppidx)]. *)
Fixpoint scan_descendants (l : list descendant) (i : Z) (child parent_pid : Z)
    (descendant_idx prof_idx found_ppidx : Z) : Z * Z * Z :=
  match l with
  | [] => (descendant_idx, prof_idx, found_ppidx)
  | d :: l' =>
      let found_ppidx :=
        if d_pid d =? parent_pid then profile_idx d else found_ppidx in
      let descendant_idx := if d_pid d =? child then i else descendant_idx in
      let prof_idx := if d_pid d =? child then profile_idx d else prof_idx in
      if (0 <=? descendant_idx) && (0 <=? found_ppidx)
      then (descendant_idx, prof_idx, found_ppidx)
      else scan_descendants l' (i + 1) child parent_pid
                            descendant_idx prof_idx found_ppidx
  end.

Definition with_profiles (s : profile_store)
    (arr : option (list file_memory_profile)) (count : Z) : profile_store :=
  {| memory_profiles := arr;
     memory_profile_count := count;
     memory_profiles_capacity := memory_profiles_capacity s;
     memory_profiles_dirty := memory_profiles_dirty s |}.

(** The profile for a classified file: the stored one, or a fresh entry
    with the current RSS as its peak.  Returns
    [(profile_peak_mb, profile_idx, store)]; [None] when a write would go
    through a NULL array. *)
Definition attribute_profile (now rss_kb : Z) (name : cstring) (s : profile_store)
    : option (Z * Z * profile_store) :=
  match lookup_profile s name with
  | Some i =>
      match profile_at s (Z.of_nat i) with
      | Some e => Some (peak_memory_mb e, Z.of_nat i, s)
      | None => None
      end
  | None =>
      let s1 :=
        if memory_profiles_capacity s <=? memory_profile_count s
        then grow_memory_profiles s else s in
      if memory_profile_count s1 <? memory_profiles_capacity s1 then
        match memory_profiles s1 with
        | None => None
        | Some arr =>
            Some (0, to_int (memory_profile_count s1),
                  with_profiles s1
                    (Some (<[Z.to_nat (memory_profile_count s1) :=
                               {| filename := Some name;
                                  peak_memory_mb := rss_kb / 1024;
                                  last_used := now |}]> arr))
                    (wrap_uint (memory_profile_count s1 + 1)))
        end
      else Some (0, -1, s1)
  end.

(** What the first half of the loop body hands to the second. *)
Record discovery : Type := {
  dr_skip : bool;
  dr_descendant_idx : Z;
  dr_profile_idx : Z;
  dr_new_descendant : bool;
  dr_parent_idx : Z;
  dr_state : walker
}.

(** The loop body from the table lookup to the release of the reservation,
    for a process [child] whose parent is [parent_pid]. *)
Definition discover (env : walk_env) (child parent_pid parent_idx rss_kb : Z)
    (cmdline : option (list ascii)) (st : walker) : option discovery :=
  let m := w_monitoring st in
  let '(descendant_idx, prof_idx, found_ppidx) :=
    scan_descendants (take (Z.to_nat (compile_count m)) (descendants m)) 0
                     child parent_pid (-1) (-1) parent_idx in
  let parent_idx :=
    if (descendant_idx <? 0) && negb (parent_idx =? found_ppidx)
    then found_ppidx else parent_idx in
  let skipped :=
    {| dr_skip := true; dr_descendant_idx := descendant_idx;
       dr_profile_idx := prof_idx; dr_new_descendant := false;
       dr_parent_idx := parent_idx; dr_state := st |} in
  if (descendant_idx <? 0) && (parent_idx <? 0)
     && (MAX_TRACKED_DESCENDANTS <=? compile_count m)
  then Some skipped
  else
    let strip_ptr :=
      if (descendant_idx <? 0) && (parent_idx <? 0)
      then extract_filename_from_cmdline cmdline else None in
    match
      match strip_ptr with
      | Some name => attribute_profile (env_now env) rss_kb name (w_store st)
      | None => Some (0, prof_idx, w_store st)
      end
    with
    | None => None
    | Some (profile_peak_mb, prof_idx, store) =>
        if 0 <=? descendant_idx then
          Some {| dr_skip := false; dr_descendant_idx := descendant_idx;
                  dr_profile_idx := prof_idx; dr_new_descendant := false;
                  dr_parent_idx := parent_idx;
                  dr_state := {| w_monitoring := m; w_store := store;
                                 w_process := w_process st |} |}
        else
          let add := (parent_idx <? 0)
                     && (compile_count m <? MAX_TRACKED_DESCENDANTS) in
          let m1 :=
            if add then
              {| compile_count := wrap_uint (compile_count m + 1);
                 descendants :=
                   alter (fun d => {| d_pid := child;
                                      peak_mb := peak_mb d;
                                      old_peak_mb := profile_peak_mb;
                                      current_mb := rss_kb / 1024;
                                      profile_idx := prof_idx |})
                         (Z.to_nat (compile_count m)) (descendants m) |}
            else m in
          match
            if 0 <? profile_peak_mb
            then reserve_memory_mb (env_host env) (w_process st) child
                                   (to_long (- profile_peak_mb))
            else Some (0, w_process st)
          with
          | None => None
          | Some (_, proc) =>
              Some {| dr_skip := false;
                      dr_descendant_idx :=
                        if add then to_int (compile_count m) else descendant_idx;
                      dr_profile_idx := prof_idx;
                      dr_new_descendant := add;
                      dr_parent_idx := parent_idx;
                      dr_state := {| w_monitoring := m1; w_store := store;
                                     w_process := proc |} |}
          end
    end.

(** The loop body after the recursive call: the shortfall added to
    [unused_peaks_mb], the job count, and the update of [current_mb] and
    [peak_mb].  Returns [(jobs, unused, state)]. *)
Definition account (env : walk_env) (dr : discovery)
    (rss_kb child_rss_kb child_jobs jobs unused : Z) (st : walker)
    : option (Z * Z * walker) :=
  let jobs := wrap_uint (jobs + child_jobs) in
  let seen := descendant_at env (w_monitoring st) (dr_descendant_idx dr) in
  let unused :=
    wrap_ulong (unused + (if current_mb seen <? old_peak_mb seen
                          then wrap_ulong (old_peak_mb seen - current_mb seen)
                          else 0)) in
  if (0 <=? dr_descendant_idx dr) && (0 <=? dr_profile_idx dr) then
    let new_current_mb := wrap_ulong (rss_kb + child_rss_kb) / 1024 in
    let jobs := wrap_uint (jobs + 1) in
    let d := descendant_at env (w_monitoring st) (dr_descendant_idx dr) in
    if (current_mb d <? new_current_mb) || dr_new_descendant dr then
      let raise_peak := peak_mb d <? new_current_mb in
      let m :=
        alter_descendant
          (fun d => {| d_pid := d_pid d;
                       peak_mb := if raise_peak then new_current_mb else peak_mb d;
                       old_peak_mb := old_peak_mb d;
                       current_mb := new_current_mb;
                       profile_idx := profile_idx d |})
          (dr_descendant_idx dr) (w_monitoring st) in
      match
        if raise_peak
        then record_file_memory_usage_by_index
               (env_now env) (dr_profile_idx dr) new_current_mb 0 (w_store st)
        else Some (w_store st)
      with
      | None => None
      | Some store =>
          Some (jobs, unused,
                {| w_monitoring := m; w_store := store;
                   w_process := w_process st |})
      end
    else Some (jobs, unused, st)
  else Some (jobs, unused, st).

(** The variables one pass carries from entry to entry: [parent_idx] (the
    loop assigns to its parameter), [total_rss_kb], and the values behind
    [total_jobs] and [unused_peaks_mb]. *)
Record pass_state : Type := {
  ps_parent_idx : Z;
  ps_total_rss_kb : Z;
  ps_jobs : Z;
  ps_unused : Z;
  ps_walker : walker
}.

(** [while ((entry = readdir (proc_dir)) != NULL) body]; a crash of the body
    ends the pass. *)
Definition for_each_entry (body : proc_entry -> pass_state -> option pass_state)
    : list proc_entry -> pass_state -> option pass_state :=
  fix loop (l : list proc_entry) (s : pass_state) : option pass_state :=
    match l with
    | [] => Some s
    | e :: l' =>
        match body e s with
        | None => None
        | Some s' => loop l' s'
        end
    end.

(** One call of [find_child_descendants], given the loop body: [opendir]
    fails and the call returns 0, or the pass runs with [total_rss_kb = 0]
    and a fresh job counter.  Returns
    [(total_rss_kb, jobs, unused, state)]. *)
Definition walk_listing
    (visit : proc_entry -> Z -> Z -> pass_state -> option pass_state)
    (listing : option (list proc_entry)) (parent_pid depth parent_idx : Z)
    (unused : Z) (st : walker) : option (Z * Z * Z * walker) :=
  match listing with
  | None => Some (0, 0, unused, st)
  | Some l =>
      match for_each_entry (fun e s => visit e parent_pid depth s) l
              {| ps_parent_idx := parent_idx; ps_total_rss_kb := 0;
                 ps_jobs := 0; ps_unused := unused; ps_walker := st |}
      with
      | None => None
      | Some s => Some (ps_total_rss_kb s, ps_jobs s, ps_unused s, ps_walker s)
      end
  end.

(** The body of the [readdir] loop of [find_child_descendants] for one
    directory entry.  [None] stands for a crash. *)
Fixpoint visit_entry (env : walk_env) (e : proc_entry) (parent_pid depth : Z)
    (s : pass_state) {struct e} : option pass_state :=
  match e with
  | ProcEntry numeric child status cmdline nested =>
      match status with
      | Some (check_pid, rss_kb) =>
          if numeric && (0 <? child) && (check_pid =? parent_pid) then
            let total_rss_kb := wrap_ulong (ps_total_rss_kb s + rss_kb) in
            match discover env child parent_pid (ps_parent_idx s) rss_kb cmdline
                           (ps_walker s) with
            | None => None
            | Some dr =>
                if dr_skip dr then
                  Some {| ps_parent_idx := dr_parent_idx dr;
                          ps_total_rss_kb := total_rss_kb;
                          ps_jobs := ps_jobs s; ps_unused := ps_unused s;
                          ps_walker := dr_state dr |}
                else
                  let send_idx :=
                    if 0 <=? dr_profile_idx dr then dr_profile_idx dr
                    else dr_parent_idx dr in
                  match walk_listing (visit_entry env) nested child (depth + 1)
                                     send_idx (ps_unused s) (dr_state dr) with
                  | None => None
                  | Some (child_rss_kb, child_jobs, unused1, st1) =>
                      match account env dr rss_kb child_rss_kb child_jobs
                                    (ps_jobs s) unused1 st1 with
                      | None => None
                      | Some (jobs2, unused2, st2) =>
                          Some {| ps_parent_idx := dr_parent_idx dr;
                                  ps_total_rss_kb :=
                                    wrap_ulong (total_rss_kb + child_rss_kb);
                                  ps_jobs := jobs2; ps_unused := unused2;
                                  ps_walker := st2 |}
                      end
                  end
            end
          else Some s
      | None => Some s
      end
  end.

(** [find_child_descendants (parent_pid, depth, parent_idx, &total_jobs,
    &unused_peaks_mb)] on what [/proc] shows. *)
Definition find_child_descendants (env : walk_env)
    (listing : option (list proc_entry)) (parent_pid depth parent_idx : Z)
    (unused : Z) (st : walker) : option (Z * Z * Z * walker) :=
  walk_listing (visit_entry env) listing parent_pid depth parent_idx unused st.

(** ** Admission gate

    Modelled from the spec: the admission gate [may_spawn] (section 4.7),
    whose code lives in the job runner and is not among the sources at hand.
    The required peak is the profile's peak when the hint names a stored
    profile and zero otherwise; free memory comes from the host probe, which
    may answer "unknown" ([None]), in which case the gate always proceeds;
    otherwise [imminent] is read with [get_imminent_memory_mb],
    [effective_free = saturating_sub (free, imminent)], and the gate answers
    [Go] and writes a reservation of [required] under the caller's pid with
    [reserve_memory_mb] when [required <= effective_free] or [required] is
    zero, and [Wait] otherwise. *)
Inductive decision : Type := Go | Wait.

Definition peak_from_profile (store : profile_store) (hint : option cstring) : Z :=
  match hint with
  | None => 0
  | Some path =>
      match lookup_profile store path with
      | None => 0
      | Some i =>
          match profile_at store (Z.of_nat i) with
          | Some e => peak_memory_mb e
          | None => 0
          end
      end
  end.

Definition may_spawn (host : shm_outcome) (free : option Z)
    (store : profile_store) (hint : option cstring) (caller : Z) (proc : process)
    : option (decision * process) :=
  let required := peak_from_profile store hint in
  match free with
  | None => Some (Go, proc)
  | Some free_mb =>
      match get_imminent_memory_mb host proc with
      | None => None
      | Some (imminent, p1) =>
          let effective_free := saturating_sub free_mb imminent in
          if (required <=? effective_free) || (required =? 0) then
            match reserve_memory_mb host p1 caller required with
            | None => None
            | Some (_, p2) => Some (Go, p2)
            end
          else Some (Wait, p1)
      end
  end.

(** Concrete regions used in the examples below. *)
Definition region_one : shared_memory_data :=
  snd (reserve_in_region zeroed_region 7 200).

Definition proc_one : process :=
  {| memory_aware_flag := 1; makelevel := 0; shared_data := Mapped region_one |}.

Definition LONG_MAX : Z := 2 ^ 63 - 1.

(** Three reservations of [LONG_MAX] MiB made from the zeroed region. *)
Definition region_three : shared_memory_data :=
  snd (reserve_in_region
         (snd (reserve_in_region
                 (snd (reserve_in_region zeroed_region 1 LONG_MAX)) 2 LONG_MAX))
         3 LONG_MAX).

Definition store_b : profile_store :=
  {| memory_profiles :=
       Some [ {| filename := Some (list_ascii_of_string "src/b.cpp");
                 peak_memory_mb := 512; last_used := 5 |} ];
     memory_profile_count := 1;
     memory_profiles_capacity := 1;
     memory_profiles_dirty := 0 |}.

(** The text a classifier input is flattened to before
    [extract_filename_common] scans it, and the [text_len] passed along;
    [None] when the entry point returns NULL before the scan. *)
Definition classifier_text (x : classifier_input) : option (cstring * nat) :=
  match x with
  | Argv argv =>
      let total_len :=
        fold_left (fun n a => n + Z.of_nat (length (c_str a)) + 1) argv 0 in
      if (Z.of_nat (length argv) =? 0) || (ARGV_BUF_SIZE <=? total_len) then None
      else Some (join_args argv, length (join_args argv))
  | Cmdline bytes =>
      let cmdline_buf := take (Z.to_nat (ARGV_BUF_SIZE - 1)) bytes in
      if (length cmdline_buf =? 0)%nat then None
      else Some (map (fun c => if chr_eqb c NUL then " "%char else c)
                     (take (length cmdline_buf - 1) cmdline_buf),
                 length cmdline_buf)
  end.

Definition nul_free (s : cstring) : Prop := Forall (fun c => c <> NUL) s.

(** The path cut out of [text] for an extension that ends at [e]. *)
Definition path_at (text : cstring) (e : nat) : cstring :=
  let start := backtrack is_space_or_quote text e in
  take (e - start + 1) (drop start text).

Definition argv_example : list cstring :=
  [lit "cc"; lit "-c"; lit "src/a.cpp"; lit "-o"; lit "obj/a.cpp.o"].

(** The three source suffixes. *)
Definition source_suffixes : list cstring := [lit ".cpp"; lit ".cc"; lit ".c"].

(** Characters that can occur in a path the classifier returns. *)
Definition path_char (c : ascii) : Prop :=
  c <> NUL /\ is_space_or_quote c = false.

Definition argv_updir : list cstring := [lit "cc"; lit "-c"; lit "../a.c"].

(** The amount held under [p] in the table, zero when [p] has no slot. *)
Definition reserved_under (r : shared_memory_data) (p : Z) : Z :=
  match find_reservation r p with
  | Some i => slot_reserved r i
  | None => 0
  end.

(** The implicit-release scenario of the specification: a profile of 200 MiB
    for [src/c.cpp], the caller (pid 100) holding a reservation of 200 MiB
    made from the zeroed region, and one pass over [/proc] that shows the new
    child 5000 of pid 100 with 50 MiB resident, compiling [src/c.cpp]. *)
Definition store_c : profile_store :=
  {| memory_profiles :=
       Some [ {| filename := Some (lit "src/c.cpp");
                 peak_memory_mb := 200; last_used := 5 |} ];
     memory_profile_count := 1;
     memory_profiles_capacity := 1;
     memory_profiles_dirty := 0 |}.

Definition region_caller : shared_memory_data :=
  snd (reserve_in_region zeroed_region 100 200).

Definition walker_c : walker :=
  {| w_monitoring := initial_monitoring;
     w_store := store_c;
     w_process := {| memory_aware_flag := 1; makelevel := 0;
                     shared_data := Mapped region_caller |} |}.

Definition env_c : walk_env :=
  {| env_host := ShmOpenFails; env_now := 1000;
     env_before_array := zero_descendant |}.

Definition cmdline_c : list ascii :=
  lit "g++" ++ [NUL] ++ lit "-c" ++ [NUL] ++ lit "src/c.cpp" ++ [NUL].

Definition proc_c : list proc_entry :=
  [ProcEntry true 5000 (Some (100, 51200)) (Some cmdline_c) (Some [])].

Definition region_of (w : walker) : option shared_memory_data :=
  match shared_data (w_process w) with
  | Mapped r => Some r
  | _ => None
  end.

(** Every descendant tracked at an index below [b] in [m] is still at that
    index in [m'], under the same pid, with a [current_mb] that is not
    lower. *)
Definition mono_below (b : Z) (m m' : monitoring_data) : Prop :=
  forall (i : nat) d,
    Z.of_nat i < b -> descendants m !! i = Some d ->
    exists d', descendants m' !! i = Some d' /\
               d_pid d' = d_pid d /\ current_mb d <= current_mb d'.

Definition tracked_preserved (m m' : monitoring_data) : Prop :=
  compile_count m <= compile_count m' /\ mono_below (compile_count m) m m'.

(** A second pass over [/proc], after the one of [proc_c]: the child is still
    there, with 20 MiB resident instead of 50. *)
Definition walker_after (r : option (Z * Z * Z * walker)) (w0 : walker) : walker :=
  match r with
  | Some (_, _, _, w) => w
  | None => w0
  end.

Definition walker_c1 : walker :=
  walker_after (find_child_descendants env_c (Some proc_c) 100 0 (-1) 0 walker_c)
               walker_c.

Definition proc_c_low : list proc_entry :=
  [ProcEntry true 5000 (Some (100, 20480)) (Some cmdline_c) (Some [])].

Definition walker_c2 : walker :=
  walker_after (find_child_descendants env_c (Some proc_c_low) 100 0 (-1) 0 walker_c1)
               walker_c1.

(** ** Further definitions for the properties of Part III *)

(** A store as the code keeps it: the array, when allocated, has
    [memory_profiles_capacity] entries, of which the first
    [memory_profile_count] are in use. *)
Definition store_wf (s : profile_store) : Prop :=
  0 <= memory_profile_count s <= memory_profiles_capacity s /\
  memory_profiles_capacity s < 2 ^ 31 /\
  match memory_profiles s with
  | Some arr => length arr = Z.to_nat (memory_profiles_capacity s)
  | None => memory_profiles_capacity s = 0
  end.

(** [memory_profiles = NULL], no entry, no capacity: the store at start. *)
Definition empty_store : profile_store :=
  {| memory_profiles := None; memory_profile_count := 0;
     memory_profiles_capacity := 0; memory_profiles_dirty := 0 |}.

(** The test of the profile lookup: the entry has a file name and it
    compares equal to [name]. *)
Definition profile_named (name : cstring) (e : file_memory_profile) : bool :=
  match filename e with
  | Some f => cstring_eqb f name
  | None => false
  end.

Definition store_two : profile_store :=
  {| memory_profiles :=
       Some [ {| filename := Some (lit "src/a.cpp"); peak_memory_mb := 42; last_used := 5 |};
              {| filename := Some (lit "src/b.cpp"); peak_memory_mb := 512; last_used := 6 |} ];
     memory_profile_count := 2;
     memory_profiles_capacity := 2;
     memory_profiles_dirty := 0 |}.

(** The total the monitor thread recomputes from the table on every tick:
    [count = shared_data->reservation_count;
     for (i = 0; i < (unsigned int) count; i++) total_reserved_mb += reservations[i].reserved_mb;] *)
Definition monitor_reserved_total (r : shared_memory_data) : Z :=
  fold_left (fun total s => wrap_ulong (total + reserved_mb s))
            (take (Z.to_nat (wrap_uint (to_int (reservation_count r))))
                  (reservations r))
            0.

(** The tail of a monitor tick on the shared region: publish
    [unused_peaks_mb] and compare the recomputed total with the running one.
    The boolean tells whether the mismatch warning is logged. *)
Definition publish_totals (total_unused_peaks_mb : Z) (r : shared_memory_data)
    : bool * shared_memory_data :=
  (negb (total_reserved_mb r =? monitor_reserved_total r),
   {| reservation_count := reservation_count r;
      reservations := reservations r;
      unused_peaks_mb := total_unused_peaks_mb;
      total_reserved_mb := total_reserved_mb r |}).

(** The plain sum of the amounts in a table. *)
Definition slot_sum (l : list pid_reservation) : Z :=
  fold_right (fun s acc => reserved_mb s + acc) 0 l.

(** A region whose running total agrees with its table: well formed, free
    slots hold nothing, and [total_reserved_mb] is the sum of the amounts,
    which fits an [unsigned long]. *)
Record region_consistent (r : shared_memory_data) : Prop := {
  rc_wf : wf_region r;
  rc_slots : Forall (fun s => 0 <= reserved_mb s /\ (pid s = 0 -> reserved_mb s = 0))
                    (reservations r);
  rc_total : total_reserved_mb r = slot_sum (reservations r);
  rc_range : ulong_range (total_reserved_mb r)
}.

(** All 64 slots taken, by the processes 1 to 64, one MiB each. *)
Definition region_full : shared_memory_data :=
  fold_left (fun r p => snd (reserve_in_region r (Z.of_nat p) 1))
            (seq 1 (Z.to_nat MAX_RESERVATIONS)) zeroed_region.

Definition proc_unmapped (level : Z) : process :=
  {| memory_aware_flag := 1; makelevel := level; shared_data := NullPtr |}.

(** The entries in use. *)
Definition tracked (m : monitoring_data) : list descendant :=
  take (Z.to_nat (compile_count m)) (descendants m).

(** The descendant table as the code keeps it: an array of
    [MAX_TRACKED_DESCENDANTS] entries of which [compile_count] are in use,
    every [profile_idx] field holding an [int]. *)
Definition table_wf (m : monitoring_data) : Prop :=
  0 <= compile_count m <= MAX_TRACKED_DESCENDANTS /\
  length (descendants m) = Z.to_nat MAX_TRACKED_DESCENDANTS /\
  Forall (fun d => int_range (profile_idx d)) (descendants m).

(** Every profile in use in [s] is still at its index in [s'], under the
    same file name, with a peak that is not lower. *)
Definition store_extends (s s' : profile_store) : Prop :=
  memory_profile_count s <= memory_profile_count s' /\
  forall (j : nat) e,
    Z.of_nat j < memory_profile_count s -> profile_at s (Z.of_nat j) = Some e ->
    exists e', profile_at s' (Z.of_nat j) = Some e' /\ filename e' = filename e /\
               peak_memory_mb e <= peak_memory_mb e'.

(** Every entry in use carries -1 or the index of a profile in use. *)
Definition profiles_linked (m : monitoring_data) (s : profile_store) : Prop :=
  Forall (fun d => profile_idx d < memory_profile_count s) (tracked m).

(** What a walk keeps true of the globals: the table and the store are well
    formed, the entries point at profiles in use, the profiles in use plus
    the descendants that can still be added stay below [B], the capacity
    below [2 * B + 1000], and [shared_data] is not [MAP_FAILED]. *)
Definition walker_inv (B : Z) (w : walker) : Prop :=
  table_wf (w_monitoring w) /\
  store_wf (w_store w) /\
  memory_profile_count (w_store w)
    + (MAX_TRACKED_DESCENDANTS - compile_count (w_monitoring w)) <= B /\
  memory_profiles_capacity (w_store w) <= 2 * B + 1000 /\
  shared_data (w_process w) <> MapFailed /\
  profiles_linked (w_monitoring w) (w_store w).

(** ** Exit detection in the monitor thread ([memory_monitor_thread_func]) *)

(** [memmove (&descendants[i], &descendants[i + 1], (count - i - 1) * sizeof
    (descendants[0]))]: the entries after [i] move down by one, the entry at
    [count - 1] and the ones after it stay. *)
Definition shift_down (i count : nat) (l : list descendant) : list descendant :=
  take i l ++ take (count - i - 1) (drop (i + 1) l) ++ drop (count - 1) l.

(** What the loop does for an entry whose process is gone, before it removes
    the entry: the log line reads [memory_profiles[profile_idx].filename],
    then the final update is recorded.  [None] stands for a read outside the
    profile array. *)
Definition final_update (now : Z) (d : descendant) (s : profile_store)
    : option profile_store :=
  if (0 <=? profile_idx d) && ((0 <? peak_mb d) || (0 <? old_peak_mb d)) then
    match profile_at s (profile_idx d) with
    | None => None
    | Some _ =>
        record_file_memory_usage_by_index now (profile_idx d) (peak_mb d) 1 s
    end
  else Some s.

(** [for (i = 0; i < compile_count; i++)] with the body that checks
    [/proc/<pid>/status]; [alive] tells whether [fopen] succeeds for a pid.
    Every iteration either moves [i] on or removes an entry, so the number of
    iterations left is [fuel]; an iteration that removes an entry ends with
    [i--], which the [i++] of the loop undoes. *)
Fixpoint reap_exited (alive : Z -> bool) (now : Z) (fuel : nat) (i : Z)
    (m : monitoring_data) (s : profile_store)
    : option (monitoring_data * profile_store) :=
  match fuel with
  | O => Some (m, s)
  | S fuel' =>
      if i <? compile_count m then
        match descendants m !! Z.to_nat i with
        | None => None
        | Some d =>
            if alive (d_pid d) then
              reap_exited alive now fuel' (wrap_uint (i + 1)) m s
            else
              match final_update now d s with
              | None => None
              | Some s' =>
                  let l :=
                    if i <? wrap_uint (compile_count m - 1)
                    then shift_down (Z.to_nat i) (Z.to_nat (compile_count m))
                                    (descendants m)
                    else descendants m in
                  reap_exited alive now fuel'
                    (wrap_uint (wrap_uint (i - 1) + 1))
                    {| compile_count := wrap_uint (compile_count m - 1);
                       descendants := l |} s'
              end
        end
      else Some (m, s)
  end.

(** The whole loop, from [i = 0]. *)
Definition check_exited (alive : Z -> bool) (now : Z)
    (m : monitoring_data) (s : profile_store)
    : option (monitoring_data * profile_store) :=
  reap_exited alive now (Z.to_nat (compile_count m)) 0 m s.

(** Three tracked compilations, for the pids 11, 12 and 13. *)
Definition monitoring_three : monitoring_data :=
  {| compile_count := 3;
     descendants :=
       [ {| d_pid := 11; peak_mb := 40; old_peak_mb := 42; current_mb := 40; profile_idx := 0 |};
         {| d_pid := 12; peak_mb := 600; old_peak_mb := 512; current_mb := 300; profile_idx := 1 |};
         {| d_pid := 13; peak_mb := 7; old_peak_mb := 0; current_mb := 7; profile_idx := -1 |} ]
       ++ replicate 97 zero_descendant |}.

(** The profiles of [s'] are the profiles of [s] under the same names: same
    count, same capacity, and the same file name at every index. *)
Definition same_names (s s' : profile_store) : Prop :=
  memory_profile_count s' = memory_profile_count s /\
  memory_profiles_capacity s' = memory_profiles_capacity s /\
  forall (j : nat) e, profile_at s (Z.of_nat j) = Some e ->
    exists e', profile_at s' (Z.of_nat j) = Some e' /\ filename e' = filename e.

(** ** Memory debug level ([debug.h])

    The level lives in the bits 9 to 11 of the [int] [db_level].  The
    operands stay far from the ends of [int], so the operations on [Z] are
    the operations of C. *)

Definition DB_MEM_LEVEL_MASK : Z := 0xE00.
Definition DB_MEM_LEVEL_SHIFT : Z := 9.

Definition DB_MEM_GET_LEVEL (l : Z) : Z :=
  Z.shiftr (Z.land l DB_MEM_LEVEL_MASK) DB_MEM_LEVEL_SHIFT.

Definition DB_MEM_SET_LEVEL (l level : Z) : Z :=
  Z.lor (Z.land l (Z.lnot DB_MEM_LEVEL_MASK)) (Z.shiftl level DB_MEM_LEVEL_SHIFT).

(** [ISDB (_l)] is [(_l) & db_level], read as a condition. *)
Definition ISDB (l db_level : Z) : bool := negb (Z.land l db_level =? 0).

Definition ISDB_MEM (level db_level : Z) : bool :=
  (0 <? level) && (level <=? DB_MEM_GET_LEVEL db_level).

(** ** Removing the shared object ([cleanup_shared_memory]) *)

(** What [cleanup_shared_memory] works on: the process, the descriptor
    [shared_memory_fd], and whether the named object exists on the host. *)
Record shm_world : Type := {
  sw_process : process;
  shared_memory_fd : Z;
  object_exists : bool
}.

(** [cleanup_shared_memory]; [unlink_ok] tells whether a call of
    [shm_unlink] would succeed. *)
Definition cleanup_shared_memory (unlink_ok : bool) (w : shm_world) : shm_world :=
  if 0 <? makelevel (sw_process w) then w
  else
    let p1 :=
      match shared_data (sw_process w) with
      | Mapped _ => with_shared_data (sw_process w) NullPtr
      | _ => sw_process w
      end in
    let fd1 := if negb (shared_memory_fd w =? -1) then -1 else shared_memory_fd w in
    {| sw_process := p1;
       shared_memory_fd := fd1;
       object_exists :=
         if negb (fd1 =? -1)
         then (if unlink_ok then false else object_exists w)
         else object_exists w |}.

(** ** Host memory ([get_memory_stats]) and the status bar
    ([display_memory_status]) *)

(** A line of [/proc/meminfo] as the two [sscanf] calls see it. *)
Inductive meminfo_line : Type :=
  | MemTotalLine (kb : Z)
  | MemAvailableLine (kb : Z)
  | OtherLine.

(** The [fgets] loop: returns [(total_kb, avail_kb)]. *)
Fixpoint scan_meminfo (lines : list meminfo_line) (total_kb avail_kb : Z) : Z * Z :=
  match lines with
  | [] => (total_kb, avail_kb)
  | MemTotalLine kb :: rest => scan_meminfo rest kb avail_kb
  | MemAvailableLine kb :: _ => (total_kb, kb)
  | OtherLine :: rest => scan_meminfo rest total_kb avail_kb
  end.

(** [get_memory_stats (&percent)]: returns [(free_mb, percent)]; [None] for
    the file stands for a failed [fopen]. *)
Definition get_memory_stats (meminfo : option (list meminfo_line)) : Z * Z :=
  match meminfo with
  | None => (0, 0)
  | Some lines =>
      let '(total_kb, avail_kb) := scan_meminfo lines 0 0 in
      if 0 <? avail_kb then
        (avail_kb / 1024,
         if 0 <? total_kb
         then wrap_uint (wrap_ulong (100 - wrap_ulong (avail_kb * 100) / total_kb))
         else 0)
      else (0, 0)
  end.

Definition bar_len : Z := 20.

(** The arithmetic of the status bar: the number of cells of the four
    zones, [(make_filled, other_filled, imminent_filled, free_filled)].
    [None] stands for a division by zero. *)
Definition bar_zones (mem_percent free_mb make_usage_mb imminent_mb : Z)
    : option (Z * Z * Z * Z) :=
  let avail_percent := wrap_uint (100 - mem_percent) in
  if avail_percent =? 0 then None
  else
    let total_mb := wrap_ulong (free_mb / avail_percent * 100) in
    if total_mb =? 0 then None
    else
      let make_filled := to_int (wrap_ulong (make_usage_mb * bar_len) / total_mb) in
      let imminent_filled := to_int (wrap_ulong (imminent_mb * bar_len) / total_mb) in
      let total_used_filled := to_int (wrap_uint (mem_percent * bar_len) / 100) in
      let other_filled := to_int (total_used_filled - make_filled) in
      let other_filled := if other_filled <? 0 then 0 else other_filled in
      let free_filled :=
        to_int (bar_len - make_filled - other_filled - imminent_filled) in
      let free_filled := if free_filled <? 0 then 0 else free_filled in
      Some (make_filled, other_filled, imminent_filled, free_filled).

(** [display_memory_status] up to the bar: nothing is computed when the
    display is off or when less than 300 ms have passed since the last
    status line and [force] is not set.  The outer [None] stands for a
    division by zero, [Some None] for the early return. *)
Definition display_memory_status
    (memory_aware disable_memory_display force elapsed_ms : Z)
    (mem_percent free_mb make_usage_mb imminent_mb : Z)
    : option (option (Z * Z * Z * Z)) :=
  if (memory_aware =? 0) || negb (disable_memory_display =? 0) then Some None
  else if (force =? 0) && (elapsed_ms <? 300) then Some None
  else
    match bar_zones mem_percent free_mb make_usage_mb imminent_mb with
    | None => None
    | Some z => Some (Some z)
    end.

(** A [/proc/meminfo] of a host with 16 GiB of which 100 MiB are
    available. *)
Definition meminfo_short : list meminfo_line :=
  [MemTotalLine 16777216; OtherLine; MemAvailableLine 102400; OtherLine].

(** The region a call of the gate works on: the one that is mapped, or the
    one its first accounting call attaches, which the top-level make
    zeroes; [None] when no region is available (memory awareness off, or
    the object cannot be opened). *)
Definition gate_region (host : shm_outcome) (proc : process)
    : option shared_memory_data :=
  match shared_data proc with
  | Mapped r => Some r
  | MapFailed => None
  | NullPtr =>
      if memory_aware_flag proc =? 0 then None
      else match host with
           | ShmAttached r0 => Some (if makelevel proc =? 0 then zeroed_region else r0)
           | _ => None
           end
  end.

(** A top-level make that has the full table mapped. *)
Definition proc_full : process :=
  {| memory_aware_flag := 1; makelevel := 0; shared_data := Mapped region_full |}.

(* ===================================================================== *)
(** * Part II: properties                                                 *)
(* ===================================================================== *)

Lemma wrap_ulong_small z : ulong_range z -> wrap_ulong z = z.
Proof. unfold ulong_range, wrap_ulong. intros H. apply Z.mod_small. lia. Qed.

Lemma wrap_uint_small z : 0 <= z < UINT_MOD -> wrap_uint z = z.
Proof. unfold wrap_uint. intros H. apply Z.mod_small. lia. Qed.

Lemma wrap_uint_index z : 0 <= z -> int_range z -> wrap_uint z = z.
Proof.
  unfold int_range. intros H0 H. apply wrap_uint_small.
  unfold UINT_MOD. lia.
Qed.

(** The one-third decay never leaves the range of [unsigned long]. *)
Lemma decay_in_range p x :
  ulong_range p -> ulong_range x -> x < p ->
  wrap_ulong (p - wrap_ulong (p - x) / 3) = p - (p - x) / 3.
Proof.
  intros Hp Hx Hlt. unfold ulong_range in *.
  rewrite (wrap_ulong_small (p - x)) by (unfold ulong_range; lia).
  apply wrap_ulong_small. unfold ulong_range.
  assert (0 <= (p - x) / 3 <= p - x).
  { split; [apply Z.div_pos; lia|]. apply Z.div_le_upper_bound; lia. }
  lia.
Qed.

(** ** Profile store *)

Section ProfileUpdate.
Variables (now profile_idx memory_mb final : Z) (s : profile_store).
Variables (arr : list file_memory_profile) (e : file_memory_profile).
Hypothesis Harr : memory_profiles s = Some arr.
Hypothesis Hidx : 0 <= profile_idx < memory_profile_count s.
Hypothesis Hint : int_range profile_idx.
Hypothesis Hentry : arr !! Z.to_nat profile_idx = Some e.

Lemma record_valid_unfold :
  record_file_memory_usage_by_index now profile_idx memory_mb final s =
  if (memory_mb <=? peak_memory_mb e) && (final =? 0) then Some s
  else
    Some {| memory_profiles :=
              Some (<[Z.to_nat profile_idx :=
                        {| filename := filename e;
                           peak_memory_mb :=
                             if negb (final =? 0) && (memory_mb <? peak_memory_mb e)
                             then wrap_ulong (peak_memory_mb e
                                    - wrap_ulong (peak_memory_mb e - memory_mb) / 3)
                             else memory_mb;
                           last_used := now |}]> arr);
            memory_profile_count := memory_profile_count s;
            memory_profiles_capacity := memory_profiles_capacity s;
            memory_profiles_dirty := 1 |}.
Proof.
  unfold record_file_memory_usage_by_index.
  rewrite wrap_uint_index by (auto; lia).
  replace (profile_idx <? 0) with false by (symmetry; apply Z.ltb_ge; lia).
  replace (memory_profile_count s <=? profile_idx) with false
    by (symmetry; apply Z.leb_gt; lia).
  cbn [orb]. rewrite Harr, Hentry. reflexivity.
Qed.

Lemma profile_at_updated e' :
  profile_at
    {| memory_profiles := Some (<[Z.to_nat profile_idx := e']> arr);
       memory_profile_count := memory_profile_count s;
       memory_profiles_capacity := memory_profiles_capacity s;
       memory_profiles_dirty := 1 |} profile_idx = Some e'.
Proof.
  unfold profile_at; cbn.
  replace (profile_idx <? 0) with false by (symmetry; apply Z.ltb_ge; lia).
  apply list_lookup_insert_eq. eapply lookup_lt_Some; eauto.
Qed.
End ProfileUpdate.

(** C1. A final update of a valid profile entry with stored peak [p] and
    observed value [x] stores [x] when [p <= x] and [p - (p - x) / 3] when
    [p > x]; in both cases the dirty flag is set. *)
Theorem final_update_sets_peak
    (now profile_idx x final : Z) (s : profile_store)
    (arr : list file_memory_profile) (e : file_memory_profile) :
  memory_profiles s = Some arr ->
  0 <= profile_idx < memory_profile_count s ->
  int_range profile_idx ->
  arr !! Z.to_nat profile_idx = Some e ->
  ulong_range x -> ulong_range (peak_memory_mb e) ->
  final <> 0 ->
  exists s' e',
    record_file_memory_usage_by_index now profile_idx x final s = Some s' /\
    profile_at s' profile_idx = Some e' /\
    ((peak_memory_mb e <= x /\ peak_memory_mb e' = x) \/
     (peak_memory_mb e > x /\
      peak_memory_mb e' = peak_memory_mb e - (peak_memory_mb e - x) / 3)) /\
    memory_profiles_dirty s' = 1.
Proof.
  intros Harr Hidx Hint Hentry Hx Hp Hfinal.
  rewrite (record_valid_unfold now profile_idx x final s arr e) by assumption.
  replace (final =? 0) with false by (symmetry; apply Z.eqb_neq; assumption).
  rewrite andb_false_r. cbn [negb andb].
  eexists. eexists. split; [reflexivity|]. split.
  - eapply profile_at_updated; eauto.
  - cbn. split; [|reflexivity].
    destruct (x <? peak_memory_mb e) eqn:Hlt.
    + apply Z.ltb_lt in Hlt. right. split; [lia|].
      apply decay_in_range; assumption.
    + apply Z.ltb_ge in Hlt. left. split; [lia | reflexivity].
Qed.

Lemma final_update_sets_peak_witness :
  exists s' e',
    record_file_memory_usage_by_index 99 0 600 1 store_d = Some s' /\
    profile_at s' 0 = Some e' /\
    ((900 <= 600 /\ peak_memory_mb e' = 600) \/
     (900 > 600 /\ peak_memory_mb e' = 900 - (900 - 600) / 3)) /\
    memory_profiles_dirty s' = 1.
Proof.
  apply (final_update_sets_peak 99 0 600 1 store_d [profile_d] profile_d);
    first [ reflexivity | unfold int_range, ulong_range, ULONG_MOD; cbn; lia ].
Defined.

(** C8 (as stated it fails).  A non-final call whose observed value does not
    exceed the stored peak returns before [last_used] is written: the entry
    keeps its old time stamp. *)
Lemma last_used_not_refreshed :
  exists s' e',
    record_file_memory_usage_by_index 99 0 600 0 store_d = Some s' /\
    profile_at s' 0 = Some e' /\
    last_used e' <> 99.
Proof.
  exists store_d, profile_d. repeat split; cbn. discriminate.
Qed.

(** C8 (amended).  A call with a valid index writes [last_used := now] exactly
    when it is final or the observed value exceeds the stored peak; any other
    call leaves the whole store, [last_used] included, as it was. *)
Theorem last_used_set_on_effective_update
    (now profile_idx x final : Z) (s : profile_store)
    (arr : list file_memory_profile) (e : file_memory_profile) :
  memory_profiles s = Some arr ->
  0 <= profile_idx < memory_profile_count s ->
  int_range profile_idx ->
  arr !! Z.to_nat profile_idx = Some e ->
  (final <> 0 \/ peak_memory_mb e < x ->
     exists s' e',
       record_file_memory_usage_by_index now profile_idx x final s = Some s' /\
       profile_at s' profile_idx = Some e' /\ last_used e' = now) /\
  (final = 0 /\ x <= peak_memory_mb e ->
     record_file_memory_usage_by_index now profile_idx x final s = Some s).
Proof.
  intros Harr Hidx Hint Hentry.
  rewrite (record_valid_unfold now profile_idx x final s arr e) by assumption.
  split.
  - intros Heff.
    assert ((x <=? peak_memory_mb e) && (final =? 0) = false) as ->.
    { apply andb_false_iff. destruct Heff as [Hf | Hx].
      - right. apply Z.eqb_neq. assumption.
      - left. apply Z.leb_gt. assumption. }
    eexists. eexists. split; [reflexivity|]. split.
    + eapply profile_at_updated; eauto.
    + reflexivity.
  - intros [Hf Hx].
    assert ((x <=? peak_memory_mb e) && (final =? 0) = true) as ->.
    { apply andb_true_iff. split; [apply Z.leb_le | apply Z.eqb_eq]; assumption. }
    reflexivity.
Qed.

Lemma last_used_set_on_effective_update_witness :
  (1 <> 0 \/ 900 < 600 ->
     exists s' e',
       record_file_memory_usage_by_index 99 0 600 1 store_d = Some s' /\
       profile_at s' 0 = Some e' /\ last_used e' = 99) /\
  (1 = 0 /\ 600 <= 900 ->
     record_file_memory_usage_by_index 99 0 600 1 store_d = Some store_d).
Proof.
  apply (last_used_set_on_effective_update 99 0 600 1 store_d [profile_d] profile_d);
    first [ reflexivity | unfold int_range; cbn; lia ].
Defined.

(** C9.  A call whose index is negative, or not below
    [memory_profile_count], or that finds [memory_profiles] NULL, completes
    without touching the array and returns the store unchanged. *)
Theorem record_out_of_range_is_noop
    (now profile_idx x final : Z) (s : profile_store) :
  int_range profile_idx ->
  profile_idx < 0 \/ memory_profile_count s <= profile_idx \/
    memory_profiles s = None ->
  record_file_memory_usage_by_index now profile_idx x final s = Some s.
Proof.
  intros Hint Hcase. unfold record_file_memory_usage_by_index.
  destruct (profile_idx <? 0) eqn:Hneg; [reflexivity|].
  apply Z.ltb_ge in Hneg. rewrite wrap_uint_index by assumption. cbn [orb].
  destruct (memory_profile_count s <=? profile_idx) eqn:Hle; [reflexivity|].
  apply Z.leb_gt in Hle.
  destruct Hcase as [H | [H | H]]; [lia | lia |].
  rewrite H. reflexivity.
Qed.

Lemma record_out_of_range_is_noop_witness :
  record_file_memory_usage_by_index 99 1 600 1 store_d = Some store_d.
Proof.
  apply (record_out_of_range_is_noop 99 1 600 1 store_d).
  - unfold int_range. lia.
  - right. left. cbn. lia.
Defined.

(** ** Shared accounting region *)

Lemma first_index_Some {A} (f : A -> bool) (l : list A) (i : nat) :
  first_index f l = Some i ->
  (exists x, l !! i = Some x /\ f x = true) /\
  (forall (j : nat) y, (j < i)%nat -> l !! j = Some y -> f y = false).
Proof.
  revert i. induction l as [|a l IH]; intros i H; cbn in H; [discriminate|].
  destruct (f a) eqn:Hfa.
  - injection H as <-. split; [exists a; auto | intros j y Hj; lia].
  - destruct (first_index f l) as [k|] eqn:Hk; cbn in H; [|discriminate].
    injection H as <-. destruct (IH k eq_refl) as [[x [Hx Hfx]] Hbefore].
    split; [exists x; auto|].
    intros [|j] y Hj Hy; cbn in Hy.
    + congruence.
    + apply (Hbefore j y); [lia | assumption].
Qed.

Lemma first_index_None {A} (f : A -> bool) (l : list A) :
  first_index f l = None ->
  forall (i : nat) x, l !! i = Some x -> f x = false.
Proof.
  induction l as [|a l IH]; intros H i x Hx; cbn in H; [destruct i; discriminate|].
  destruct (f a) eqn:Hfa; [discriminate|].
  destruct (first_index f l) eqn:Hk; cbn in H; [discriminate|].
  destruct i; cbn in Hx; [congruence | eauto].
Qed.

Lemma to_int_small z : 0 <= z < 2 ^ 31 -> to_int z = z.
Proof.
  intros H. unfold to_int. rewrite wrap_uint_small by (unfold UINT_MOD; lia).
  destruct (z <? 2 ^ 31) eqn:E; [reflexivity | apply Z.ltb_ge in E; lia].
Qed.

Lemma zeroed_region_wf : wf_region zeroed_region.
Proof.
  split; cbn.
  - apply length_replicate.
  - unfold MAX_RESERVATIONS. lia.
  - intros i s Hs _. apply lookup_replicate_1 in Hs as [-> _]. reflexivity.
  - intros i j si sj Hi _ _ Hne. apply lookup_replicate_1 in Hi as [-> _].
    cbn in Hne. congruence.
Qed.

Section RegionFacts.
Variable r : shared_memory_data.
Hypothesis Hwf : wf_region r.

Lemma wf_count_int : to_int (reservation_count r) = reservation_count r.
Proof.
  apply to_int_small. pose proof (wf_count r Hwf). unfold MAX_RESERVATIONS in *. lia.
Qed.

Lemma find_reservation_Some p i :
  find_reservation r p = Some i ->
  exists s, reservations r !! i = Some s /\ pid s = p /\
            Z.of_nat i < reservation_count r.
Proof.
  unfold find_reservation. rewrite wf_count_int. intros H.
  apply first_index_Some in H as [[s [Hs Hp]] _].
  apply lookup_take_Some in Hs as [Hs Hlt].
  exists s. repeat split; [assumption | apply Z.eqb_eq; assumption | lia].
Qed.

Lemma find_reservation_None p :
  p <> 0 -> find_reservation r p = None ->
  forall (i : nat) s, reservations r !! i = Some s -> pid s <> p.
Proof.
  unfold find_reservation. rewrite wf_count_int. intros Hp H i s Hs.
  pose proof (wf_count r Hwf) as Hc.
  destruct (Z_lt_ge_dec (Z.of_nat i) (reservation_count r)) as [Hlt | Hge].
  - apply Z.eqb_neq. apply (first_index_None _ _ H i s).
    rewrite lookup_take_lt by lia. assumption.
  - rewrite (wf_tail r Hwf i s Hs) by lia. congruence.
Qed.
End RegionFacts.

Lemma apply_reservation_slots r i p mb :
  reservations (snd (apply_reservation r i p mb)) =
  alter (fun s =>
           if mb <=? 0
           then {| pid := if pid s =? p then 0 else pid s; reserved_mb := 0 |}
           else {| pid := pid s; reserved_mb := mb |}) i (reservations r).
Proof.
  unfold apply_reservation. destruct (mb <=? 0); reflexivity.
Qed.

Lemma apply_reservation_count r i p mb :
  reservation_count (snd (apply_reservation r i p mb)) = reservation_count r.
Proof.
  unfold apply_reservation. destruct (mb <=? 0); reflexivity.
Qed.

Lemma reserve_in_region_other r p mb (j : nat) :
  target_slot r p mb <> Some j ->
  reservations (snd (reserve_in_region r p mb)) !! j = reservations r !! j.
Proof.
  unfold target_slot, reserve_in_region. intros Hj.
  destruct (find_reservation r p) as [i|].
  - rewrite apply_reservation_slots. apply list_lookup_alter_ne. congruence.
  - destruct (mb =? 0); [reflexivity|].
    destruct (find_empty_slot r) as [e|]; [|reflexivity].
    rewrite apply_reservation_slots. cbn.
    rewrite list_lookup_alter_ne by congruence.
    apply list_lookup_insert_ne. congruence.
Qed.

Lemma reserve_in_region_target r p mb (i : nat) :
  wf_region r ->
  target_slot r p mb = Some i ->
  reservations (snd (reserve_in_region r p mb)) !! i =
  Some (if mb <=? 0 then free_slot else {| pid := p; reserved_mb := mb |}).
Proof.
  unfold target_slot, reserve_in_region. intros Hwf Hi.
  destruct (find_reservation r p) as [k|] eqn:Hfind.
  - injection Hi as ->. rewrite apply_reservation_slots, list_lookup_alter_eq.
    apply (find_reservation_Some r Hwf) in Hfind as [s [Hs [Hp _]]].
    rewrite Hs. cbn. destruct (mb <=? 0); [|congruence].
    rewrite Hp, Z.eqb_refl. reflexivity.
  - destruct (mb =? 0); [discriminate|]. rewrite Hi.
    rewrite apply_reservation_slots, list_lookup_alter_eq. cbn.
    assert (i < length (reservations r))%nat as Hlen.
    { unfold find_empty_slot in Hi.
      apply first_index_Some in Hi as [[s [Hs _]] _].
      apply lookup_take_Some in Hs as [Hs _]. eapply lookup_lt_Some; eauto. }
    rewrite list_lookup_insert_eq by assumption. cbn.
    rewrite Z.eqb_refl. destruct (mb <=? 0); reflexivity.
Qed.

Lemma target_slot_bound r p mb i :
  wf_region r -> target_slot r p mb = Some i -> Z.of_nat i < MAX_RESERVATIONS.
Proof.
  unfold target_slot. intros Hwf H.
  destruct (find_reservation r p) as [k|] eqn:Hfind.
  - injection H as ->.
    apply (find_reservation_Some r Hwf) in Hfind as [s [_ [_ Hlt]]].
    pose proof (wf_count r Hwf). lia.
  - destruct (mb =? 0); [discriminate|]. unfold find_empty_slot in H.
    apply first_index_Some in H as [[s [Hs _]] _].
    apply lookup_take_Some in Hs as [_ Hlt]. lia.
Qed.

Lemma reserve_in_region_length r p mb :
  length (reservations (snd (reserve_in_region r p mb))) = length (reservations r).
Proof.
  unfold reserve_in_region.
  destruct (find_reservation r p) as [i|].
  - rewrite apply_reservation_slots. apply length_alter.
  - destruct (mb =? 0); [reflexivity|].
    destruct (find_empty_slot r) as [e|]; [|reflexivity].
    rewrite apply_reservation_slots. cbn. rewrite length_alter. apply length_insert.
Qed.

Lemma reserve_in_region_count r p mb :
  wf_region r ->
  reservation_count (snd (reserve_in_region r p mb)) =
  match target_slot r p mb with
  | Some i => Z.max (reservation_count r) (Z.of_nat i + 1)
  | None => reservation_count r
  end.
Proof.
  intros Hwf. unfold target_slot, reserve_in_region.
  destruct (find_reservation r p) as [i|] eqn:Hfind.
  - rewrite apply_reservation_count.
    apply (find_reservation_Some r Hwf) in Hfind as [s [_ [_ Hlt]]]. lia.
  - destruct (mb =? 0); [reflexivity|].
    destruct (find_empty_slot r) as [e|]; [|reflexivity].
    rewrite apply_reservation_count. cbn. rewrite (wf_count_int r Hwf).
    destruct (reservation_count r <=? Z.of_nat e) eqn:E;
      [apply Z.leb_le in E | apply Z.leb_gt in E]; lia.
Qed.

(** In a well-formed table the slot search finds the owner's slot. *)
Lemma owner_is_found r p (j : nat) s :
  wf_region r -> p <> 0 ->
  reservations r !! j = Some s -> pid s = p ->
  find_reservation r p = Some j.
Proof.
  intros Hwf Hp Hs Hpid.
  destruct (find_reservation r p) as [i|] eqn:Hfind.
  - apply (find_reservation_Some r Hwf) in Hfind as [si [Hsi [Hpi _]]].
    f_equal. apply (wf_owner r Hwf i j si s); congruence.
  - exfalso. exact (find_reservation_None r Hwf p Hp Hfind j s Hs Hpid).
Qed.

Lemma reserve_in_region_wf r p mb :
  wf_region r -> wf_region (snd (reserve_in_region r p mb)).
Proof.
  intros Hwf. pose proof (wf_count r Hwf) as Hc.
  assert (forall i, target_slot r p mb = Some i -> Z.of_nat i < MAX_RESERVATIONS)
    as Hbound by (intros i; apply target_slot_bound; assumption).
  split.
  - rewrite reserve_in_region_length. apply (wf_length r Hwf).
  - rewrite reserve_in_region_count by assumption.
    destruct (target_slot r p mb) as [i|]; [specialize (Hbound i eq_refl)|]; lia.
  - intros j s Hs Hj. rewrite reserve_in_region_count in Hj by assumption.
    destruct (decide (target_slot r p mb = Some j)) as [Ht | Ht].
    + rewrite Ht in Hj. lia.
    + rewrite reserve_in_region_other in Hs by assumption.
      apply (wf_tail r Hwf j s Hs).
      destruct (target_slot r p mb); lia.
  - assert (forall (a b : nat) sa sb,
               target_slot r p mb = Some a -> b <> a ->
               reservations (snd (reserve_in_region r p mb)) !! a = Some sa ->
               reservations (snd (reserve_in_region r p mb)) !! b = Some sb ->
               pid sa = pid sb -> pid sa <> 0 -> False) as Hmixed.
    { intros a b sa sb Ha Hb Hsa Hsb Heq Hne.
      rewrite (reserve_in_region_target r p mb a Hwf Ha) in Hsa.
      rewrite reserve_in_region_other in Hsb by congruence.
      destruct (mb <=? 0); injection Hsa as <-; cbn in *; [congruence|].
      pose proof (owner_is_found r p b sb Hwf Hne Hsb (eq_sym Heq)) as Hfound.
      unfold target_slot in Ha. rewrite Hfound in Ha. congruence. }
    intros i j si sj Hsi Hsj Heq Hne.
    destruct (decide (i = j)) as [|Hij]; [assumption|exfalso].
    destruct (decide (target_slot r p mb = Some i)) as [Hti | Hti].
    + apply (Hmixed i j si sj); auto.
    + destruct (decide (target_slot r p mb = Some j)) as [Htj | Htj].
      * apply (Hmixed j i sj si); auto; congruence.
      * rewrite reserve_in_region_other in Hsi, Hsj by assumption.
        apply Hij. apply (wf_owner r Hwf i j si sj); assumption.
Qed.

Lemma reserve_mapped host proc r p mb :
  shared_data proc = Mapped r ->
  reserve_memory_mb host proc p mb =
  Some (fst (reserve_in_region r p mb),
        with_shared_data proc (Mapped (snd (reserve_in_region r p mb)))).
Proof.
  intros Hmap. unfold reserve_memory_mb, lazy_init.
  rewrite Hmap. cbn [is_null]. rewrite andb_false_r. cbn. rewrite Hmap.
  destruct (reserve_in_region r p mb). reflexivity.
Qed.

(** A release leaves no slot under the released pid. *)
Lemma release_in_region_clears r p mb :
  wf_region r -> p <> 0 -> mb <= 0 ->
  (forall (i : nat) s,
      reservations (snd (reserve_in_region r p mb)) !! i = Some s -> pid s <> p) /\
  (forall (i : nat) s,
      reservations r !! i = Some s -> pid s = p ->
      reservations (snd (reserve_in_region r p mb)) !! i = Some free_slot).
Proof.
  intros Hwf Hp Hmb.
  assert ((mb <=? 0) = true) as Hle by (apply Z.leb_le; assumption).
  split.
  - intros i s Hs Hpid.
    destruct (decide (target_slot r p mb = Some i)) as [Ht | Ht].
    + rewrite (reserve_in_region_target r p mb i Hwf Ht), Hle in Hs.
      injection Hs as <-. cbn in Hpid. congruence.
    + rewrite reserve_in_region_other in Hs by assumption.
      pose proof (owner_is_found r p i s Hwf Hp Hs Hpid) as Hfound.
      unfold target_slot in Ht. rewrite Hfound in Ht. congruence.
  - intros i s Hs Hpid.
    pose proof (owner_is_found r p i s Hwf Hp Hs Hpid) as Hfound.
    rewrite (reserve_in_region_target r p mb i Hwf), Hle; [reflexivity|].
    unfold target_slot. rewrite Hfound. reflexivity.
Qed.

(** C7.  After [reserve_memory_mb (p, mb, ...)] with [mb <= 0] has returned
    on a mapped, well-formed table, no slot carries [p]; the slot that
    carried it has [reserved_mb = 0] and [pid = 0]. *)
Theorem release_frees_slot
    (host : shm_outcome) (proc : process) (r : shared_memory_data) (p mb : Z) :
  shared_data proc = Mapped r ->
  wf_region r ->
  p <> 0 ->
  mb <= 0 ->
  exists rc r',
    reserve_memory_mb host proc p mb = Some (rc, with_shared_data proc (Mapped r')) /\
    (forall (i : nat) s, reservations r' !! i = Some s -> pid s <> p) /\
    (forall (i : nat) s, reservations r !! i = Some s -> pid s = p ->
                         reservations r' !! i = Some free_slot).
Proof.
  intros Hmap Hwf Hp Hmb.
  exists (fst (reserve_in_region r p mb)), (snd (reserve_in_region r p mb)).
  split; [apply reserve_mapped; assumption|].
  apply release_in_region_clears; assumption.
Qed.

Lemma release_frees_slot_witness :
  exists rc r',
    reserve_memory_mb ShmOpenFails proc_one 7 0
      = Some (rc, with_shared_data proc_one (Mapped r')) /\
    (forall (i : nat) s, reservations r' !! i = Some s -> pid s <> 7) /\
    (forall (i : nat) s, reservations region_one !! i = Some s -> pid s = 7 ->
                         reservations r' !! i = Some free_slot).
Proof.
  apply (release_frees_slot ShmOpenFails proc_one region_one 7 0).
  - reflexivity.
  - apply reserve_in_region_wf, zeroed_region_wf.
  - lia.
  - lia.
Defined.

(** C4 (the code departs from it).  Three reservations of [LONG_MAX] MiB
    followed by the release of the first: the release subtracts the slot's
    amount from [total_reserved_mb] without the guard the overwrite branch
    has, and the total wraps around to [2^64 - 2] where a saturating
    subtraction gives 0. *)
Theorem release_total_wraps :
  total_reserved_mb region_three = 2 ^ 63 - 3 /\
  slot_reserved region_three 0 = LONG_MAX /\
  total_reserved_mb (snd (reserve_in_region region_three 1 0)) = 2 ^ 64 - 2 /\
  saturating_sub (total_reserved_mb region_three) (slot_reserved region_three 0) = 0.
Proof. vm_compute. repeat split. Qed.

(** The overwrite branch does saturate: lowering a reservation never takes
    [total_reserved_mb] below zero. *)
Lemma lowering_saturates r i p mb :
  0 < mb -> mb < slot_reserved r i ->
  ulong_range (slot_reserved r i) -> ulong_range (total_reserved_mb r) ->
  total_reserved_mb (snd (apply_reservation r i p mb)) =
  saturating_sub (total_reserved_mb r) (slot_reserved r i - mb).
Proof.
  intros Hpos Hlow Hold Htot. unfold apply_reservation, saturating_sub.
  replace (mb <=? 0) with false by (symmetry; apply Z.leb_gt; lia).
  replace (slot_reserved r i <=? mb) with false by (symmetry; apply Z.leb_gt; lia).
  unfold ulong_range in *.
  rewrite (wrap_ulong_small (slot_reserved r i - mb)) by (unfold ulong_range; lia).
  cbn. destruct (total_reserved_mb r <? slot_reserved r i - mb) eqn:E; [reflexivity|].
  apply Z.ltb_ge in E. apply wrap_ulong_small. unfold ulong_range. lia.
Qed.

(** ** Admission gate *)

Lemma first_index_exists {A} (f : A -> bool) (l : list A) (i : nat) x :
  l !! i = Some x -> f x = true -> exists j, first_index f l = Some j.
Proof.
  intros Hx Hfx. destruct (first_index f l) as [j|] eqn:E; [eauto|].
  rewrite (first_index_None f l E i x Hx) in Hfx. discriminate.
Qed.

(** A call has a slot to work on as soon as the process owns one or one is
    free. *)
Lemma target_slot_room r p mb (i : nat) s :
  wf_region r -> p <> 0 -> mb <> 0 ->
  reservations r !! i = Some s -> pid s = p \/ pid s = 0 ->
  exists j, target_slot r p mb = Some j.
Proof.
  intros Hwf Hp Hmb Hs Hroom. unfold target_slot.
  destruct (find_reservation r p) as [k|] eqn:Hfind; [eauto|].
  replace (mb =? 0) with false by (symmetry; apply Z.eqb_neq; assumption).
  destruct Hroom as [Hown | Hfree].
  - exfalso. exact (find_reservation_None r Hwf p Hp Hfind i s Hs Hown).
  - unfold find_empty_slot. apply (first_index_exists _ _ i s).
    + rewrite lookup_take_lt; [exact Hs|].
      pose proof (lookup_lt_Some _ _ _ Hs) as Hlt.
      rewrite (wf_length r Hwf) in Hlt. exact Hlt.
    + apply Z.eqb_eq. exact Hfree.
Qed.

Lemma reserve_in_region_read (r : shared_memory_data) (p mb : Z) (i : nat) s :
  wf_region r -> p <> 0 -> 0 < mb ->
  reservations r !! i = Some s -> pid s = p \/ pid s = 0 ->
  fst (reserve_in_region r p mb) = 0 /\
  reserved_under (snd (reserve_in_region r p mb)) p = mb.
Proof.
  intros Hwf Hp Hmb Hs Hroom.
  destruct (target_slot_room r p mb i s Hwf Hp ltac:(lia) Hs Hroom) as [j Hj].
  split.
  - unfold reserve_in_region, target_slot in *.
    assert (forall r0 k, fst (apply_reservation r0 k p mb) = 0) as Hrc.
    { intros r0 k. unfold apply_reservation.
      replace (mb <=? 0) with false by (symmetry; apply Z.leb_gt; lia).
      reflexivity. }
    destruct (find_reservation r p); [apply Hrc|].
    destruct (mb =? 0); [reflexivity|].
    destruct (find_empty_slot r); [apply Hrc | reflexivity].
  - pose proof (reserve_in_region_target r p mb j Hwf Hj) as Hslot.
    replace (mb <=? 0) with false in Hslot by (symmetry; apply Z.leb_gt; lia).
    pose proof (reserve_in_region_wf r p mb Hwf) as Hwf'.
    unfold reserved_under.
    rewrite (owner_is_found _ p j _ Hwf' Hp Hslot eq_refl).
    unfold slot_reserved. rewrite Hslot. reflexivity.
Qed.

Lemma reserve_in_region_full (r : shared_memory_data) (p mb : Z) :
  wf_region r ->
  Forall (fun s => pid s <> 0 /\ pid s <> p) (reservations r) ->
  reserve_in_region r p mb = (0, r).
Proof.
  intros Hwf Hall. unfold reserve_in_region.
  assert (find_reservation r p = None) as ->.
  { destruct (find_reservation r p) as [i|] eqn:E; [|reflexivity].
    apply (find_reservation_Some r Hwf) in E as [s [Hs [Hp _]]].
    rewrite Forall_lookup in Hall. destruct (Hall i s Hs). contradiction. }
  destruct (mb =? 0); [reflexivity|].
  assert (find_empty_slot r = None) as ->; [|reflexivity].
  destruct (find_empty_slot r) as [e|] eqn:E; [|reflexivity].
  unfold find_empty_slot in E. apply first_index_Some in E as [[s [Hs Hz]] _].
  apply lookup_take_Some in Hs as [Hs _]. apply Z.eqb_eq in Hz.
  rewrite Forall_lookup in Hall. destruct (Hall e s Hs). contradiction.
Qed.

Lemma get_imminent_mapped host proc r :
  shared_data proc = Mapped r ->
  get_imminent_memory_mb host proc =
  Some (wrap_ulong (total_reserved_mb r + unused_peaks_mb r), proc).
Proof.
  intros Hmap. unfold get_imminent_memory_mb, lazy_init.
  rewrite Hmap. cbn [is_null]. rewrite andb_false_r. cbn. rewrite Hmap.
  reflexivity.
Qed.

(** What the first accounting call of the gate finds: the region the call
    works on is mapped afterwards and [imminent] is read from it; when no
    region is available the call returns 0, the process is left as it was,
    and a reservation call made next returns 0 and writes nothing. *)
Lemma get_imminent_gate_region host proc :
  shared_data proc <> MapFailed ->
  (shared_data proc = NullPtr -> memory_aware_flag proc <> 0 -> host <> MmapFails) ->
  match gate_region host proc with
  | Some r =>
      get_imminent_memory_mb host proc
      = Some (wrap_ulong (total_reserved_mb r + unused_peaks_mb r),
              with_shared_data proc (Mapped r))
  | None =>
      shared_data proc = NullPtr /\
      get_imminent_memory_mb host proc = Some (0, proc) /\
      forall p mb, reserve_memory_mb host proc p mb = Some (0, proc)
  end.
Proof.
  intros Hok Hmmap. unfold gate_region.
  destruct (shared_data proc) as [| |r] eqn:Hmap; [|congruence|].
  - destruct (memory_aware_flag proc =? 0) eqn:Hflag.
    + split; [reflexivity|].
      unfold get_imminent_memory_mb, reserve_memory_mb, lazy_init.
      rewrite Hflag, Hmap. cbn. rewrite Hmap. auto.
    + apply Z.eqb_neq in Hflag. specialize (Hmmap eq_refl Hflag).
      destruct host as [| |r0]; [|congruence|].
      * split; [reflexivity|].
        unfold get_imminent_memory_mb, reserve_memory_mb, lazy_init.
        replace (memory_aware_flag proc =? 0) with false
          by (symmetry; apply Z.eqb_neq; exact Hflag).
        rewrite Hmap. cbn. auto.
      * unfold get_imminent_memory_mb, lazy_init.
        replace (memory_aware_flag proc =? 0) with false
          by (symmetry; apply Z.eqb_neq; exact Hflag).
        rewrite Hmap. cbn. reflexivity.
  - rewrite (get_imminent_mapped host proc r Hmap). f_equal. f_equal.
    destruct proc. cbn in *. rewrite Hmap. reflexivity.
Qed.




(** ** Command-line classifier *)

Lemma chr_eqb_eq a b : chr_eqb a b = true <-> a = b.
Proof. apply Ascii.eqb_eq. Qed.

Lemma chr_eqb_neq a b : chr_eqb a b = false <-> a <> b.
Proof. apply Ascii.eqb_neq. Qed.

Lemma char_at_ge text i : (length text <= i)%nat -> char_at text i = NUL.
Proof. apply nth_overflow. Qed.

Lemma char_at_app_r a b k : char_at (a ++ b) (length a + k) = char_at b k.
Proof. unfold char_at. apply app_nth2_plus. Qed.

Lemma char_at_app_l a b i : (i < length a)%nat -> char_at (a ++ b) i = char_at a i.
Proof. unfold char_at. intros H. apply app_nth1. exact H. Qed.

Lemma char_at_lookup text i c :
  text !! i = Some c -> char_at text i = c.
Proof.
  unfold char_at. revert i. induction text as [|a t IH]; intros [|i] H; cbn in *;
    try discriminate; [congruence | auto].
Qed.

Lemma char_at_not_nul text i :
  nul_free text -> (i < length text)%nat -> char_at text i <> NUL.
Proof.
  intros Hnf Hi. destruct (lookup_lt_is_Some_2 text i Hi) as [c Hc].
  rewrite (char_at_lookup text i c Hc).
  unfold nul_free in Hnf. rewrite Forall_lookup in Hnf. eauto.
Qed.

(** What the scan returns: either nothing qualified on the stretch it
    walked and it hands back what it was given, or it hands back the
    occurrence with the greatest index. *)
Lemma scan_suffixes_last text tl rest i acc :
  nul_free rest -> (i + length rest <= tl)%nat ->
  (scan_suffixes text tl rest i acc = acc /\
   forall j, (i <= j < i + length rest)%nat -> occurrence_end text j = None) \/
  (exists j e, (i <= j < i + length rest)%nat /\
     occurrence_end text j = Some e /\
     scan_suffixes text tl rest i acc = Some e /\
     forall k, (j < k < i + length rest)%nat -> occurrence_end text k = None).
Proof.
  revert i acc. induction rest as [|c rest IH]; intros i acc Hnf Hlen; cbn.
  - left. split; [reflexivity | intros j Hj; lia].
  - apply Forall_cons in Hnf as [Hc Hnf]. cbn in Hlen.
    apply chr_eqb_neq in Hc. rewrite Hc.
    replace (tl <=? i)%nat with false by (symmetry; apply Nat.leb_gt; lia).
    cbn [orb].
    destruct (IH (S i) (match occurrence_end text i with
                        | Some ce => Some ce | None => acc end) Hnf)
      as [[Hres Hnone] | [j [e [Hj [Hocc [Hres Hlast]]]]]]; [lia | |].
    + destruct (occurrence_end text i) as [ce|] eqn:Hi.
      * right. exists i, ce. repeat split; [lia | lia | assumption | assumption |].
        intros k Hk. apply Hnone. lia.
      * left. split; [assumption|]. intros j Hj.
        destruct (decide (j = i)) as [->|]; [assumption | apply Hnone; lia].
    + right. exists j, e. repeat split; [lia | lia | assumption | assumption |].
      intros k Hk. apply Hlast. lia.
Qed.

Lemma backtrack_le stop text i : (backtrack stop text i <= i)%nat.
Proof. induction i as [|i IH]; cbn; [lia|]. destruct (stop _); lia. Qed.

Lemma candidate_end_range text i e :
  candidate_end text i = Some e -> (i < e <= i + 3)%nat.
Proof.
  unfold candidate_end. intros H.
  repeat match type of H with
         | (if ?b then _ else _) = _ => destruct b
         end; try discriminate; injection H as <-; lia.
Qed.

Lemma starts_with_not_nul l text i :
  Forall (fun c => c <> NUL) l ->
  starts_with l text i = true -> l = [] \/ (i + length l <= length text)%nat.
Proof.
  revert i. induction l as [|c l IH]; intros i Hl H; cbn in *; [left; reflexivity|].
  apply Forall_cons in Hl as [Hc Hl]. right.
  apply andb_true_iff in H as [H1 H2]. apply chr_eqb_eq in H1.
  assert (i < length text)%nat as Hi.
  { destruct (Nat.lt_ge_cases i (length text)) as [|Hge]; [assumption|].
    rewrite (char_at_ge text i Hge) in H1. congruence. }
  destruct (IH (S i) Hl H2) as [-> | Hle]; cbn; lia.
Qed.

Lemma lit_cpp_nul_free : Forall (fun c => c <> NUL) (lit ".cpp").
Proof. repeat constructor; discriminate. Qed.
Lemma lit_cc_nul_free : Forall (fun c => c <> NUL) (lit ".cc").
Proof. repeat constructor; discriminate. Qed.
Lemma lit_c_nul_free : Forall (fun c => c <> NUL) (lit ".c").
Proof. repeat constructor; discriminate. Qed.

(** The extension found lies inside the text. *)
Lemma candidate_end_inside text i e :
  candidate_end text i = Some e -> (e < length text)%nat.
Proof.
  unfold candidate_end. intros H.
  destruct (starts_with (lit ".cpp") text i) eqn:H1.
  { apply starts_with_not_nul in H1 as [H1 | H1]; [discriminate | |apply lit_cpp_nul_free].
    cbn in H1. inversion H. lia. }
  destruct (starts_with (lit ".cc") text i) eqn:H2.
  { apply starts_with_not_nul in H2 as [H2 | H2]; [discriminate | |apply lit_cc_nul_free].
    cbn in H2. inversion H. lia. }
  destruct (starts_with (lit ".c") text i) eqn:H3; cbn in H; [|discriminate].
  apply starts_with_not_nul in H3 as [H3 | H3];
    [discriminate | |apply lit_c_nul_free]. cbn in H3.
  destruct (_ || _); inversion H. lia.
Qed.

Lemma occurrence_end_candidate text i e :
  occurrence_end text i = Some e ->
  candidate_end text i = Some e /\
  has_slash text (backtrack is_space text i) e = true.
Proof.
  unfold occurrence_end. destruct (candidate_end text i) as [ce|]; [|discriminate].
  destruct (has_slash _ _ _) eqn:Hs; [|discriminate].
  intros H. injection H as <-. auto.
Qed.

Lemma to_int_nat_small (n : Z) : 0 <= n < 4096 -> to_int n = n.
Proof. intros H. apply to_int_small. lia. Qed.

Lemma extract_filename_common_spec text tl r :
  nul_free text -> (length text <= tl)%nat -> (length text < 4096)%nat ->
  extract_filename_common text tl = Some r <->
  exists i e,
    (i < length text)%nat /\
    occurrence_end text i = Some e /\
    (forall k, (i < k < length text)%nat -> occurrence_end text k = None) /\
    (e - backtrack is_space_or_quote text e + 1 < 1000)%nat /\
    r = strip_leading_dotdot (path_at text e).
Proof.
  intros Hnf Htl Hlen. unfold extract_filename_common, path_at.
  assert (forall e, (e < length text)%nat ->
            to_int (Z.of_nat e - Z.of_nat (backtrack is_space_or_quote text e) + 1)
            = Z.of_nat (e - backtrack is_space_or_quote text e + 1)) as Hint.
  { intros e He. pose proof (backtrack_le is_space_or_quote text e).
    rewrite to_int_nat_small by lia. lia. }
  destruct (scan_suffixes_last text tl text 0 None Hnf)
    as [[Hres Hnone] | [j [e [Hj [Hocc [Hres Hlast]]]]]]; [lia | |].
  - rewrite Hres. split; [discriminate|].
    intros [i [e [Hi [Hocc _]]]]. rewrite Hnone in Hocc by lia. discriminate.
  - rewrite Hres.
    assert (e < length text)%nat as He.
    { apply occurrence_end_candidate in Hocc as [Hc _].
      eapply candidate_end_inside; eauto. }
    rewrite (Hint e He). rewrite Nat2Z.id.
    split.
    + intros H. exists j, e.
      destruct ((Z.of_nat (e - backtrack is_space_or_quote text e + 1) <? 1000)
                && (0 <? Z.of_nat (e - backtrack is_space_or_quote text e + 1)))
        eqn:E; [|discriminate].
      apply andb_true_iff in E as [E1 E2]. apply Z.ltb_lt in E1.
      injection H as <-. repeat split; [lia | assumption | | lia].
      intros k Hk. apply Hlast. lia.
    + intros [i [e' [Hi [Hocc' [Hlast' [Hshort ->]]]]]].
      assert (i = j) as ->.
      { destruct (Nat.lt_trichotomy i j) as [Hlt | [Heq | Hgt]]; [|assumption|].
        - rewrite Hlast' in Hocc by lia. discriminate.
        - rewrite Hlast in Hocc' by lia. discriminate. }
      assert (e' = e) as -> by congruence.
      replace (Z.of_nat (e - backtrack is_space_or_quote text e + 1) <? 1000)
        with true by (symmetry; apply Z.ltb_lt; lia).
      replace (0 <? Z.of_nat (e - backtrack is_space_or_quote text e + 1))
        with true by (symmetry; apply Z.ltb_lt; lia).
      reflexivity.
Qed.

Lemma c_str_nul_free s : nul_free (c_str s).
Proof.
  induction s as [|c s IH]; cbn; [constructor|].
  destruct (chr_eqb c NUL) eqn:E; [constructor|].
  constructor; [apply chr_eqb_neq; assumption | assumption].
Qed.

Lemma join_args_nul_free argv : nul_free (join_args argv).
Proof.
  induction argv as [|a [|b rest] IH]; cbn -[c_str].
  - constructor.
  - apply c_str_nul_free.
  - apply Forall_app. split; [apply c_str_nul_free|].
    constructor; [discriminate | exact IH].
Qed.

Lemma total_len_shift (argv : list cstring) (n : Z) :
  fold_left (fun n a => n + Z.of_nat (length (c_str a)) + 1) argv n =
  n + fold_left (fun n a => n + Z.of_nat (length (c_str a)) + 1) argv 0.
Proof.
  revert n. induction argv as [|a argv IH]; intros n; cbn [fold_left]; [lia|].
  rewrite (IH (n + Z.of_nat (length (c_str a)) + 1)).
  rewrite (IH (0 + Z.of_nat (length (c_str a)) + 1)). lia.
Qed.

Lemma total_len_join (argv : list cstring) :
  argv <> [] ->
  fold_left (fun n a => n + Z.of_nat (length (c_str a)) + 1) argv 0 =
  Z.of_nat (length (join_args argv)) + 1.
Proof.
  induction argv as [|a [|b rest] IH]; intros Hne; [congruence| |].
  - cbn. lia.
  - change (fold_left _ (a :: b :: rest) 0)
      with (fold_left (fun n a => n + Z.of_nat (length (c_str a)) + 1) (b :: rest)
                      (0 + Z.of_nat (length (c_str a)) + 1)).
    rewrite total_len_shift, IH by discriminate.
    change (join_args (a :: b :: rest))
      with (c_str a ++ " "%char :: join_args (b :: rest)).
    rewrite length_app. cbn [length]. lia.
Qed.

Lemma classify_text x :
  classify x =
  match classifier_text x with
  | Some (text, tl) => extract_filename_common text tl
  | None => None
  end.
Proof.
  destruct x as [argv | bytes]; cbn.
  - unfold extract_filename_from_argv. destruct (_ || _); reflexivity.
  - destruct (_ =? _)%nat; reflexivity.
Qed.

Lemma classifier_text_shape x text tl :
  classifier_text x = Some (text, tl) ->
  nul_free text /\ (length text <= tl)%nat /\ (length text < 4096)%nat.
Proof.
  destruct x as [argv | bytes]; cbn.
  - destruct (Z.of_nat (length argv) =? 0) eqn:E0; [discriminate|].
    cbn [orb]. destruct (ARGV_BUF_SIZE <=? _) eqn:E1; [discriminate|].
    intros H. injection H as <- <-.
    apply Z.leb_gt in E1. rewrite total_len_join in E1.
    + unfold ARGV_BUF_SIZE in E1. split; [apply join_args_nul_free | lia].
    + intros ->. cbn in E0. discriminate.
  - destruct (_ =? _)%nat eqn:E0; [discriminate|].
    intros H. injection H as <- <-. apply Nat.eqb_neq in E0.
    rewrite length_map, !length_take in *. unfold ARGV_BUF_SIZE in *.
    split; [|lia].
    apply Forall_forall. intros c Hc. apply list_elem_of_In in Hc.
    apply in_map_iff in Hc as [c0 [<- _]].
    destruct (chr_eqb c0 NUL) eqn:E; [discriminate | apply chr_eqb_neq; assumption].
Qed.

(** The result of the classifier in terms of the flattened text. *)
Lemma classify_occurrence (x : classifier_input) (r : cstring) :
  classify x = Some r <->
  exists text tl i e,
    classifier_text x = Some (text, tl) /\
    (i < length text)%nat /\
    occurrence_end text i = Some e /\
    (forall k, (i < k < length text)%nat -> occurrence_end text k = None) /\
    (e - backtrack is_space_or_quote text e + 1 < 1000)%nat /\
    r = strip_leading_dotdot (path_at text e).
Proof.
  rewrite classify_text.
  destruct (classifier_text x) as [[text tl]|] eqn:Htext.
  - destruct (classifier_text_shape x text tl Htext) as [Hnf [Htl Hlen]].
    rewrite (extract_filename_common_spec text tl r Hnf Htl Hlen).
    split.
    + intros [i [e H]]. exists text, tl, i, e. auto.
    + intros [text' [tl' [i [e [Heq H]]]]]. injection Heq as <- <-.
      exists i, e. exact H.
  - split; [discriminate|]. intros [text [tl [i [e [Heq _]]]]]. discriminate.
Qed.



(** *** Idempotence *)

Lemma backtrack_clear stop text i k :
  (backtrack stop text i <= k < i)%nat -> stop (char_at text k) = false.
Proof.
  induction i as [|i IH]; cbn; [lia|].
  destruct (stop (char_at text i)) eqn:E; [lia|].
  intros Hk. destruct (decide (k = i)) as [->|]; [assumption | apply IH; lia].
Qed.

Lemma backtrack_below stop text i m :
  (m <= i)%nat ->
  (forall k, (m <= k < i)%nat -> stop (char_at text k) = false) ->
  (backtrack stop text i <= m)%nat.
Proof.
  induction i as [|i IH]; cbn; intros Hm Hclear; [lia|].
  destruct (decide (m = S i)) as [->|Hne].
  - destruct (stop _); [lia | pose proof (backtrack_le stop text i); lia].
  - rewrite Hclear by lia. apply IH; [lia|]. intros k Hk. apply Hclear. lia.
Qed.

Lemma starts_with_chars l text i :
  starts_with l text i = true ->
  forall k, (k < length l)%nat -> char_at text (i + k) = char_at l k.
Proof.
  revert i. induction l as [|c l IH]; intros i H k Hk; cbn in *; [lia|].
  apply andb_true_iff in H as [H1 H2]. apply chr_eqb_eq in H1.
  destruct k as [|k].
  - rewrite Nat.add_0_r. exact H1.
  - replace (i + S k)%nat with (S i + k)%nat by lia.
    rewrite (IH (S i) H2 k) by lia. reflexivity.
Qed.

Lemma starts_with_app l q t k :
  starts_with l (q ++ t) (length q + k) = starts_with l t k.
Proof.
  revert k. induction l as [|c l IH]; intros k; cbn; [reflexivity|].
  rewrite char_at_app_r. f_equal.
  replace (S (length q + k)) with (length q + S k)%nat by lia. apply IH.
Qed.

(** The extension test only looks at the text from [i] on. *)
Lemma candidate_end_app q t k :
  candidate_end (q ++ t) (length q + k) =
  option_map (fun e => (length q + e)%nat) (candidate_end t k).
Proof.
  unfold candidate_end. rewrite !starts_with_app.
  replace (length q + k + 2)%nat with (length q + (k + 2))%nat by lia.
  rewrite char_at_app_r.
  repeat match goal with
         | |- context [if ?b then _ else _] => destruct b
         end; cbn; f_equal; lia.
Qed.

(** Every extension the scan accepts is one of the three suffixes, sitting
    at [i .. e]. *)
Lemma candidate_end_suffix text i e :
  candidate_end text i = Some e ->
  exists S, S ∈ source_suffixes /\ e = (i + length S - 1)%nat /\
            starts_with S text i = true.
Proof.
  unfold candidate_end, source_suffixes. intros H.
  destruct (starts_with (lit ".cpp") text i) eqn:H1.
  { exists (lit ".cpp"). injection H as <-. split; [repeat constructor | split; [cbn; lia | assumption]]. }
  destruct (starts_with (lit ".cc") text i) eqn:H2.
  { exists (lit ".cc"). injection H as <-. split; [repeat constructor | split; [cbn; lia | assumption]]. }
  destruct (starts_with (lit ".c") text i) eqn:H3; cbn in H; [|discriminate].
  destruct (_ || _); [|discriminate].
  exists (lit ".c"). injection H as <-. split; [repeat constructor | split; [cbn; lia | assumption]].
Qed.

Lemma candidate_end_needs_dot text k :
  char_at text k <> "."%char -> candidate_end text k = None.
Proof.
  intros Hk. apply chr_eqb_neq in Hk. unfold candidate_end. cbn. rewrite Hk.
  reflexivity.
Qed.

Lemma suffix_chars S k :
  S ∈ source_suffixes -> (k < length S)%nat ->
  is_space_or_quote (char_at S k) = false /\ char_at S k <> NUL /\
  is_slash (char_at S k) = false /\
  (0 < k -> char_at S k <> "."%char)%nat.
Proof.
  unfold source_suffixes. intros HS Hk.
  repeat (apply elem_of_cons in HS as [-> | HS]);
    [| | |apply elem_of_nil in HS; contradiction];
    cbn in Hk; destruct k as [|[|[|[|k]]]]; try lia;
    cbn; repeat split; try discriminate; lia.
Qed.

Lemma suffix_is_last_candidate q S :
  S ∈ source_suffixes ->
  candidate_end (q ++ S) (length q) = Some (length q + length S - 1)%nat.
Proof.
  intros HS. replace (length q) with (length q + 0)%nat at 1 by lia.
  rewrite candidate_end_app. unfold source_suffixes in HS.
  repeat (apply elem_of_cons in HS as [-> | HS]);
    [| | |apply elem_of_nil in HS; contradiction];
    cbn; f_equal; lia.
Qed.

Lemma strip_leading_dotdot_rel (P : cstring -> cstring -> Prop) :
  (forall s, strip_leading_dotdot s = s -> P s s) ->
  (forall s' r, P s' r -> P ("."%char :: "."%char :: "/"%char :: s') r) ->
  forall s, P s (strip_leading_dotdot s).
Proof.
  intros Hbase Hstep s.
  remember (length s) as n eqn:Hn. revert s Hn.
  induction n as [n IH] using lt_wf_ind. intros s Hn.
  destruct s as [|a [|b [|c s']]]; try (apply Hbase; reflexivity).
  cbn [strip_leading_dotdot].
  destruct (chr_eqb a "." && chr_eqb b "." && chr_eqb c "/") eqn:E.
  - apply andb_true_iff in E as [E Ec]. apply andb_true_iff in E as [Ea Eb].
    apply chr_eqb_eq in Ea, Eb, Ec. subst a b c.
    apply Hstep. apply (IH (length s')); [cbn in Hn; lia | reflexivity].
  - apply Hbase. cbn [strip_leading_dotdot]. rewrite E. reflexivity.
Qed.

Lemma strip_leading_dotdot_idem s :
  strip_leading_dotdot (strip_leading_dotdot s) = strip_leading_dotdot s.
Proof.
  apply (strip_leading_dotdot_rel (fun _ r => strip_leading_dotdot r = r)); auto.
Qed.

Lemma strip_leading_dotdot_suffix s :
  exists p, s = p ++ strip_leading_dotdot s.
Proof.
  apply (strip_leading_dotdot_rel (fun s r => exists p, s = p ++ r)).
  - intros s0 _. exists []. reflexivity.
  - intros s' r [p ->]. exists ("."%char :: "."%char :: "/"%char :: p). reflexivity.
Qed.

(** Stripping [../] segments cannot eat into the suffix: a suffix has no
    slash. *)
Lemma strip_leading_dotdot_ending S s :
  S ∈ source_suffixes ->
  (exists q, s = q ++ S) -> exists q, strip_leading_dotdot s = q ++ S.
Proof.
  intros HS.
  apply (strip_leading_dotdot_rel
           (fun s r => (exists q, s = q ++ S) -> exists q, r = q ++ S)); [auto|].
  intros s' r IH [q Hq]. apply IH. clear IH.
  unfold source_suffixes in HS.
  destruct q as [|a [|b [|c q]]]; cbn in Hq.
  - repeat (apply elem_of_cons in HS as [-> | HS]); try discriminate.
    apply elem_of_nil in HS. contradiction.
  - repeat (apply elem_of_cons in HS as [-> | HS]); try discriminate.
    apply elem_of_nil in HS. contradiction.
  - repeat (apply elem_of_cons in HS as [-> | HS]); try discriminate.
    apply elem_of_nil in HS. contradiction.
  - exists q. congruence.
Qed.

Lemma char_at_drop n text k : char_at (drop n text) k = char_at text (n + k).
Proof.
  unfold char_at. revert text. induction n as [|n IH]; intros text; [reflexivity|].
  destruct text as [|a text]; cbn; [destruct k; reflexivity | apply IH].
Qed.

Lemma char_at_take n text k :
  (k < n)%nat -> char_at (take n text) k = char_at text k.
Proof.
  unfold char_at. revert text k. induction n as [|n IH]; intros text k Hk; [lia|].
  destruct text as [|a text]; cbn; [reflexivity|].
  destruct k as [|k]; [reflexivity | apply IH; lia].
Qed.

Lemma path_at_length text e :
  (e < length text)%nat ->
  length (path_at text e) = (e - backtrack is_space_or_quote text e + 1)%nat.
Proof.
  intros He. unfold path_at. pose proof (backtrack_le is_space_or_quote text e).
  rewrite length_take, length_drop. lia.
Qed.

Lemma path_at_char text e k :
  (k < e - backtrack is_space_or_quote text e + 1)%nat ->
  char_at (path_at text e) k =
  char_at text (backtrack is_space_or_quote text e + k).
Proof.
  intros Hk. unfold path_at. rewrite char_at_take by assumption.
  apply char_at_drop.
Qed.

(** A list is determined by its length and its characters. *)
Lemma cstring_ext (a b : cstring) :
  length a = length b ->
  (forall k, (k < length a)%nat -> char_at a k = char_at b k) -> a = b.
Proof.
  intros Hlen Hk. apply (nth_ext a b NUL NUL Hlen). exact Hk.
Qed.

Lemma ends_decompose (r S : cstring) :
  (length S <= length r)%nat ->
  (forall k, (k < length S)%nat ->
             char_at r (length r - length S + k) = char_at S k) ->
  r = take (length r - length S) r ++ S.
Proof.
  intros Hlen Hk.
  rewrite <- (take_drop (length r - length S) r) at 1. f_equal.
  apply cstring_ext.
  - rewrite length_drop. lia.
  - intros k Hlt. rewrite length_drop in Hlt. rewrite char_at_drop.
    apply Hk. lia.
Qed.

Lemma suffix_length S : S ∈ source_suffixes -> (2 <= length S <= 4)%nat.
Proof.
  unfold source_suffixes. intros HS.
  repeat (apply elem_of_cons in HS as [-> | HS]); cbn; try lia.
  apply elem_of_nil in HS. contradiction.
Qed.

Lemma Forall_chars (P : ascii -> Prop) (l : cstring) :
  (forall k, (k < length l)%nat -> P (char_at l k)) -> Forall P l.
Proof.
  intros H. apply Forall_lookup. intros i x Hx.
  rewrite <- (char_at_lookup l i x Hx). apply H. eapply lookup_lt_Some; eauto.
Qed.

Lemma Forall_char_at (P : ascii -> Prop) (l : cstring) k :
  Forall P l -> (k < length l)%nat -> P (char_at l k).
Proof.
  intros H Hk. destruct (lookup_lt_is_Some_2 l k Hk) as [c Hc].
  rewrite (char_at_lookup l k c Hc). rewrite Forall_lookup in H. eauto.
Qed.

(** The path cut out for an accepted occurrence ends in a source suffix and
    has neither a space nor a double quote in it. *)
Lemma path_at_shape text i e :
  nul_free text -> occurrence_end text i = Some e ->
  exists S q, S ∈ source_suffixes /\ path_at text e = q ++ S /\
              Forall path_char (path_at text e).
Proof.
  intros Hnf Hocc. apply occurrence_end_candidate in Hocc as [Hcand _].
  pose proof (candidate_end_inside text i e Hcand) as He.
  destruct (candidate_end_suffix text i e Hcand) as [S [HS [Hend Hstart]]].
  pose proof (suffix_length S HS) as HlenS.
  pose proof (starts_with_chars S text i Hstart) as Hchars.
  set (start := backtrack is_space_or_quote text e).
  assert (start <= i)%nat as Hsi.
  { apply backtrack_below; [lia|]. intros k Hk.
    replace k with (i + (k - i))%nat by lia. rewrite Hchars by lia.
    apply suffix_chars; [assumption | lia]. }
  pose proof (path_at_length text e He) as Hlen. fold start in Hlen.
  exists S, (take (length (path_at text e) - length S) (path_at text e)).
  split; [assumption|]. split.
  - apply ends_decompose; [lia|]. intros k Hk.
    rewrite path_at_char by (fold start; lia). fold start.
    replace (start + (length (path_at text e) - length S + k))%nat
      with (i + k)%nat by lia.
    apply Hchars. assumption.
  - apply Forall_chars. intros k Hk. rewrite Hlen in Hk.
    rewrite path_at_char by (fold start; lia). fold start. split.
    + apply char_at_not_nul; [assumption | lia].
    + destruct (decide (start + k = e)%nat) as [Heq | Hne].
      * rewrite Heq. replace e with (i + (length S - 1))%nat by lia.
        rewrite Hchars by lia. apply suffix_chars; [assumption | lia].
      * apply (backtrack_clear is_space_or_quote text e). fold start. lia.
Qed.

Lemma backtrack_zero stop text i :
  (forall k, (k < i)%nat -> stop (char_at text k) = false) ->
  backtrack stop text i = 0%nat.
Proof.
  intros H. pose proof (backtrack_below stop text i 0) as Hb.
  assert (backtrack stop text i <= 0)%nat; [|lia].
  apply Hb; [lia|]. intros k Hk. apply H. lia.
Qed.

Lemma existsb_chars (f : ascii -> bool) (pre r : cstring) :
  existsb (fun k => f (char_at (pre ++ r) k)) (seq (length pre) (length r)) =
  existsb f r.
Proof.
  revert pre. induction r as [|c r IH]; intros pre; [reflexivity|].
  cbn [length seq existsb]. f_equal.
  - replace (length pre) with (length pre + 0)%nat at 1 by lia.
    rewrite char_at_app_r. reflexivity.
  - specialize (IH (pre ++ [c])). rewrite <- app_assoc in IH. cbn in IH.
    rewrite length_app in IH. cbn in IH.
    replace (S (length pre)) with (length pre + 1)%nat by lia. exact IH.
Qed.

Lemma has_slash_whole r :
  r <> [] -> has_slash r 0 (length r - 1) = existsb is_slash r.
Proof.
  intros Hne. unfold has_slash.
  replace (S (length r - 1) - 0)%nat with (length r)
    by (destruct r; [congruence | cbn; lia]).
  apply (existsb_chars is_slash [] r).
Qed.

Lemma has_slash_inside r a b :
  (b < length r)%nat -> has_slash r a b = true -> existsb is_slash r = true.
Proof.
  unfold has_slash. intros Hb H.
  apply existsb_exists in H as [k [Hin Hk]]. apply in_seq in Hin.
  apply existsb_exists. exists (char_at r k). split; [|assumption].
  apply nth_In. lia.
Qed.

Lemma path_char_no_space c : path_char c -> is_space c = false.
Proof.
  intros [_ H]. unfold is_space_or_quote in H.
  apply orb_false_iff in H as [H _]. exact H.
Qed.

Lemma c_str_id s : nul_free s -> c_str s = s.
Proof.
  induction 1 as [|c s Hc _ IH]; cbn; [reflexivity|].
  apply chr_eqb_neq in Hc. rewrite Hc, IH. reflexivity.
Qed.

(** Classifying a returned path again: it is found again when it still has
    a slash, and rejected otherwise. *)
Lemma extract_filename_of_path r S q :
  S ∈ source_suffixes -> r = q ++ S -> Forall path_char r ->
  strip_leading_dotdot r = r -> (length r < 1000)%nat ->
  extract_filename_common r (length r) =
  if existsb is_slash r then Some r else None.
Proof.
  intros HS Hr Hpath Hstrip Hshort.
  pose proof (suffix_length S HS) as HlenS.
  assert (length r = length q + length S)%nat as Hlen
    by (rewrite Hr, length_app; reflexivity).
  assert (nul_free r) as Hnf.
  { eapply Forall_impl; [exact Hpath|]. intros c [Hc _]. exact Hc. }
  assert (forall stop i, (forall c, path_char c -> stop c = false) ->
            (i <= length r)%nat -> backtrack stop r i = 0%nat) as Hback.
  { intros stop i Hstop Hi. apply backtrack_zero. intros k Hk.
    apply Hstop. apply Forall_char_at; [assumption | lia]. }
  destruct (existsb is_slash r) eqn:Hslash.
  - apply extract_filename_common_spec; [assumption | lia | lia |].
    exists (length q), (length q + length S - 1)%nat.
    assert (backtrack is_space_or_quote r (length q + length S - 1) = 0)%nat
      as Hstart by (apply Hback; [intros c [_ Hc]; exact Hc | lia]).
    split; [lia|]. split; [|split; [|split]].
    + unfold occurrence_end. rewrite Hr at 1.
      rewrite (suffix_is_last_candidate q S HS).
      rewrite Hback by (auto using path_char_no_space || lia).
      replace (length q + length S - 1)%nat with (length r - 1)%nat by lia.
      rewrite has_slash_whole, Hslash; [reflexivity|].
      intros ->. cbn in Hlen. lia.
    + intros k Hk. unfold occurrence_end.
      rewrite candidate_end_needs_dot; [reflexivity|].
      rewrite Hr. replace k with (length q + (k - length q))%nat by lia.
      rewrite char_at_app_r. apply suffix_chars; [assumption | lia | lia].
    + rewrite Hstart. lia.
    + unfold path_at. rewrite Hstart, drop_0.
      rewrite take_ge by lia. symmetry. exact Hstrip.
  - destruct (extract_filename_common r (length r)) as [r'|] eqn:E; [|reflexivity].
    apply extract_filename_common_spec in E; [|assumption | lia | lia].
    destruct E as [i [e [_ [Hocc _]]]].
    apply occurrence_end_candidate in Hocc as [Hcand Hs].
    apply has_slash_inside in Hs; [congruence|].
    eapply candidate_end_inside; eauto.
Qed.

(** C6 (as stated it fails).  [cc -c ../a.c] is classified to [a.c]; the
    segment [../] held its only slash, and classifying [a.c] gives none. *)
Lemma classify_not_idempotent :
  classify (Argv argv_updir) = Some (lit "a.c") /\
  classify (Argv [lit "a.c"]) = None /\
  classify (Argv [lit "a.c"]) <> classify (Argv argv_updir).
Proof. repeat split. vm_compute. discriminate. Qed.

(** C6 (amended).  A path the classifier returns is classified to itself
    when it still contains a slash, and to none when it does not. *)
Theorem classify_again (x : classifier_input) (r : cstring) :
  classify x = Some r ->
  classify (Argv [r]) = if existsb is_slash r then Some r else None.
Proof.
  intros Hx. apply classify_occurrence in Hx
    as [text [tl [i [e [Htext [Hi [Hocc [_ [Hshort ->]]]]]]]]].
  destruct (classifier_text_shape x text tl Htext) as [Hnf [_ _]].
  destruct (path_at_shape text i e Hnf Hocc) as [S [q [HS [Hq Hpath]]]].
  assert (e < length text)%nat as He.
  { apply occurrence_end_candidate in Hocc as [Hc _].
    eapply candidate_end_inside; eauto. }
  pose proof (path_at_length text e He) as Hlen.
  pose proof (strip_leading_dotdot_idem (path_at text e)) as Hidem.
  destruct (strip_leading_dotdot_suffix (path_at text e)) as [p Hp].
  destruct (strip_leading_dotdot_ending S (path_at text e) HS) as [q' Hq'];
    [exists q; assumption|].
  remember (strip_leading_dotdot (path_at text e)) as r eqn:Hrdef. clear Hrdef.
  assert (Forall path_char r) as Hr.
  { rewrite Hp in Hpath. apply Forall_app in Hpath as [_ H]. exact H. }
  assert (length r < 1000)%nat as Hrlen.
  { apply (f_equal length) in Hp. rewrite length_app in Hp. lia. }
  assert (nul_free r) as Hrnf.
  { eapply Forall_impl; [exact Hr|]. intros c [Hc _]. exact Hc. }
  transitivity (extract_filename_common r (length r));
    [|exact (extract_filename_of_path r S q' HS Hq' Hr Hidem Hrlen)].
  cbn -[extract_filename_common]. unfold extract_filename_from_argv.
  cbn -[extract_filename_common c_str]. rewrite (c_str_id r Hrnf).
  replace (ARGV_BUF_SIZE <=? 0 + Z.of_nat (length r) + 1) with false
    by (symmetry; apply Z.leb_gt; unfold ARGV_BUF_SIZE; lia).
  reflexivity.
Qed.

Lemma classify_again_witness :
  classify (Argv [lit "src/a.cpp"]) =
  if existsb is_slash (lit "src/a.cpp") then Some (lit "src/a.cpp") else None.
Proof.
  apply (classify_again (Argv [lit "cc"; lit "-c"; lit "../src/a.cpp"])).
  vm_compute. reflexivity.
Defined.

(** ** Descendant walker *)


Lemma scan_descendants_absent l i child parent_pid prof_idx found_ppidx :
  Forall (fun d => d_pid d <> child /\ d_pid d <> parent_pid) l ->
  scan_descendants l i child parent_pid (-1) prof_idx found_ppidx =
  (-1, prof_idx, found_ppidx).
Proof.
  intros H. revert i. induction H as [|d l [Hc Hp] _ IH]; intros i; cbn; [reflexivity|].
  apply Z.eqb_neq in Hc, Hp. rewrite Hc, Hp. cbn. apply IH.
Qed.

Lemma to_long_neg P : 0 < P <= 2 ^ 63 -> to_long (- P) = - P.
Proof.
  intros H. unfold to_long, wrap_ulong, ULONG_MOD.
  replace (- P) with (2 ^ 64 - P + (-1) * 2 ^ 64) by lia.
  rewrite Z.mod_add by lia. rewrite Z.mod_small by lia.
  destruct (2 ^ 64 - P <? 2 ^ 63) eqn:E;
    [apply Z.ltb_lt in E | apply Z.ltb_ge in E]; lia.
Qed.

(** The total after a release: the amount under the released pid is taken
    off. *)
Lemma release_in_region_total r p mb :
  wf_region r -> mb < 0 -> ulong_range (total_reserved_mb r) ->
  total_reserved_mb (snd (reserve_in_region r p mb)) =
  wrap_ulong (total_reserved_mb r - reserved_under r p).
Proof.
  intros Hwf Hmb Htot. unfold reserve_in_region, reserved_under.
  assert ((mb <=? 0) = true) as Hle by (apply Z.leb_le; lia).
  destruct (find_reservation r p) as [i|].
  - unfold apply_reservation. rewrite Hle. reflexivity.
  - replace (mb =? 0) with false by (symmetry; apply Z.eqb_neq; lia).
    rewrite Z.sub_0_r, (wrap_ulong_small _ Htot).
    destruct (find_empty_slot r) as [e|] eqn:He; [|reflexivity].
    unfold apply_reservation. rewrite Hle. cbn.
    unfold slot_reserved. cbn.
    rewrite list_lookup_insert_eq.
    + cbn. rewrite Z.sub_0_r. apply wrap_ulong_small. assumption.
    + unfold find_empty_slot in He.
      apply first_index_Some in He as [[s [Hs _]] _].
      apply lookup_take_Some in Hs as [Hs _]. eapply lookup_lt_Some; eauto.
Qed.

(** Slots of other owners are not touched by a call for [p]. *)
Lemma reserve_in_region_others r p mb (j : nat) s :
  wf_region r ->
  reservations r !! j = Some s -> pid s <> 0 -> pid s <> p ->
  reservations (snd (reserve_in_region r p mb)) !! j = Some s.
Proof.
  intros Hwf Hs H0 Hp. rewrite reserve_in_region_other; [assumption|].
  unfold target_slot. intros Ht.
  destruct (find_reservation r p) as [i|] eqn:Hfind.
  - injection Ht as ->.
    apply (find_reservation_Some r Hwf) in Hfind as [s' [Hs' [Hp' _]]]. congruence.
  - destruct (mb =? 0); [discriminate|]. unfold find_empty_slot in Ht.
    apply first_index_Some in Ht as [[s' [Hs' Hz]] _].
    apply lookup_take_Some in Hs' as [Hs' _]. apply Z.eqb_eq in Hz. congruence.
Qed.



(** *** [current_mb] only grows *)

Lemma mono_below_refl b m : mono_below b m m.
Proof. intros i d _ Hd. exists d. split; [assumption | split; [reflexivity | lia]]. Qed.

Lemma mono_below_trans b m1 m2 m3 :
  mono_below b m1 m2 -> mono_below b m2 m3 -> mono_below b m1 m3.
Proof.
  intros H12 H23 i d Hi Hd.
  destruct (H12 i d Hi Hd) as [d2 [Hd2 [Hp2 Hc2]]].
  destruct (H23 i d2 Hi Hd2) as [d3 [Hd3 [Hp3 Hc3]]].
  exists d3. split; [assumption | split; [congruence | lia]].
Qed.

Lemma mono_below_le b b' m m' : b <= b' -> mono_below b' m m' -> mono_below b m m'.
Proof. intros Hb H i d Hi Hd. apply H; [lia | assumption]. Qed.

Lemma tracked_preserved_refl m : tracked_preserved m m.
Proof. split; [lia | apply mono_below_refl]. Qed.

Lemma tracked_preserved_trans m1 m2 m3 :
  tracked_preserved m1 m2 -> tracked_preserved m2 m3 -> tracked_preserved m1 m3.
Proof.
  intros [Hc12 H12] [Hc23 H23]. split; [lia|].
  eapply mono_below_trans; [exact H12|].
  eapply mono_below_le; [|exact H23]. assumption.
Qed.

Lemma to_int_ge z : z < 2 ^ 31 -> z <= to_int z.
Proof.
  intros Hz. unfold to_int, wrap_uint, UINT_MOD.
  pose proof (Z.mod_pos_bound z (2 ^ 32) ltac:(lia)) as Hb.
  destruct (z mod 2 ^ 32 <? 2 ^ 31) eqn:E;
    [apply Z.ltb_lt in E | apply Z.ltb_ge in E].
  - destruct (Z_lt_ge_dec z 0) as [Hneg | Hpos]; [lia|].
    rewrite Z.mod_small by lia. lia.
  - destruct (Z_lt_ge_dec z 0) as [Hneg | Hpos].
    + assert (z mod 2 ^ 32 = z + 2 ^ 32 * (- (z / 2 ^ 32))) as Hm
        by (pose proof (Z.div_mod z (2 ^ 32) ltac:(lia)); lia).
      assert (z / 2 ^ 32 < 0) by (apply Z.div_lt_upper_bound; lia).
      nia.
    + rewrite Z.mod_small in E by lia. lia.
Qed.

(** The first half of the loop body keeps every tracked entry; a new entry
    goes to the first unused index. *)
Lemma discover_preserves env child parent_pid parent_idx rss_kb cmdline st dr :
  discover env child parent_pid parent_idx rss_kb cmdline st = Some dr ->
  tracked_preserved (w_monitoring st) (w_monitoring (dr_state dr)) /\
  (dr_new_descendant dr = true ->
   compile_count (w_monitoring st) <= dr_descendant_idx dr).
Proof.
  unfold discover.
  destruct (scan_descendants _ _ _ _ _ _ _) as [[descendant_idx prof_idx] found_ppidx].
  set (pidx := if (descendant_idx <? 0) && negb (parent_idx =? found_ppidx)
               then found_ppidx else parent_idx).
  destruct ((descendant_idx <? 0) && (pidx <? 0)
            && (MAX_TRACKED_DESCENDANTS <=? compile_count (w_monitoring st))).
  { intros H. injection H as <-. cbn.
    split; [apply tracked_preserved_refl | discriminate]. }
  destruct (match (if (descendant_idx <? 0) && (pidx <? 0)
                   then extract_filename_from_cmdline cmdline else None) with
            | Some name => attribute_profile (env_now env) rss_kb name (w_store st)
            | None => Some (0, prof_idx, w_store st)
            end) as [[[profile_peak_mb prof_idx'] store]|]; [|discriminate].
  destruct (0 <=? descendant_idx).
  { intros H. injection H as <-. cbn.
    split; [apply tracked_preserved_refl | discriminate]. }
  destruct (if 0 <? profile_peak_mb
            then reserve_memory_mb (env_host env) (w_process st) child
                                   (to_long (- profile_peak_mb))
            else Some (0, w_process st)) as [[rc proc]|]; [|discriminate].
  intros H. injection H as <-. cbn.
  destruct ((pidx <? 0) && (compile_count (w_monitoring st) <? MAX_TRACKED_DESCENDANTS))
    eqn:Hadd.
  - apply andb_true_iff in Hadd as [_ Hlt]. apply Z.ltb_lt in Hlt.
    unfold MAX_TRACKED_DESCENDANTS in Hlt.
    split; [split|]; cbn.
    + unfold wrap_uint, UINT_MOD.
      destruct (Z_lt_ge_dec (compile_count (w_monitoring st)) 0) as [Hneg | Hpos].
      * pose proof (Z.mod_pos_bound (compile_count (w_monitoring st) + 1) (2 ^ 32)
                      ltac:(lia)). lia.
      * rewrite Z.mod_small by lia. lia.
    + intros i d Hi Hd. exists d. split; [|split; [reflexivity | lia]].
      cbn. rewrite list_lookup_alter_ne by lia. assumption.
    + intros _. apply to_int_ge. lia.
  - split; [apply tracked_preserved_refl | discriminate].
Qed.

(** The second half of the loop body overwrites [current_mb] of an entry
    that was already tracked only with a greater value. *)
Lemma account_preserves env dr rss_kb child_rss_kb child_jobs jobs unused st
      jobs' unused' st' b :
  account env dr rss_kb child_rss_kb child_jobs jobs unused st
    = Some (jobs', unused', st') ->
  (dr_new_descendant dr = true -> b <= dr_descendant_idx dr) ->
  compile_count (w_monitoring st') = compile_count (w_monitoring st) /\
  mono_below b (w_monitoring st) (w_monitoring st').
Proof.
  unfold account. intros H Hnew.
  destruct ((0 <=? dr_descendant_idx dr) && (0 <=? dr_profile_idx dr)) eqn:Hvalid;
    [|injection H as _ _ <-; split; [reflexivity | apply mono_below_refl]].
  apply andb_true_iff in Hvalid as [Hidx _]. apply Z.leb_le in Hidx.
  set (new_current_mb := wrap_ulong (rss_kb + child_rss_kb) / 1024) in *.
  set (seen := descendant_at env (w_monitoring st) (dr_descendant_idx dr)) in *.
  destruct ((current_mb seen <? new_current_mb) || dr_new_descendant dr) eqn:Hupd;
    [|injection H as _ _ <-; split; [reflexivity | apply mono_below_refl]].
  destruct (if peak_mb seen <? new_current_mb
            then record_file_memory_usage_by_index (env_now env) (dr_profile_idx dr)
                   new_current_mb 0 (w_store st)
            else Some (w_store st)) as [store|]; [|discriminate].
  injection H as _ _ <-. cbn. split; [reflexivity|].
  intros i d Hi Hd. unfold alter_descendant. cbn [descendants].
  destruct (decide (Z.to_nat (dr_descendant_idx dr) = i)) as [Heq | Hne].
  - assert (seen = d) as Hseen.
    { unfold seen, descendant_at.
      replace (dr_descendant_idx dr <? 0) with false
        by (symmetry; apply Z.ltb_ge; lia).
      rewrite Heq, Hd. reflexivity. }
    assert (dr_new_descendant dr = false) as Hold.
    { destruct (dr_new_descendant dr); [|reflexivity].
      specialize (Hnew eq_refl). lia. }
    rewrite Hold, orb_false_r, Hseen in Hupd. apply Z.ltb_lt in Hupd.
    eexists. split; [|split].
    + rewrite Heq, list_lookup_alter_eq, Hd. reflexivity.
    + reflexivity.
    + cbn. lia.
  - exists d. split; [|split; [reflexivity | lia]].
    rewrite list_lookup_alter_ne by assumption. assumption.
Qed.

(** Induction over what a pass shows, nested passes included. *)
Lemma proc_entry_nested_ind (P : proc_entry -> Prop) :
  (forall numeric child status cmdline nested,
      match nested with
      | Some l => Forall P l
      | None => True
      end ->
      P (ProcEntry numeric child status cmdline nested)) ->
  forall e, P e.
Proof.
  intros Hstep. fix IH 1. intros [numeric child status cmdline nested].
  apply Hstep. destruct nested as [l|]; [|exact I].
  induction l as [|e l IHl]; constructor; [apply IH | exact IHl].
Qed.

Lemma for_each_entry_preserves body l :
  Forall (fun e => forall s s', body e s = Some s' ->
            tracked_preserved (w_monitoring (ps_walker s))
                              (w_monitoring (ps_walker s'))) l ->
  forall s s', for_each_entry body l s = Some s' ->
    tracked_preserved (w_monitoring (ps_walker s)) (w_monitoring (ps_walker s')).
Proof.
  induction 1 as [|e l He _ IH]; intros s s' H; cbn in H.
  - injection H as <-. apply tracked_preserved_refl.
  - destruct (body e s) as [s1|] eqn:Hs1; [|discriminate].
    eapply tracked_preserved_trans; [exact (He s s1 Hs1) | exact (IH s1 s' H)].
Qed.

Lemma walk_listing_preserves visit listing parent_pid depth parent_idx unused st
      rss jobs unused' st' :
  match listing with
  | Some l =>
      Forall (fun e => forall pp dp s s', visit e pp dp s = Some s' ->
                tracked_preserved (w_monitoring (ps_walker s))
                                  (w_monitoring (ps_walker s'))) l
  | None => True
  end ->
  walk_listing visit listing parent_pid depth parent_idx unused st
    = Some (rss, jobs, unused', st') ->
  tracked_preserved (w_monitoring st) (w_monitoring st').
Proof.
  unfold walk_listing. destruct listing as [l|]; intros Hall H.
  - destruct (for_each_entry _ l _) as [s|] eqn:Hloop; [|discriminate].
    injection H as _ _ _ <-.
    apply (for_each_entry_preserves _ l) in Hloop; [exact Hloop|].
    eapply Forall_impl; [exact Hall|]. cbn. intros e He s0 s1. apply He.
  - injection H as _ _ _ <-. apply tracked_preserved_refl.
Qed.

Lemma visit_entry_preserves env e :
  forall parent_pid depth s s',
    visit_entry env e parent_pid depth s = Some s' ->
    tracked_preserved (w_monitoring (ps_walker s)) (w_monitoring (ps_walker s')).
Proof.
  induction e as [numeric child status cmdline nested IH] using proc_entry_nested_ind.
  intros parent_pid depth s s' H. cbn [visit_entry] in H.
  destruct status as [[check_pid rss_kb]|];
    [|injection H as <-; apply tracked_preserved_refl].
  destruct (numeric && (0 <? child) && (check_pid =? parent_pid));
    [|injection H as <-; apply tracked_preserved_refl].
  destruct (discover env child parent_pid (ps_parent_idx s) rss_kb cmdline
                     (ps_walker s)) as [dr|] eqn:Hdr; [|discriminate].
  destruct (discover_preserves _ _ _ _ _ _ _ _ Hdr) as [Hdisc Hnew].
  destruct (dr_skip dr); [injection H as <-; exact Hdisc|].
  destruct (walk_listing (visit_entry env) nested child (depth + 1) _ _ _)
    as [[[[child_rss_kb child_jobs] unused1] st1]|] eqn:Hwalk; [|discriminate].
  apply walk_listing_preserves in Hwalk; [|exact IH].
  destruct (account env dr rss_kb child_rss_kb child_jobs (ps_jobs s) unused1 st1)
    as [[[jobs2 unused2] st2]|] eqn:Hacc; [|discriminate].
  injection H as <-. cbn.
  destruct (account_preserves _ _ _ _ _ _ _ _ _ _ _
              (compile_count (w_monitoring (ps_walker s))) Hacc Hnew)
    as [Hcount Hmono].
  destruct Hdisc as [Hc1 Hm1]. destruct Hwalk as [Hc2 Hm2].
  split; [lia|].
  eapply mono_below_trans; [exact Hm1|].
  eapply mono_below_trans; [|exact Hmono].
  eapply mono_below_le; [|exact Hm2]. assumption.
Qed.

(** C10.  One walk over the process tree leaves every tracked descendant at
    its index, under its pid, with a [current_mb] that is at least what it
    was: a lower RSS reading is never written. *)
Theorem current_mb_never_decreases
    (env : walk_env) (listing : option (list proc_entry))
    (parent_pid depth parent_idx unused : Z) (st st' : walker)
    (rss jobs unused' : Z) :
  find_child_descendants env listing parent_pid depth parent_idx unused st
    = Some (rss, jobs, unused', st') ->
  forall (i : nat) d,
    Z.of_nat i < compile_count (w_monitoring st) ->
    descendants (w_monitoring st) !! i = Some d ->
    exists d', descendants (w_monitoring st') !! i = Some d' /\
               d_pid d' = d_pid d /\ current_mb d <= current_mb d'.
Proof.
  unfold find_child_descendants. intros H.
  apply walk_listing_preserves in H.
  - destruct H as [_ H]. exact H.
  - destruct listing as [l|]; [|exact I].
    apply Forall_forall. intros e _. apply visit_entry_preserves.
Qed.

Lemma current_mb_never_decreases_witness :
  exists d', descendants (w_monitoring walker_c2) !! 0%nat = Some d' /\
             d_pid d' = 5000 /\ 50 <= current_mb d'.
Proof.
  assert (find_child_descendants env_c (Some proc_c_low) 100 0 (-1) 0 walker_c1
          = Some (20480, 1, 150, walker_c2)) as Hwalk
    by (vm_compute; reflexivity).
  apply (current_mb_never_decreases env_c (Some proc_c_low) 100 0 (-1) 0
           walker_c1 walker_c2 20480 1 150 Hwalk 0%nat
           {| d_pid := 5000; peak_mb := 50; old_peak_mb := 200;
              current_mb := 50; profile_idx := 0 |}).
  - vm_compute. reflexivity.
  - vm_compute. reflexivity.
Defined.

(* ===================================================================== *)
(** * Part III: further properties of the code                            *)
(* ===================================================================== *)

(** ** Profile store *)

(** A non-final update raises the stored peak to the maximum of the stored
    and the observed value, and marks the store dirty only when the value
    changes. *)
Theorem nonfinal_update_is_max
    (now profile_idx x : Z) (s : profile_store)
    (arr : list file_memory_profile) (e : file_memory_profile) :
  memory_profiles s = Some arr ->
  0 <= profile_idx < memory_profile_count s ->
  int_range profile_idx ->
  arr !! Z.to_nat profile_idx = Some e ->
  exists s' e',
    record_file_memory_usage_by_index now profile_idx x 0 s = Some s' /\
    profile_at s' profile_idx = Some e' /\
    peak_memory_mb e' = Z.max (peak_memory_mb e) x /\
    memory_profiles_dirty s' =
      (if peak_memory_mb e <? x then 1 else memory_profiles_dirty s).
Proof.
  intros Harr Hidx Hint Hentry.
  rewrite (record_valid_unfold now profile_idx x 0 s arr e) by assumption.
  cbn [Z.eqb negb andb]. rewrite andb_true_r.
  destruct (x <=? peak_memory_mb e) eqn:Hle.
  - apply Z.leb_le in Hle. exists s, e. split; [reflexivity|]. split.
    + unfold profile_at. rewrite Harr.
      replace (profile_idx <? 0) with false by (symmetry; apply Z.ltb_ge; lia).
      assumption.
    + split; [lia|].
      replace (peak_memory_mb e <? x) with false
        by (symmetry; apply Z.ltb_ge; lia).
      reflexivity.
  - apply Z.leb_gt in Hle. eexists. eexists. split; [reflexivity|]. split.
    + eapply profile_at_updated; eauto.
    + cbn. split; [lia|].
      replace (peak_memory_mb e <? x) with true by (symmetry; apply Z.ltb_lt; lia).
      reflexivity.
Qed.

Lemma nonfinal_update_is_max_witness :
  exists s' e',
    record_file_memory_usage_by_index 99 0 950 0 store_d = Some s' /\
    profile_at s' 0 = Some e' /\
    peak_memory_mb e' = Z.max (peak_memory_mb profile_d) 950 /\
    memory_profiles_dirty s' =
      (if peak_memory_mb profile_d <? 950 then 1 else memory_profiles_dirty store_d).
Proof.
  apply (nonfinal_update_is_max 99 0 950 store_d [profile_d] profile_d);
    first [ reflexivity | unfold int_range; cbn; lia ].
Defined.

(** The final decay never takes the stored peak below the observed value nor
    above what was stored, and a gap of one or two MiB does not decay at
    all. *)
Theorem final_decay_stays_between
    (now profile_idx x final : Z) (s : profile_store)
    (arr : list file_memory_profile) (e : file_memory_profile) :
  memory_profiles s = Some arr ->
  0 <= profile_idx < memory_profile_count s ->
  int_range profile_idx ->
  arr !! Z.to_nat profile_idx = Some e ->
  ulong_range x -> ulong_range (peak_memory_mb e) ->
  final <> 0 -> x < peak_memory_mb e ->
  exists s' e',
    record_file_memory_usage_by_index now profile_idx x final s = Some s' /\
    profile_at s' profile_idx = Some e' /\
    x <= peak_memory_mb e' <= peak_memory_mb e /\
    (peak_memory_mb e' = peak_memory_mb e <-> peak_memory_mb e - x < 3).
Proof.
  intros Harr Hidx Hint Hentry Hx Hp Hfinal Hlt.
  rewrite (record_valid_unfold now profile_idx x final s arr e) by assumption.
  replace (final =? 0) with false by (symmetry; apply Z.eqb_neq; assumption).
  rewrite andb_false_r. cbn [negb andb].
  replace (x <? peak_memory_mb e) with true by (symmetry; apply Z.ltb_lt; lia).
  eexists. eexists. split; [reflexivity|]. split.
  - eapply profile_at_updated; eauto.
  - cbn. rewrite decay_in_range by assumption.
    assert (0 <= (peak_memory_mb e - x) / 3 <= peak_memory_mb e - x) as Hq.
    { split; [apply Z.div_pos; lia|]. apply Z.div_le_upper_bound; lia. }
    split; [lia|]. split.
    + intros Heq. assert ((peak_memory_mb e - x) / 3 = 0) as H0 by lia.
      apply Z.div_small_iff in H0; lia.
    + intros Hsmall. rewrite Z.div_small by lia. lia.
Qed.

Lemma final_decay_stays_between_witness :
  exists s' e',
    record_file_memory_usage_by_index 99 0 899 1 store_d = Some s' /\
    profile_at s' 0 = Some e' /\
    899 <= peak_memory_mb e' <= peak_memory_mb profile_d /\
    (peak_memory_mb e' = peak_memory_mb profile_d <-> peak_memory_mb profile_d - 899 < 3).
Proof.
  apply (final_decay_stays_between 99 0 899 1 store_d [profile_d] profile_d);
    first [ reflexivity | unfold int_range, ulong_range, ULONG_MOD; cbn; lia ].
Defined.

(** An update touches one entry: the counters, the size of the array, every
    other entry and the file name of the updated entry are as before. *)
Theorem record_touches_one_entry
    (now profile_idx x final : Z) (s s' : profile_store) :
  record_file_memory_usage_by_index now profile_idx x final s = Some s' ->
  memory_profile_count s' = memory_profile_count s /\
  memory_profiles_capacity s' = memory_profiles_capacity s /\
  (forall j, j <> profile_idx -> profile_at s' j = profile_at s j) /\
  option_map filename (profile_at s' profile_idx)
    = option_map filename (profile_at s profile_idx) /\
  option_map (@length file_memory_profile) (memory_profiles s')
    = option_map (@length file_memory_profile) (memory_profiles s).
Proof.
  unfold record_file_memory_usage_by_index. intros H.
  assert (s' = s -> memory_profile_count s' = memory_profile_count s /\
    memory_profiles_capacity s' = memory_profiles_capacity s /\
    (forall j, j <> profile_idx -> profile_at s' j = profile_at s j) /\
    option_map filename (profile_at s' profile_idx)
      = option_map filename (profile_at s profile_idx) /\
    option_map (@length file_memory_profile) (memory_profiles s')
      = option_map (@length file_memory_profile) (memory_profiles s)) as Hsame
    by (intros ->; auto).
  destruct ((profile_idx <? 0) || _) eqn:Hrange;
    [injection H as <-; apply Hsame; reflexivity|].
  apply orb_false_iff in Hrange as [Hneg _]. apply Z.ltb_ge in Hneg.
  destruct (memory_profiles s) as [arr|] eqn:Harr;
    [|injection H as <-; apply Hsame; reflexivity].
  destruct (arr !! Z.to_nat profile_idx) as [e|] eqn:He; [|discriminate].
  destruct ((x <=? peak_memory_mb e) && (final =? 0));
    [injection H as <-; apply Hsame; reflexivity|].
  injection H as <-. cbn. split; [reflexivity|]. split; [reflexivity|].
  split; [|split].
  - intros j Hj. unfold profile_at. cbn. rewrite Harr.
    destruct (j <? 0) eqn:Hjneg; [reflexivity|]. apply Z.ltb_ge in Hjneg.
    apply list_lookup_insert_ne. lia.
  - unfold profile_at. cbn. rewrite Harr.
    replace (profile_idx <? 0) with false by (symmetry; apply Z.ltb_ge; lia).
    rewrite list_lookup_insert_eq by (eapply lookup_lt_Some; eauto).
    rewrite He. reflexivity.
  - rewrite length_insert. reflexivity.
Qed.

Lemma record_touches_one_entry_witness :
  exists s',
    record_file_memory_usage_by_index 99 0 600 1 store_d = Some s' /\
    memory_profile_count s' = memory_profile_count store_d /\
    option_map filename (profile_at s' 0) = option_map filename (profile_at store_d 0).
Proof.
  eexists. split; [reflexivity|].
  pose proof (record_touches_one_entry 99 0 600 1 store_d _ eq_refl) as H.
  destruct H as [Hc [_ [_ [Hf _]]]]. split; [exact Hc | exact Hf].
Defined.

Lemma empty_store_wf : store_wf empty_store.
Proof. unfold store_wf, empty_store; cbn. lia. Qed.

Lemma profile_at_lookup s arr (i : nat) :
  memory_profiles s = Some arr -> profile_at s (Z.of_nat i) = arr !! i.
Proof.
  intros H. unfold profile_at. rewrite H.
  replace (Z.of_nat i <? 0) with false by (symmetry; apply Z.ltb_ge; lia).
  rewrite Nat2Z.id. reflexivity.
Qed.

Lemma grow_memory_profiles_spec (s : profile_store) :
  store_wf s ->
  memory_profiles_capacity s < 2 ^ 30 ->
  let s' := grow_memory_profiles s in
  store_wf s' /\
  memory_profiles_capacity s' =
    (if memory_profiles_capacity s =? 0 then 1000
     else 2 * memory_profiles_capacity s) /\
  memory_profile_count s' = memory_profile_count s /\
  (forall (i : nat) e, profile_at s (Z.of_nat i) = Some e ->
                       profile_at s' (Z.of_nat i) = Some e) /\
  (forall (i : nat),
      memory_profiles_capacity s <= Z.of_nat i < memory_profiles_capacity s' ->
      profile_at s' (Z.of_nat i) = Some zero_profile).
Proof.
  intros [Hcount [_ Harr]] Hcap s'.
  assert (memory_profiles_capacity s' =
          (if memory_profiles_capacity s =? 0 then 1000
           else 2 * memory_profiles_capacity s)) as Hnew.
  { unfold s', grow_memory_profiles. cbn.
    destruct (memory_profiles_capacity s =? 0); [reflexivity|].
    rewrite wrap_uint_small by (unfold UINT_MOD; lia). lia. }
  assert (memory_profiles_capacity s < memory_profiles_capacity s') as Hgrow.
  { rewrite Hnew. destruct (memory_profiles_capacity s =? 0) eqn:E;
      [apply Z.eqb_eq in E | apply Z.eqb_neq in E]; lia. }
  assert (exists old, memory_profiles s' =
            Some (resize (Z.to_nat (memory_profiles_capacity s')) zero_profile old)
          /\ length old = Z.to_nat (memory_profiles_capacity s)
          /\ forall (i : nat), profile_at s (Z.of_nat i) = old !! i) as [old [Hs' [Hlen Hold]]].
  { destruct (memory_profiles s) as [arr|] eqn:E.
    - exists arr. split; [|split; [assumption|]].
      + unfold s', grow_memory_profiles. rewrite E. reflexivity.
      + intros i. apply profile_at_lookup. assumption.
    - exists []. split; [|split].
      + unfold s', grow_memory_profiles. rewrite E. reflexivity.
      + rewrite Harr. reflexivity.
      + intros i. unfold profile_at. rewrite E. reflexivity. }
  split; [|split; [assumption|split; [reflexivity|split]]].
  - unfold store_wf. rewrite Hs', length_resize.
    split; [|split; [|reflexivity]].
    + replace (memory_profile_count s') with (memory_profile_count s) by reflexivity.
      lia.
    + rewrite Hnew. destruct (memory_profiles_capacity s =? 0); lia.
  - intros i e He. rewrite (profile_at_lookup s' _ i Hs').
    rewrite Hold in He. pose proof (lookup_lt_Some _ _ _ He) as Hi.
    rewrite lookup_resize by lia. assumption.
  - intros i Hi. rewrite (profile_at_lookup s' _ i Hs').
    rewrite lookup_resize_new by lia. reflexivity.
Qed.


(** Growing the array: 1000 entries at first and twice as many afterwards;
    the entries it had stay at their index, the added ones are zeroed, and
    the number of profiles in use does not change. *)
Theorem grow_keeps_entries (s : profile_store) :
  store_wf s ->
  memory_profiles_capacity s < 2 ^ 30 ->
  let s' := grow_memory_profiles s in
  store_wf s' /\
  memory_profiles_capacity s' =
    (if memory_profiles_capacity s =? 0 then 1000
     else 2 * memory_profiles_capacity s) /\
  memory_profile_count s' = memory_profile_count s /\
  (forall (i : nat) e, profile_at s (Z.of_nat i) = Some e ->
                       profile_at s' (Z.of_nat i) = Some e) /\
  (forall (i : nat),
      memory_profiles_capacity s <= Z.of_nat i < memory_profiles_capacity s' ->
      profile_at s' (Z.of_nat i) = Some zero_profile).
Proof. exact (grow_memory_profiles_spec s). Qed.

Lemma grow_keeps_entries_witness :
  store_wf (grow_memory_profiles empty_store) /\
  memory_profiles_capacity (grow_memory_profiles empty_store) = 1000.
Proof.
  assert (memory_profiles_capacity empty_store < 2 ^ 30) as Hsmall by (cbn; lia).
  pose proof (grow_keeps_entries empty_store empty_store_wf Hsmall) as [Hwf [Hcap _]].
  split; [exact Hwf | exact Hcap].
Defined.

Lemma first_index_intro {A} (f : A -> bool) (l : list A) (i : nat) x :
  l !! i = Some x -> f x = true ->
  (forall (j : nat) y, (j < i)%nat -> l !! j = Some y -> f y = false) ->
  first_index f l = Some i.
Proof.
  revert i. induction l as [|a l IH]; intros i Hx Hfx Hbefore; [destruct i; discriminate|].
  destruct i as [|i]; cbn in Hx.
  - injection Hx as ->. cbn. rewrite Hfx. reflexivity.
  - cbn. rewrite (Hbefore 0%nat a) by (reflexivity || lia).
    rewrite (IH i Hx Hfx); [reflexivity|].
    intros j y Hj Hy. apply (Hbefore (S j) y); [lia | exact Hy].
Qed.

Lemma cstring_eqb_refl a : cstring_eqb a a = true.
Proof.
  induction a as [|c a IH]; cbn; [reflexivity|].
  rewrite IH, andb_true_r. apply chr_eqb_eq. reflexivity.
Qed.

Lemma cstring_eqb_eq a b : cstring_eqb a b = true <-> a = b.
Proof.
  split; [|intros ->; apply cstring_eqb_refl].
  revert b. induction a as [|c a IH]; intros [|d b] H; cbn in H;
    try discriminate; [reflexivity|].
  apply andb_true_iff in H as [Hc Hab]. apply chr_eqb_eq in Hc.
  rewrite Hc, (IH b Hab). reflexivity.
Qed.

(** The lookup in terms of the entries: the first entry in use that carries
    the name. *)
Lemma lookup_profile_Some s name (i : nat) :
  lookup_profile s name = Some i <->
  Z.of_nat i < Z.max 0 (memory_profile_count s) /\
  (exists e, profile_at s (Z.of_nat i) = Some e /\ profile_named name e = true) /\
  (forall (j : nat) e, (j < i)%nat -> profile_at s (Z.of_nat j) = Some e ->
                       profile_named name e = false).
Proof.
  unfold lookup_profile. destruct (memory_profiles s) as [arr|] eqn:Harr.
  - split.
    + intros H. apply first_index_Some in H as [[e [He Hn]] Hbefore].
      apply lookup_take_Some in He as [He Hi].
      split; [lia|]. split.
      * exists e. rewrite (profile_at_lookup s arr i Harr). auto.
      * intros j e' Hj He'. rewrite (profile_at_lookup s arr j Harr) in He'.
        apply (Hbefore j e' Hj). rewrite lookup_take_lt by lia. exact He'.
    + intros [Hi [[e [He Hn]] Hbefore]].
      rewrite (profile_at_lookup s arr i Harr) in He.
      apply (first_index_intro _ _ i e).
      * rewrite lookup_take_lt by lia. exact He.
      * exact Hn.
      * intros j y Hj Hy. apply lookup_take_Some in Hy as [Hy _].
        apply (Hbefore j y Hj). rewrite (profile_at_lookup s arr j Harr). exact Hy.
  - split; [discriminate|]. intros [_ [[e [He _]] _]].
    unfold profile_at in He. rewrite Harr in He. discriminate.
Qed.

Lemma lookup_profile_None s name :
  lookup_profile s name = None ->
  forall (j : nat) e,
    Z.of_nat j < memory_profile_count s ->
    profile_at s (Z.of_nat j) = Some e -> profile_named name e = false.
Proof.
  unfold lookup_profile. intros H j e Hj He.
  destruct (memory_profiles s) as [arr|] eqn:Harr.
  - rewrite (profile_at_lookup s arr j Harr) in He.
    apply (first_index_None _ _ H j e). rewrite lookup_take_lt by lia. exact He.
  - unfold profile_at in He. rewrite Harr in He. discriminate.
Qed.

Lemma store_wf_profile_at s (j : nat) :
  store_wf s -> Z.of_nat j < memory_profiles_capacity s ->
  exists e, profile_at s (Z.of_nat j) = Some e.
Proof.
  intros [_ [_ Harr]] Hj. destruct (memory_profiles s) as [arr|] eqn:E; [|lia].
  rewrite (profile_at_lookup s arr j E). apply lookup_lt_is_Some_2. lia.
Qed.

(** A file that has no profile yet gets the entry after the last one in
    use; the entries in use stay where they are. *)
Lemma attribute_profile_new now rss_kb name s :
  store_wf s -> memory_profiles_capacity s < 2 ^ 30 ->
  lookup_profile s name = None ->
  exists s',
    attribute_profile now rss_kb name s = Some (0, memory_profile_count s, s') /\
    store_wf s' /\
    memory_profile_count s' = memory_profile_count s + 1 /\
    profile_at s' (memory_profile_count s) =
      Some {| filename := Some name; peak_memory_mb := rss_kb / 1024;
              last_used := now |} /\
    (forall (j : nat), Z.of_nat j < memory_profile_count s ->
                       profile_at s' (Z.of_nat j) = profile_at s (Z.of_nat j)).
Proof.
  intros Hwf Hcap Hnone. unfold attribute_profile. rewrite Hnone.
  set (s1 := if memory_profiles_capacity s <=? memory_profile_count s
             then grow_memory_profiles s else s).
  assert (store_wf s1 /\ memory_profile_count s1 = memory_profile_count s /\
          memory_profile_count s1 < memory_profiles_capacity s1 /\
          memory_profiles_dirty s1 = memory_profiles_dirty s /\
          forall (j : nat), Z.of_nat j < memory_profile_count s ->
                            profile_at s1 (Z.of_nat j) = profile_at s (Z.of_nat j))
    as [Hwf1 [Hcount1 [Hroom [Hdirty Hkeep]]]].
  { unfold s1. destruct (memory_profiles_capacity s <=? memory_profile_count s) eqn:E.
    - apply Z.leb_le in E.
      destruct (grow_memory_profiles_spec s Hwf Hcap) as [Hw [Hc [Hn [Hk _]]]].
      pose proof Hwf as [Hcnt _].
      split; [exact Hw|]. split; [exact Hn|]. split; [|split; [reflexivity|]].
      + rewrite Hn, Hc. destruct (memory_profiles_capacity s =? 0) eqn:E0;
          [apply Z.eqb_eq in E0 | apply Z.eqb_neq in E0]; lia.
      + intros j Hj.
        destruct (store_wf_profile_at s j Hwf) as [e He]; [lia|].
        rewrite He. apply Hk. exact He.
    - apply Z.leb_gt in E. split; [exact Hwf|]. split; [reflexivity|].
      split; [exact E|]. split; reflexivity. }
  replace (memory_profile_count s1 <? memory_profiles_capacity s1) with true
    by (symmetry; apply Z.ltb_lt; exact Hroom).
  destruct Hwf1 as [Hcnt1 [Hcap1 Harr1]].
  destruct (memory_profiles s1) as [arr1|] eqn:Earr1; [|lia].
  pose proof Hwf as [Hcnt _].
  rewrite to_int_small by lia. rewrite Hcount1.
  rewrite wrap_uint_small by (unfold UINT_MOD; lia).
  eexists. split; [reflexivity|].
  split; [|split; [reflexivity|split]].
  - unfold store_wf. cbn. rewrite length_insert. repeat split; lia.
  - unfold profile_at. cbn.
    replace (memory_profile_count s <? 0) with false
      by (symmetry; apply Z.ltb_ge; lia).
    apply list_lookup_insert_eq. lia.
  - intros j Hj. rewrite <- (Hkeep j Hj).
    unfold profile_at at 1. cbn.
    replace (Z.of_nat j <? 0) with false by (symmetry; apply Z.ltb_ge; lia).
    rewrite Nat2Z.id, list_lookup_insert_ne by lia.
    symmetry. apply profile_at_lookup. exact Earr1.
Qed.

Lemma attribute_profile_found now rss_kb name s (i : nat) :
  store_wf s -> lookup_profile s name = Some i ->
  exists e, profile_at s (Z.of_nat i) = Some e /\ filename e = Some name /\
            attribute_profile now rss_kb name s
              = Some (peak_memory_mb e, Z.of_nat i, s).
Proof.
  intros Hwf Hfound. unfold attribute_profile. rewrite Hfound.
  apply lookup_profile_Some in Hfound as [_ [[e [He Hn]] _]].
  exists e. rewrite He. split; [reflexivity|]. split; [|reflexivity].
  unfold profile_named in Hn. destruct (filename e) as [f|]; [|discriminate].
  apply cstring_eqb_eq in Hn. congruence.
Qed.

(** Insert and look up: the index the walker gets for a file, found or newly
    created (the array growing when it is full), is the index the lookup
    returns for that file afterwards, and the entry there carries its
    name. *)
Theorem attribute_then_lookup (now rss_kb : Z) (name : cstring) (s : profile_store) :
  store_wf s -> memory_profiles_capacity s < 2 ^ 30 ->
  exists peak (idx : nat) s' e,
    attribute_profile now rss_kb name s = Some (peak, Z.of_nat idx, s') /\
    store_wf s' /\
    lookup_profile s' name = Some idx /\
    profile_at s' (Z.of_nat idx) = Some e /\ filename e = Some name.
Proof.
  intros Hwf Hcap. destruct (lookup_profile s name) as [i|] eqn:Hlook.
  - destruct (attribute_profile_found now rss_kb name s i Hwf Hlook)
      as [e [He [Hname Hattr]]].
    exists (peak_memory_mb e), i, s, e. auto.
  - destruct (attribute_profile_new now rss_kb name s Hwf Hcap Hlook)
      as [s' [Hattr [Hwf' [Hcount [Hnew Hkeep]]]]].
    pose proof Hwf as [Hcnt _].
    exists 0, (Z.to_nat (memory_profile_count s)), s'.
    eexists. rewrite Z2Nat.id by lia.
    split; [exact Hattr|]. split; [exact Hwf'|]. split; [|split; [exact Hnew|reflexivity]].
    apply lookup_profile_Some. rewrite Z2Nat.id by lia. split; [lia|]. split.
    + eexists. split; [exact Hnew|]. unfold profile_named. cbn.
      apply cstring_eqb_refl.
    + intros j e Hj He. rewrite Hkeep in He by lia.
      apply (lookup_profile_None s name Hlook j e); [lia | exact He].
Qed.

Lemma attribute_then_lookup_witness :
  exists peak (idx : nat) s' e,
    attribute_profile 1000 51200 (lit "src/new.cpp") store_two
      = Some (peak, Z.of_nat idx, s') /\
    store_wf s' /\
    lookup_profile s' (lit "src/new.cpp") = Some idx /\
    profile_at s' (Z.of_nat idx) = Some e /\ filename e = Some (lit "src/new.cpp").
Proof.
  apply (attribute_then_lookup 1000 51200 (lit "src/new.cpp") store_two).
  - unfold store_wf; cbn. lia.
  - cbn. lia.
Defined.

(** Profile indices are stable: a file that had a profile keeps its index and
    its entry when another file is attributed, whether or not that creates
    an entry or grows the array. *)
Theorem attribute_keeps_indices
    (now rss_kb : Z) (name : cstring) (s s' : profile_store) (peak idx : Z) :
  store_wf s -> memory_profiles_capacity s < 2 ^ 30 ->
  attribute_profile now rss_kb name s = Some (peak, idx, s') ->
  forall other (j : nat),
    lookup_profile s other = Some j ->
    lookup_profile s' other = Some j /\
    profile_at s' (Z.of_nat j) = profile_at s (Z.of_nat j).
Proof.
  intros Hwf Hcap Hattr other j Hj.
  destruct (lookup_profile s name) as [i|] eqn:Hlook.
  - destruct (attribute_profile_found now rss_kb name s i Hwf Hlook)
      as [e [_ [_ Hattr']]].
    rewrite Hattr' in Hattr. injection Hattr as _ _ <-. auto.
  - destruct (attribute_profile_new now rss_kb name s Hwf Hcap Hlook)
      as [s1 [Hattr' [_ [Hcount [_ Hkeep]]]]].
    rewrite Hattr' in Hattr. injection Hattr as _ _ <-.
    apply lookup_profile_Some in Hj as [Hlt [[e [He Hn]] Hbefore]].
    pose proof Hwf as [Hcnt _].
    split; [|apply Hkeep; lia].
    apply lookup_profile_Some. split; [lia|]. split.
    + exists e. rewrite Hkeep by lia. auto.
    + intros k e' Hk He'. rewrite Hkeep in He' by lia. eauto.
Qed.

Lemma attribute_keeps_indices_witness :
  lookup_profile (snd (default (0, 0, store_two)
                        (attribute_profile 1000 51200 (lit "src/new.cpp") store_two)))
                 (lit "src/b.cpp") = Some 1%nat.
Proof.
  assert (store_wf store_two) as Hwf by (unfold store_wf; cbn; lia).
  assert (memory_profiles_capacity store_two < 2 ^ 30) as Hcap by (cbn; lia).
  destruct (attribute_profile 1000 51200 (lit "src/new.cpp") store_two)
    as [[[peak idx] s']|] eqn:E; [|vm_compute in E; discriminate].
  exact (proj1 (attribute_keeps_indices 1000 51200 (lit "src/new.cpp") store_two s'
                  peak idx Hwf Hcap E (lit "src/b.cpp") 1%nat eq_refl)).
Defined.

(** ** Shared accounting region: the running total *)

Lemma slot_sum_cons a l : slot_sum (a :: l) = reserved_mb a + slot_sum l.
Proof. reflexivity. Qed.

Lemma slot_sum_alter (f : pid_reservation -> pid_reservation) l (i : nat) s :
  l !! i = Some s ->
  slot_sum (alter f i l) = slot_sum l - reserved_mb s + reserved_mb (f s).
Proof.
  revert i. induction l as [|a l IH]; intros [|i] H; cbn in H; try discriminate.
  - injection H as ->. change (alter f 0%nat (s :: l)) with (f s :: l).
    rewrite !slot_sum_cons. lia.
  - change (alter f (S i) (a :: l)) with (a :: alter f i l).
    rewrite !slot_sum_cons, (IH i H). lia.
Qed.

Lemma slot_sum_insert l (i : nat) s s' :
  l !! i = Some s ->
  slot_sum (<[i := s']> l) = slot_sum l - reserved_mb s + reserved_mb s'.
Proof.
  revert i. induction l as [|a l IH]; intros [|i] H; cbn in H; try discriminate.
  - injection H as ->. change (<[0%nat := s']> (s :: l)) with (s' :: l).
    rewrite !slot_sum_cons. lia.
  - change (<[S i := s']> (a :: l)) with (a :: <[i := s']> l).
    rewrite !slot_sum_cons, (IH i H). lia.
Qed.

Lemma slot_sum_nonneg l :
  Forall (fun s => 0 <= reserved_mb s /\ (pid s = 0 -> reserved_mb s = 0)) l ->
  0 <= slot_sum l.
Proof.
  induction 1 as [|s l [Hs _] _ IH]; [cbn; lia|]. rewrite slot_sum_cons. lia.
Qed.

Lemma slot_sum_member l (i : nat) s :
  Forall (fun s => 0 <= reserved_mb s /\ (pid s = 0 -> reserved_mb s = 0)) l ->
  l !! i = Some s -> reserved_mb s <= slot_sum l.
Proof.
  intros H. revert i. induction H as [|a l [Ha _] Hl IH]; intros [|i] Hs;
    cbn in Hs; try discriminate; rewrite slot_sum_cons.
  - injection Hs as ->. pose proof (slot_sum_nonneg l Hl). lia.
  - specialize (IH i Hs). lia.
Qed.

Lemma slot_sum_take l (n : nat) :
  (forall (i : nat) s, (n <= i)%nat -> l !! i = Some s -> reserved_mb s = 0) ->
  slot_sum (take n l) = slot_sum l.
Proof.
  revert n. induction l as [|a l IH]; intros n H; [destruct n; reflexivity|].
  destruct n as [|n].
  - rewrite slot_sum_cons, (H 0%nat a) by (reflexivity || lia).
    rewrite <- (IH 0%nat); [destruct l; reflexivity|].
    intros i s _ Hs. apply (H (S i) s); [lia | exact Hs].
  - cbn [take firstn]. rewrite !slot_sum_cons. f_equal.
    apply IH. intros i s Hi Hs. apply (H (S i) s); [lia | exact Hs].
Qed.

Lemma wrapped_sum_exact l acc :
  Forall (fun s => 0 <= reserved_mb s /\ (pid s = 0 -> reserved_mb s = 0)) l ->
  0 <= acc -> acc + slot_sum l < ULONG_MOD ->
  fold_left (fun total s => wrap_ulong (total + reserved_mb s)) l acc
  = acc + slot_sum l.
Proof.
  intros H. revert acc. induction H as [|a l [Ha _] Hl IH]; intros acc Hacc Hsum.
  - cbn. lia.
  - pose proof (slot_sum_nonneg l Hl). rewrite slot_sum_cons in *.
    cbn [fold_left].
    rewrite wrap_ulong_small by (unfold ulong_range; lia).
    rewrite IH by lia. lia.
Qed.

Lemma zeroed_region_consistent : region_consistent zeroed_region.
Proof.
  split.
  - apply zeroed_region_wf.
  - cbn. apply Forall_replicate. cbn. split; [lia | reflexivity].
  - vm_compute. reflexivity.
  - vm_compute. split; [discriminate | reflexivity].
Qed.

Lemma apply_reservation_total r (i : nat) p mb s :
  Forall (fun s => 0 <= reserved_mb s /\ (pid s = 0 -> reserved_mb s = 0))
         (reservations r) ->
  reservations r !! i = Some s -> pid s = p -> p <> 0 ->
  total_reserved_mb r = slot_sum (reservations r) ->
  ulong_range (total_reserved_mb r) ->
  (0 < mb -> total_reserved_mb r + mb < ULONG_MOD) ->
  let r' := snd (apply_reservation r i p mb) in
  Forall (fun s => 0 <= reserved_mb s /\ (pid s = 0 -> reserved_mb s = 0))
         (reservations r') /\
  total_reserved_mb r' = slot_sum (reservations r') /\
  ulong_range (total_reserved_mb r') /\
  total_reserved_mb r' = total_reserved_mb r - reserved_mb s + Z.max mb 0.
Proof.
  intros Hall Hs Hpid Hp Htotal Hrange Hroom r'.
  pose proof (slot_sum_member _ i s Hall Hs) as Hle.
  assert (0 <= reserved_mb s) as Hs0
    by (rewrite Forall_lookup in Hall; apply (Hall i s Hs)).
  assert (slot_reserved r i = reserved_mb s) as Hold
    by (unfold slot_reserved; rewrite Hs; reflexivity).
  unfold ulong_range in *.
  unfold r', apply_reservation. rewrite Hold.
  destruct (mb <=? 0) eqn:Hmb; [apply Z.leb_le in Hmb | apply Z.leb_gt in Hmb]; cbn.
  - rewrite (slot_sum_alter _ _ i s Hs). cbn.
    rewrite wrap_ulong_small by (unfold ulong_range; lia).
    split; [|split; [lia | split; lia]].
    apply Forall_lookup. intros j sj Hj.
    destruct (decide (i = j)) as [<-|Hne].
    + rewrite list_lookup_alter_eq, Hs in Hj. injection Hj as <-. cbn.
      split; [lia | reflexivity].
    + rewrite list_lookup_alter_ne in Hj by assumption.
      rewrite Forall_lookup in Hall. exact (Hall j sj Hj).
  - rewrite (slot_sum_alter _ _ i s Hs). cbn.
    assert ((if reserved_mb s <=? mb
             then wrap_ulong (total_reserved_mb r + wrap_ulong (mb - reserved_mb s))
             else if total_reserved_mb r <? wrap_ulong (reserved_mb s - mb) then 0
                  else wrap_ulong (total_reserved_mb r
                                   - wrap_ulong (reserved_mb s - mb)))
            = total_reserved_mb r - reserved_mb s + mb) as ->.
    { specialize (Hroom Hmb).
      destruct (reserved_mb s <=? mb) eqn:E;
        [apply Z.leb_le in E | apply Z.leb_gt in E].
      - rewrite (wrap_ulong_small (mb - reserved_mb s)) by (unfold ulong_range; lia).
        rewrite wrap_ulong_small by (unfold ulong_range; lia). lia.
      - rewrite (wrap_ulong_small (reserved_mb s - mb)) by (unfold ulong_range; lia).
        replace (total_reserved_mb r <? reserved_mb s - mb) with false
          by (symmetry; apply Z.ltb_ge; lia).
        rewrite wrap_ulong_small by (unfold ulong_range; lia). lia. }
    specialize (Hroom Hmb).
    split; [|split; [lia | split; lia]].
    apply Forall_lookup. intros j sj Hj.
    destruct (decide (i = j)) as [<-|Hne].
    + rewrite list_lookup_alter_eq, Hs in Hj. injection Hj as <-. cbn.
      split; [lia | intros H0; congruence].
    + rewrite list_lookup_alter_ne in Hj by assumption.
      rewrite Forall_lookup in Hall. exact (Hall j sj Hj).
Qed.

(** How [total_reserved_mb] moves in a consistent region: by the new amount
    minus the amount the process held. *)
Lemma reserve_in_region_consistent r p mb :
  region_consistent r -> p <> 0 ->
  (0 < mb -> total_reserved_mb r + mb < ULONG_MOD) ->
  region_consistent (snd (reserve_in_region r p mb)) /\
  (target_slot r p mb <> None ->
   total_reserved_mb (snd (reserve_in_region r p mb))
   = total_reserved_mb r - reserved_under r p + Z.max mb 0) /\
  (target_slot r p mb = None -> reserve_in_region r p mb = (0, r)).
Proof.
  intros [Hwf Hall Htotal Hrange] Hp Hroom.
  assert (wf_region (snd (reserve_in_region r p mb))) as Hwf'
    by (apply reserve_in_region_wf; exact Hwf).
  unfold target_slot, reserved_under in *. unfold reserve_in_region in *.
  destruct (find_reservation r p) as [i|] eqn:Hfind.
  - destruct (find_reservation_Some r Hwf p i Hfind) as [s [Hs [Hpid _]]].
    destruct (apply_reservation_total r i p mb s Hall Hs Hpid Hp Htotal Hrange Hroom)
      as [Hall' [Htotal' [Hrange' Hmove]]].
    split; [split; assumption|]. split; [|discriminate].
    intros _. unfold slot_reserved. rewrite Hs. exact Hmove.
  - destruct (mb =? 0) eqn:Hmb0.
    { split; [split; assumption|]. split; [congruence | reflexivity]. }
    destruct (find_empty_slot r) as [e|] eqn:Hempty.
    + unfold find_empty_slot in Hempty.
      apply first_index_Some in Hempty as [[s [Hs Hz]] _].
      apply lookup_take_Some in Hs as [Hs _]. apply Z.eqb_eq in Hz.
      pose proof (lookup_lt_Some _ _ _ Hs) as Hlen.
      assert (reserved_mb s = 0) as Hs0
        by (rewrite Forall_lookup in Hall; apply (Hall e s Hs); exact Hz).
      match goal with
      | |- context [apply_reservation ?r1 e p mb] =>
          destruct (apply_reservation_total r1 e p mb
                      {| pid := p; reserved_mb := 0 |})
            as [Hall' [Htotal' [Hrange' Hmove]]]
      end; cbn.
      * apply Forall_lookup. intros j sj Hj.
        destruct (decide (e = j)) as [<-|Hne].
        -- rewrite list_lookup_insert_eq in Hj by assumption. injection Hj as <-.
           cbn. split; [lia | intros H0; congruence].
        -- rewrite list_lookup_insert_ne in Hj by assumption.
           rewrite Forall_lookup in Hall. exact (Hall j sj Hj).
      * apply list_lookup_insert_eq. assumption.
      * reflexivity.
      * assumption.
      * rewrite (slot_sum_insert _ e s _ Hs). cbn. lia.
      * assumption.
      * assumption.
      * split; [split; assumption|]. split; [|discriminate].
        intros _. cbn in Hmove. lia.
    + split; [split; assumption|]. split; [congruence | reflexivity].
Qed.

(** In a region whose running total agrees with the table, the total the
    monitor recomputes on its tick equals the running total: no mismatch
    warning is logged. *)
Theorem monitor_total_agrees (total_unused_peaks_mb : Z) (r : shared_memory_data) :
  region_consistent r ->
  monitor_reserved_total r = total_reserved_mb r /\
  fst (publish_totals total_unused_peaks_mb r) = false.
Proof.
  intros [Hwf Hall Htotal Hrange].
  assert (monitor_reserved_total r = total_reserved_mb r) as Heq.
  { unfold monitor_reserved_total. rewrite (wf_count_int r Hwf).
    pose proof (wf_count r Hwf) as Hc. unfold MAX_RESERVATIONS in Hc.
    rewrite wrap_uint_small by (unfold UINT_MOD; lia).
    assert (slot_sum (take (Z.to_nat (reservation_count r)) (reservations r))
            = slot_sum (reservations r)) as Htake.
    { apply slot_sum_take. intros i s Hi Hs.
      rewrite Forall_lookup in Hall. apply (Hall i s Hs).
      apply (wf_tail r Hwf i s Hs). lia. }
    rewrite wrapped_sum_exact.
    - rewrite Htake. lia.
    - apply Forall_take. exact Hall.
    - lia.
    - rewrite Htake, <- Htotal. unfold ulong_range in Hrange. lia. }
  split; [exact Heq|]. unfold publish_totals. cbn. rewrite Heq, Z.eqb_refl.
  reflexivity.
Qed.

(** The agreement of the running total with the table is an invariant of
    [reserve_memory_mb]: it holds for the zeroed region and every call made
    for a real process keeps it, as long as the amounts fit an
    [unsigned long]. *)
Theorem reserve_keeps_total_consistent (r : shared_memory_data) (p mb : Z) :
  region_consistent r -> p <> 0 ->
  (0 < mb -> total_reserved_mb r + mb < ULONG_MOD) ->
  region_consistent (snd (reserve_in_region r p mb)).
Proof.
  intros Hr Hp Hroom.
  exact (proj1 (reserve_in_region_consistent r p mb Hr Hp Hroom)).
Qed.

Lemma reserve_keeps_total_consistent_witness :
  region_consistent (snd (reserve_in_region zeroed_region 7 200)).
Proof.
  apply (reserve_keeps_total_consistent zeroed_region 7 200).
  - exact zeroed_region_consistent.
  - lia.
  - intros _. vm_compute. reflexivity.
Defined.

Lemma region_one_consistent : region_consistent region_one.
Proof.
  apply reserve_in_region_consistent.
  - exact zeroed_region_consistent.
  - lia.
  - intros _. vm_compute. reflexivity.
Qed.

Lemma monitor_total_agrees_witness :
  monitor_reserved_total region_one = total_reserved_mb region_one /\
  fst (publish_totals 150 region_one) = false.
Proof.
  exact (monitor_total_agrees 150 region_one region_one_consistent).
Defined.

(** Reserve and read back: when the process owns a slot or a slot is free, a
    call with a positive amount returns 0 and leaves exactly that amount
    under the process's pid. *)
Theorem reserve_then_read (r : shared_memory_data) (p mb : Z) (i : nat) s :
  wf_region r -> p <> 0 -> 0 < mb ->
  reservations r !! i = Some s -> pid s = p \/ pid s = 0 ->
  fst (reserve_in_region r p mb) = 0 /\
  reserved_under (snd (reserve_in_region r p mb)) p = mb.
Proof. exact (reserve_in_region_read r p mb i s). Qed.

Lemma reserve_then_read_witness :
  fst (reserve_in_region region_one 8 300) = 0 /\
  reserved_under (snd (reserve_in_region region_one 8 300)) 8 = 300.
Proof.
  apply (reserve_then_read region_one 8 300 1%nat free_slot).
  - apply reserve_in_region_wf, zeroed_region_wf.
  - lia.
  - lia.
  - reflexivity.
  - right. reflexivity.
Defined.

(** A full table fails gracefully: when every slot belongs to another
    process, the call returns 0 and changes nothing. *)
Theorem reserve_full_table (r : shared_memory_data) (p mb : Z) :
  wf_region r ->
  Forall (fun s => pid s <> 0 /\ pid s <> p) (reservations r) ->
  reserve_in_region r p mb = (0, r).
Proof. exact (reserve_in_region_full r p mb). Qed.

Lemma region_full_wf : wf_region region_full.
Proof.
  unfold region_full.
  generalize (seq 1 (Z.to_nat MAX_RESERVATIONS)).
  assert (forall l r, wf_region r ->
            wf_region (fold_left (fun r p => snd (reserve_in_region r (Z.of_nat p) 1))
                                 l r)) as H.
  { induction l as [|a l IH]; intros r Hr; [exact Hr|].
    cbn [fold_left]. apply IH. apply reserve_in_region_wf. exact Hr. }
  intros l. apply H. exact zeroed_region_wf.
Qed.

Lemma reserve_full_table_witness :
  reserve_in_region region_full 100 200 = (0, region_full).
Proof.
  apply (reserve_full_table region_full 100 200 region_full_wf).
  vm_compute. repeat constructor; discriminate.
Defined.

Lemma wrap_ulong_range z : ulong_range (wrap_ulong z).
Proof.
  unfold ulong_range, wrap_ulong, ULONG_MOD. apply Z.mod_pos_bound. lia.
Qed.

Lemma alter_fixed {A} (f : A -> A) (l : list A) (i : nat) x :
  l !! i = Some x -> f x = x -> alter f i l = l.
Proof.
  intros Hx Hf. apply list_eq. intros j.
  destruct (decide (i = j)) as [<-|Hne].
  - rewrite list_lookup_alter_eq, Hx. cbn. congruence.
  - apply list_lookup_alter_ne. assumption.
Qed.

Lemma apply_reservation_again r (i : nat) p mb s :
  0 < mb -> reservations r !! i = Some s -> reserved_mb s = mb ->
  ulong_range (total_reserved_mb r) ->
  apply_reservation r i p mb = (0, r).
Proof.
  intros Hmb Hs Hheld Hrange. unfold apply_reservation, slot_reserved.
  rewrite Hs, Hheld.
  replace (mb <=? 0) with false by (symmetry; apply Z.leb_gt; lia).
  rewrite Z.leb_refl, Z.sub_diag.
  rewrite (wrap_ulong_small 0) by (unfold ulong_range, ULONG_MOD; lia).
  rewrite Z.add_0_r, (wrap_ulong_small _ Hrange).
  rewrite (alter_fixed _ _ i s Hs) by (destruct s; cbn in *; congruence).
  destruct r; reflexivity.
Qed.

Lemma apply_reservation_range r (i : nat) p mb :
  0 < mb -> ulong_range (total_reserved_mb (snd (apply_reservation r i p mb))).
Proof.
  intros Hmb. unfold apply_reservation.
  replace (mb <=? 0) with false by (symmetry; apply Z.leb_gt; lia). cbn.
  destruct (_ <=? mb); [apply wrap_ulong_range|].
  destruct (_ <? _); [|apply wrap_ulong_range].
  unfold ulong_range, ULONG_MOD. lia.
Qed.

Lemma reserve_no_target r p mb :
  target_slot r p mb = None -> reserve_in_region r p mb = (0, r).
Proof.
  unfold target_slot, reserve_in_region.
  destruct (find_reservation r p); [discriminate|].
  destruct (mb =? 0); [reflexivity|]. intros ->. reflexivity.
Qed.

Lemma reserve_in_region_unused r p mb :
  unused_peaks_mb (snd (reserve_in_region r p mb)) = unused_peaks_mb r.
Proof.
  unfold reserve_in_region.
  assert (forall r0 k, unused_peaks_mb (snd (apply_reservation r0 k p mb))
                       = unused_peaks_mb r0) as H.
  { intros r0 k. unfold apply_reservation. destruct (mb <=? 0); reflexivity. }
  destruct (find_reservation r p); [apply H|].
  destruct (mb =? 0); [reflexivity|].
  destruct (find_empty_slot r); [rewrite H|]; reflexivity.
Qed.

Lemma reserve_in_region_twice r p mb :
  wf_region r -> p <> 0 -> 0 < mb ->
  reserve_in_region (snd (reserve_in_region r p mb)) p mb
  = (0, snd (reserve_in_region r p mb)).
Proof.
  intros Hwf Hp Hmb.
  destruct (target_slot r p mb) as [j|] eqn:Ht.
  - pose proof (reserve_in_region_target r p mb j Hwf Ht) as Hslot.
    replace (mb <=? 0) with false in Hslot by (symmetry; apply Z.leb_gt; lia).
    pose proof (reserve_in_region_wf r p mb Hwf) as Hwf'.
    assert (ulong_range (total_reserved_mb (snd (reserve_in_region r p mb)))) as Hrange.
    { unfold reserve_in_region, target_slot in *.
      destruct (find_reservation r p); [apply apply_reservation_range; lia|].
      destruct (mb =? 0); [discriminate|].
      destruct (find_empty_slot r); [apply apply_reservation_range; lia | discriminate]. }
    set (r1 := snd (reserve_in_region r p mb)) in *.
    unfold reserve_in_region at 1.
    rewrite (owner_is_found r1 p j _ Hwf' Hp Hslot eq_refl).
    apply (apply_reservation_again r1 j p mb _ Hmb Hslot eq_refl Hrange).
  - rewrite (reserve_no_target r p mb Ht). cbn. apply reserve_no_target. exact Ht.
Qed.

(** Reserving the same amount twice is the same as reserving it once: the
    second call finds the slot and changes neither the table nor the
    total. *)
Theorem reserve_is_idempotent (r : shared_memory_data) (p mb : Z) :
  wf_region r -> p <> 0 -> 0 < mb ->
  reserve_in_region (snd (reserve_in_region r p mb)) p mb
  = (0, snd (reserve_in_region r p mb)).
Proof. exact (reserve_in_region_twice r p mb). Qed.

Lemma reserve_is_idempotent_witness :
  reserve_in_region (snd (reserve_in_region region_one 8 300)) 8 300
  = (0, snd (reserve_in_region region_one 8 300)).
Proof.
  apply (reserve_is_idempotent region_one 8 300).
  - apply reserve_in_region_wf, zeroed_region_wf.
  - lia.
  - lia.
Defined.

(** Create then release: for a process that held nothing, a reservation
    followed by its release gives back the table and the total as they
    were. *)
Theorem reserve_release_round_trip (r : shared_memory_data) (p mb : Z) :
  region_consistent r -> p <> 0 -> 0 < mb ->
  total_reserved_mb r + mb < ULONG_MOD ->
  find_reservation r p = None ->
  let r2 := snd (reserve_in_region (snd (reserve_in_region r p mb)) p 0) in
  reservations r2 = reservations r /\
  total_reserved_mb r2 = total_reserved_mb r /\
  unused_peaks_mb r2 = unused_peaks_mb r.
Proof.
  intros Hr Hp Hmb Hroom Hnone r2.
  destruct (reserve_in_region_consistent r p mb Hr Hp ltac:(intros _; exact Hroom))
    as [Hr1 [Hmove Hstay]].
  set (r1 := snd (reserve_in_region r p mb)) in *.
  destruct (target_slot r p mb) as [e|] eqn:Ht.
  - pose proof (rc_wf r Hr) as Hwf. pose proof (rc_wf r1 Hr1) as Hwf1.
    pose proof (reserve_in_region_target r p mb e Hwf Ht) as Hslot. fold r1 in Hslot.
    replace (mb <=? 0) with false in Hslot by (symmetry; apply Z.leb_gt; lia).
    pose proof (owner_is_found r1 p e _ Hwf1 Hp Hslot eq_refl) as Hfound.
    assert (target_slot r1 p 0 = Some e) as Ht1
      by (unfold target_slot; rewrite Hfound; reflexivity).
    destruct (reserve_in_region_consistent r1 p 0 Hr1 Hp ltac:(lia))
      as [_ [Hmove1 _]].
    split; [|split].
    + apply list_eq. intros j. unfold r2.
      destruct (decide (j = e)) as [->|Hne].
      * rewrite (reserve_in_region_target r1 p 0 e Hwf1 Ht1). cbn.
        unfold target_slot in Ht. rewrite Hnone in Ht.
        replace (mb =? 0) with false in Ht by (symmetry; apply Z.eqb_neq; lia).
        unfold find_empty_slot in Ht.
        apply first_index_Some in Ht as [[s [Hs Hz]] _].
        apply lookup_take_Some in Hs as [Hs _]. apply Z.eqb_eq in Hz.
        rewrite Hs. f_equal. destruct s as [sp sr]. cbn in *.
        pose proof (rc_slots r Hr) as Hall. rewrite Forall_lookup in Hall.
        destruct (Hall e _ Hs) as [_ H0]. cbn in H0. rewrite Hz, (H0 Hz).
        reflexivity.
      * rewrite reserve_in_region_other by congruence.
        unfold r1. apply reserve_in_region_other. congruence.
    + unfold r2. rewrite Hmove1 by congruence. rewrite Hmove by congruence.
      unfold reserved_under. rewrite Hfound, Hnone.
      unfold slot_reserved. rewrite Hslot. cbn. lia.
    + unfold r2, r1. rewrite !reserve_in_region_unused. reflexivity.
  - assert (r1 = r) as Heq by (unfold r1; rewrite (Hstay eq_refl); reflexivity).
    unfold r2. rewrite Heq.
    assert (reserve_in_region r p 0 = (0, r)) as ->.
    { unfold reserve_in_region. rewrite Hnone. reflexivity. }
    auto.
Qed.

Lemma reserve_release_round_trip_witness :
  let r2 := snd (reserve_in_region (snd (reserve_in_region region_one 8 300)) 8 0) in
  reservations r2 = reservations region_one /\
  total_reserved_mb r2 = total_reserved_mb region_one /\
  unused_peaks_mb r2 = unused_peaks_mb region_one.
Proof.
  apply (reserve_release_round_trip region_one 8 300).
  - exact region_one_consistent.
  - lia.
  - lia.
  - vm_compute. reflexivity.
  - vm_compute. reflexivity.
Defined.

(** [reservation_count] is a high-water mark: no call, a release included,
    lowers it, and it never exceeds the size of the table. *)
Theorem reservation_count_is_high_water (r : shared_memory_data) (p mb : Z) :
  wf_region r ->
  reservation_count r <= reservation_count (snd (reserve_in_region r p mb))
    <= MAX_RESERVATIONS.
Proof.
  intros Hwf. rewrite reserve_in_region_count by assumption.
  pose proof (wf_count r Hwf) as Hc.
  destruct (target_slot r p mb) as [i|] eqn:Ht; [|lia].
  pose proof (target_slot_bound r p mb i Hwf Ht). lia.
Qed.

Lemma reservation_count_is_high_water_witness :
  reservation_count region_one
    <= reservation_count (snd (reserve_in_region region_one 7 0))
    <= MAX_RESERVATIONS.
Proof.
  apply (reservation_count_is_high_water region_one 7 0).
  apply reserve_in_region_wf, zeroed_region_wf.
Defined.

(** ** Shared accounting region: attaching *)

(** The first call in a process maps the region.  The top-level make zeroes
    it, so whatever an earlier build left in the object does not count; a
    sub-make sees the totals as they are. *)
Theorem first_call_attaches (stale : shared_memory_data) (proc : process) :
  shared_data proc = NullPtr -> memory_aware_flag proc <> 0 ->
  (makelevel proc = 0 ->
   get_imminent_memory_mb (ShmAttached stale) proc
   = Some (0, with_shared_data proc (Mapped zeroed_region))) /\
  (makelevel proc <> 0 ->
   get_imminent_memory_mb (ShmAttached stale) proc
   = Some (wrap_ulong (total_reserved_mb stale + unused_peaks_mb stale),
           with_shared_data proc (Mapped stale))).
Proof.
  intros Hnull Hflag. unfold get_imminent_memory_mb, lazy_init, init_shared_memory.
  rewrite Hnull. cbn [is_null].
  replace (memory_aware_flag proc =? 0) with false
    by (symmetry; apply Z.eqb_neq; assumption).
  cbn. split.
  - intros ->. reflexivity.
  - intros Hlevel.
    replace (makelevel proc =? 0) with false
      by (symmetry; apply Z.eqb_neq; assumption).
    reflexivity.
Qed.

Lemma first_call_attaches_witness :
  (makelevel (proc_unmapped 0) = 0 ->
   get_imminent_memory_mb (ShmAttached region_one) (proc_unmapped 0)
   = Some (0, with_shared_data (proc_unmapped 0) (Mapped zeroed_region))) /\
  (makelevel (proc_unmapped 0) <> 0 ->
   get_imminent_memory_mb (ShmAttached region_one) (proc_unmapped 0)
   = Some (wrap_ulong (total_reserved_mb region_one + unused_peaks_mb region_one),
           with_shared_data (proc_unmapped 0) (Mapped region_one))).
Proof.
  apply (first_call_attaches region_one (proc_unmapped 0)).
  - reflexivity.
  - cbn. lia.
Defined.

(** A failed [shm_open] is tried again by the next call, a failed [mmap] is
    not: it leaves [shared_data] at [MAP_FAILED], the call at hand still
    returns 0, and every later call dereferences that pointer. *)
Theorem failed_mmap_is_not_retried (proc : process) (later : shm_outcome) (p mb : Z) :
  shared_data proc = NullPtr -> memory_aware_flag proc <> 0 ->
  get_imminent_memory_mb ShmOpenFails proc = Some (0, proc) /\
  get_imminent_memory_mb MmapFails proc
    = Some (0, with_shared_data proc MapFailed) /\
  get_imminent_memory_mb later (with_shared_data proc MapFailed) = None /\
  reserve_memory_mb later (with_shared_data proc MapFailed) p mb = None.
Proof.
  intros Hnull Hflag.
  unfold get_imminent_memory_mb, reserve_memory_mb, lazy_init, init_shared_memory.
  rewrite Hnull. cbn [is_null].
  replace (memory_aware_flag proc =? 0) with false
    by (symmetry; apply Z.eqb_neq; assumption).
  cbn. rewrite andb_false_r. auto.
Qed.

Lemma failed_mmap_is_not_retried_witness :
  get_imminent_memory_mb ShmOpenFails (proc_unmapped 1) = Some (0, proc_unmapped 1) /\
  get_imminent_memory_mb MmapFails (proc_unmapped 1)
    = Some (0, with_shared_data (proc_unmapped 1) MapFailed) /\
  get_imminent_memory_mb (ShmAttached region_one)
                         (with_shared_data (proc_unmapped 1) MapFailed) = None /\
  reserve_memory_mb (ShmAttached region_one)
                    (with_shared_data (proc_unmapped 1) MapFailed) 7 200 = None.
Proof.
  apply (failed_mmap_is_not_retried (proc_unmapped 1) (ShmAttached region_one) 7 200).
  - reflexivity.
  - cbn. lia.
Defined.

(** ** Command-line classifier: what it returns *)

Lemma strip_leading_dotdot_length s :
  (length (strip_leading_dotdot s) <= length s)%nat.
Proof.
  apply (strip_leading_dotdot_rel (fun s r => (length r <= length s)%nat)).
  - intros s0 _. lia.
  - intros s' r H. cbn. lia.
Qed.

Lemma strip_fixed_no_dotdot r :
  strip_leading_dotdot r = r -> take 3 r <> lit "../".
Proof.
  intros Hfix Htake.
  destruct r as [|a [|b [|c r']]]; try discriminate.
  cbn in Htake. injection Htake as -> -> ->.
  cbn in Hfix. pose proof (strip_leading_dotdot_length r') as Hlen.
  rewrite Hfix in Hlen. cbn in Hlen. lia.
Qed.

Lemma classify_result_shape x r :
  classify x = Some r ->
  Forall path_char r /\
  (exists S q, S ∈ source_suffixes /\ r = q ++ S) /\
  take 3 r <> lit "../" /\
  (length r < 1000)%nat.
Proof.
  intros Hx. apply classify_occurrence in Hx
    as [text [tl [i [e [Htext [Hi [Hocc [_ [Hshort ->]]]]]]]]].
  destruct (classifier_text_shape x text tl Htext) as [Hnf [_ _]].
  destruct (path_at_shape text i e Hnf Hocc) as [S [q [HS [Hq Hpath]]]].
  assert (e < length text)%nat as He.
  { apply occurrence_end_candidate in Hocc as [Hc _].
    eapply candidate_end_inside; eauto. }
  pose proof (path_at_length text e He) as Hlen.
  destruct (strip_leading_dotdot_suffix (path_at text e)) as [pre Hpre].
  split; [|split; [|split]].
  - rewrite Hpre in Hpath. apply Forall_app in Hpath as [_ H]. exact H.
  - destruct (strip_leading_dotdot_ending S (path_at text e) HS) as [q' Hq'];
      [exists q; assumption|]. exists S, q'. auto.
  - apply strip_fixed_no_dotdot. apply strip_leading_dotdot_idem.
  - pose proof (strip_leading_dotdot_length (path_at text e)). lia.
Qed.

(** Every path the classifier returns is a usable profile key: it has no
    space, no double quote and no NUL in it, it ends in [.cpp], [.cc] or
    [.c], it does not start with [../], and it is shorter than 1000
    characters. *)
Theorem classified_path_is_clean (x : classifier_input) (r : cstring) :
  classify x = Some r ->
  Forall path_char r /\
  (exists S q, S ∈ source_suffixes /\ r = q ++ S) /\
  take 3 r <> lit "../" /\
  (length r < 1000)%nat.
Proof. exact (classify_result_shape x r). Qed.

Lemma classified_path_is_clean_witness :
  Forall path_char (lit "src/a.cpp") /\
  (exists S q, S ∈ source_suffixes /\ lit "src/a.cpp" = q ++ S) /\
  take 3 (lit "src/a.cpp") <> lit "../" /\
  (length (lit "src/a.cpp") < 1000)%nat.
Proof.
  apply (classified_path_is_clean (Argv [lit "cc"; lit "-c"; lit "../src/a.cpp"])).
  vm_compute. reflexivity.
Defined.

Lemma existsb_app_false {A} (f : A -> bool) (a b : list A) :
  existsb f a = false -> existsb f b = false -> existsb f (a ++ b) = false.
Proof. intros Ha Hb. rewrite existsb_app, Ha, Hb. reflexivity. Qed.

Lemma join_args_no_slash argv :
  Forall (fun a => existsb is_slash (c_str a) = false) argv ->
  existsb is_slash (join_args argv) = false.
Proof.
  induction 1 as [|a l Ha Hl IH]; [reflexivity|].
  destruct l as [|b l]; [exact Ha|].
  change (join_args (a :: b :: l)) with (c_str a ++ " "%char :: join_args (b :: l)).
  apply existsb_app_false; [exact Ha|]. cbn [existsb]. rewrite IH. reflexivity.
Qed.

Lemma extract_needs_slash text tl :
  nul_free text -> (length text <= tl)%nat -> (length text < 4096)%nat ->
  existsb is_slash text = false ->
  extract_filename_common text tl = None.
Proof.
  intros Hnf Htl Hlen Hno.
  destruct (extract_filename_common text tl) as [r|] eqn:E; [|reflexivity].
  apply extract_filename_common_spec in E; [|assumption..].
  destruct E as [i [e [_ [Hocc _]]]].
  apply occurrence_end_candidate in Hocc as [Hcand Hs].
  apply has_slash_inside in Hs; [congruence|].
  eapply candidate_end_inside; eauto.
Qed.

(** Bare tokens are not picked up: an argument vector in which no argument
    contains a slash is classified to none, whatever suffixes it has. *)
Theorem no_slash_no_classification (argv : list cstring) :
  Forall (fun a => existsb is_slash (c_str a) = false) argv ->
  classify (Argv argv) = None.
Proof.
  intros Hno. rewrite classify_text.
  destruct (classifier_text (Argv argv)) as [[text tl]|] eqn:Htext; [|reflexivity].
  destruct (classifier_text_shape _ text tl Htext) as [Hnf [Htl Hlen]].
  apply extract_needs_slash; try assumption.
  cbn in Htext. destruct (_ || _); [discriminate|].
  injection Htext as <- _. apply join_args_no_slash. exact Hno.
Qed.

Lemma no_slash_no_classification_witness :
  classify (Argv [lit "cc"; lit "-c"; lit "main.c"; lit "-o"; lit "main.o"]) = None.
Proof.
  apply (no_slash_no_classification
           [lit "cc"; lit "-c"; lit "main.c"; lit "-o"; lit "main.o"]).
  repeat constructor.
Defined.

Lemma backtrack_above stop text i m :
  (m <= i)%nat ->
  (m = 0%nat \/ stop (char_at text (m - 1)) = true) ->
  (m <= backtrack stop text i)%nat.
Proof.
  induction i as [|i IH]; intros Hm Hstop; cbn; [lia|].
  destruct (stop (char_at text i)) eqn:E; [lia|].
  apply IH; [|exact Hstop].
  destruct (decide (m = S i)) as [->|]; [|lia].
  destruct Hstop as [H0 | Hs]; [lia|].
  replace (S i - 1)%nat with i in Hs by lia. congruence.
Qed.

Lemma join_args_snoc pre a :
  pre <> [] -> join_args (pre ++ [a]) = join_args pre ++ " "%char :: c_str a.
Proof.
  induction pre as [|b pre IH]; intros Hne; [congruence|].
  destruct pre as [|c pre].
  - reflexivity.
  - change (join_args ((b :: c :: pre) ++ [a]))
      with (c_str b ++ " "%char :: join_args ((c :: pre) ++ [a])).
    rewrite IH by discriminate.
    change (join_args (b :: c :: pre))
      with (c_str b ++ " "%char :: join_args (c :: pre)).
    rewrite <- app_assoc. reflexivity.
Qed.

(** The last token of a text, when it is a clean source path with a slash,
    is what the scan returns. *)
Lemma extract_last_token t0 a sfx q :
  nul_free t0 -> (t0 = [] \/ exists t, t0 = t ++ [" "%char]) ->
  sfx ∈ source_suffixes -> a = q ++ sfx -> Forall path_char a ->
  existsb is_slash a = true -> (length a < 1000)%nat ->
  (length (t0 ++ a) < 4096)%nat ->
  extract_filename_common (t0 ++ a) (length (t0 ++ a))
  = Some (strip_leading_dotdot a).
Proof.
  intros Hnf0 Hbound HS Ha Hpath Hslash Hshort Hlen.
  pose proof (suffix_length sfx HS) as HlenS.
  assert (length a = length q + length sfx)%nat as Hla
    by (rewrite Ha, length_app; reflexivity).
  set (text := t0 ++ a) in *.
  assert (length text = length t0 + length a)%nat as Hlt
    by (unfold text; apply length_app).
  assert (nul_free text) as Hnf.
  { unfold text. apply Forall_app. split; [exact Hnf0|].
    eapply Forall_impl; [exact Hpath|]. intros c [Hc _]. exact Hc. }
  assert (forall stop i,
            stop " "%char = true ->
            (forall c, path_char c -> stop c = false) ->
            (length t0 <= i <= length text)%nat ->
            backtrack stop text i = length t0) as Hback.
  { intros stop i Hsp Hclear Hi.
    assert (backtrack stop text i <= length t0)%nat.
    { apply backtrack_below; [lia|]. intros k Hk. apply Hclear.
      unfold text. replace k with (length t0 + (k - length t0))%nat by lia.
      rewrite char_at_app_r. apply Forall_char_at; [exact Hpath | lia]. }
    assert (length t0 <= backtrack stop text i)%nat; [|lia].
    apply backtrack_above; [lia|].
    destruct Hbound as [-> | [t Ht]]; [left; reflexivity | right].
    unfold text. rewrite Ht, length_app. cbn [length].
    replace (length t + 1 - 1)%nat with (length t + 0)%nat by lia.
    rewrite <- !app_assoc, char_at_app_r. exact Hsp. }
  apply extract_filename_common_spec; [assumption | lia | lia |].
  exists (length t0 + length q)%nat, (length t0 + length a - 1)%nat.
  assert (backtrack is_space_or_quote text (length t0 + length a - 1) = length t0)
    as Hstart.
  { apply Hback; [reflexivity | intros c [_ Hc]; exact Hc | lia]. }
  split; [lia|]. split; [|split; [|split]].
  - unfold occurrence_end.
    assert (candidate_end text (length t0 + length q)
            = Some (length t0 + length a - 1)%nat) as ->.
    { unfold text. rewrite Ha, app_assoc, <- length_app.
      rewrite (suffix_is_last_candidate (t0 ++ q) sfx HS).
      rewrite !length_app. f_equal. lia. }
    rewrite Hback by (reflexivity || (intros; apply path_char_no_space; assumption) || lia).
    unfold has_slash.
    replace (S (length t0 + length a - 1) - length t0)%nat with (length a) by lia.
    unfold text. rewrite existsb_chars, Hslash. reflexivity.
  - intros k Hk. unfold occurrence_end.
    rewrite candidate_end_needs_dot; [reflexivity|].
    unfold text. rewrite Ha, app_assoc.
    replace k with (length (t0 ++ q) + (k - length (t0 ++ q)))%nat
      by (rewrite length_app; lia).
    rewrite char_at_app_r. rewrite length_app.
    apply suffix_chars; [assumption | lia | lia].
  - rewrite Hstart. lia.
  - unfold path_at. rewrite Hstart. unfold text.
    rewrite drop_app_length.
    rewrite take_ge by lia. reflexivity.
Qed.

(** The usual command line: when the last argument is a source path with a
    slash, free of spaces and double quotes and shorter than 1000
    characters, the classifier returns it, with its leading [../] segments
    stripped, whatever comes before it. *)
Theorem last_argument_is_classified (pre : list cstring) (a sfx q : cstring) :
  sfx ∈ source_suffixes -> a = q ++ sfx -> Forall path_char a ->
  existsb is_slash a = true -> (length a < 1000)%nat ->
  (length (join_args (pre ++ [a])) < 4095)%nat ->
  classify (Argv (pre ++ [a])) = Some (strip_leading_dotdot a).
Proof.
  intros HS Ha Hpath Hslash Hshort Hlen.
  assert (nul_free a) as Hnfa
    by (eapply Forall_impl; [exact Hpath|]; intros c [Hc _]; exact Hc).
  cbn [classify]. unfold extract_filename_from_argv.
  rewrite total_len_join by (destruct pre; discriminate).
  replace (Z.of_nat (length (pre ++ [a])) =? 0) with false
    by (symmetry; apply Z.eqb_neq; rewrite length_app; cbn; lia).
  replace (ARGV_BUF_SIZE <=? Z.of_nat (length (join_args (pre ++ [a]))) + 1)
    with false by (symmetry; apply Z.leb_gt; unfold ARGV_BUF_SIZE; lia).
  cbn [orb].
  destruct pre as [|b pre].
  - cbn [app join_args] in *. rewrite (c_str_id a Hnfa) in *.
    apply (extract_last_token [] a sfx q); auto; try constructor; cbn; lia.
  - rewrite join_args_snoc in * by discriminate.
    rewrite (c_str_id a Hnfa) in *.
    replace (join_args (b :: pre) ++ " "%char :: a)
      with ((join_args (b :: pre) ++ [" "%char]) ++ a) in *
      by (rewrite <- app_assoc; reflexivity).
    apply (extract_last_token _ a sfx q); auto; try lia.
    + apply Forall_app. split; [apply join_args_nul_free|].
      constructor; [discriminate | constructor].
    + right. eexists. reflexivity.
Qed.

Lemma last_argument_is_classified_witness :
  classify (Argv ([lit "g++"; lit "-O2"; lit "-o"; lit "obj/a.cpp.o"; lit "-c"]
                  ++ [lit "../../src/a.cpp"]))
  = Some (strip_leading_dotdot (lit "../../src/a.cpp")).
Proof.
  apply (last_argument_is_classified _ _ (lit ".cpp") (lit "../../src/a")).
  - repeat constructor.
  - reflexivity.
  - repeat constructor; discriminate.
  - reflexivity.
  - cbn. lia.
  - cbn. lia.
Defined.

(** ** The walk as a whole *)

Lemma store_extends_refl s : store_extends s s.
Proof. split; [lia|]. intros j e _ He. exists e. split; [assumption | split; [reflexivity | lia]]. Qed.

Lemma store_extends_trans s1 s2 s3 :
  store_extends s1 s2 -> store_extends s2 s3 -> store_extends s1 s3.
Proof.
  intros [Hc12 H12] [Hc23 H23]. split; [lia|].
  intros j e Hj He.
  destruct (H12 j e Hj He) as [e2 [He2 [Hn2 Hp2]]].
  destruct (H23 j e2 ltac:(lia) He2) as [e3 [He3 [Hn3 Hp3]]].
  exists e3. split; [assumption | split; [congruence | lia]].
Qed.

(** A non-final update never faults on a well-formed store, and never
    lowers a peak. *)
Lemma record_nonfinal_total now idx mb s :
  store_wf s -> int_range idx ->
  exists s', record_file_memory_usage_by_index now idx mb 0 s = Some s' /\
             store_wf s' /\ store_extends s s' /\
             memory_profile_count s' = memory_profile_count s /\
             memory_profiles_capacity s' = memory_profiles_capacity s.
Proof.
  intros Hwf Hidx. pose proof Hwf as [Hcnt [Hcap Harr]].
  unfold record_file_memory_usage_by_index.
  destruct ((idx <? 0) || (memory_profile_count s <=? wrap_uint idx)) eqn:Hout.
  { exists s. auto using store_extends_refl. }
  apply orb_false_iff in Hout as [Hneg Hlt].
  apply Z.ltb_ge in Hneg. apply Z.leb_gt in Hlt.
  unfold int_range in Hidx.
  rewrite wrap_uint_small in Hlt by (unfold UINT_MOD; lia).
  destruct (memory_profiles s) as [arr|] eqn:Earr.
  2:{ exists s. auto using store_extends_refl. }
  destruct (lookup_lt_is_Some_2 arr (Z.to_nat idx) ltac:(lia)) as [e He].
  rewrite He.
  destruct ((mb <=? peak_memory_mb e) && (0 =? 0)) eqn:Hkeep.
  { exists s. auto using store_extends_refl. }
  cbn [Z.eqb negb andb]. rewrite andb_true_r in Hkeep. apply Z.leb_gt in Hkeep.
  eexists. split; [reflexivity|]. split; [|split; [|split; reflexivity]].
  - unfold store_wf. cbn. rewrite length_insert. auto.
  - split; [cbn; lia|]. intros j e0 Hj He0.
    rewrite (profile_at_lookup s arr j Earr) in He0.
    unfold profile_at. cbn.
    replace (Z.of_nat j <? 0) with false by (symmetry; apply Z.ltb_ge; lia).
    rewrite Nat2Z.id.
    destruct (decide (Z.to_nat idx = j)) as [Heq | Hne].
    + rewrite Heq in *. rewrite list_lookup_insert_eq by (apply lookup_lt_Some in He0; lia).
      eexists. split; [reflexivity|]. cbn.
      assert (e0 = e) as -> by congruence. split; [reflexivity | lia].
    + rewrite list_lookup_insert_ne by assumption.
      exists e0. split; [assumption | split; [reflexivity | lia]].
Qed.

(** Attributing a profile never faults on a well-formed store; it adds at
    most one entry and at most doubles the capacity. *)
Lemma attribute_profile_total now rss_kb name s :
  store_wf s -> memory_profiles_capacity s < 2 ^ 30 ->
  exists pk idx s',
    attribute_profile now rss_kb name s = Some (pk, idx, s') /\
    store_wf s' /\ store_extends s s' /\
    (int_range idx /\ idx < memory_profile_count s') /\
    memory_profile_count s' <= memory_profile_count s + 1 /\
    memory_profiles_capacity s' <=
      Z.max (memory_profiles_capacity s) (Z.max 1000 (2 * memory_profile_count s)).
Proof.
  intros Hwf Hcap. pose proof Hwf as [Hcnt [Hcap31 Harr]].
  destruct (lookup_profile s name) as [i|] eqn:Hlook.
  - destruct (attribute_profile_found now rss_kb name s i Hwf Hlook)
      as [e [He [_ Hattr]]].
    apply lookup_profile_Some in Hlook as [Hi _].
    exists (peak_memory_mb e), (Z.of_nat i), s.
    split; [exact Hattr|]. split; [exact Hwf|].
    split; [apply store_extends_refl|]. split; [unfold int_range; lia|]. lia.
  - destruct (attribute_profile_new now rss_kb name s Hwf Hcap Hlook)
      as [s' [Hattr [Hwf' [Hcount [_ Hkeep]]]]].
    exists 0, (memory_profile_count s), s'.
    split; [exact Hattr|]. split; [exact Hwf'|].
    split; [|split; [unfold int_range; lia | split; [lia|]]].
    + split; [lia|]. intros j e Hj He. exists e.
      rewrite Hkeep by lia. split; [assumption | split; [reflexivity | lia]].
    + revert Hattr. unfold attribute_profile. rewrite Hlook.
      destruct (memory_profiles_capacity s <=? memory_profile_count s) eqn:E.
      * apply Z.leb_le in E.
        destruct (grow_memory_profiles_spec s Hwf Hcap) as [[_ [_ Ha]] [Hc [Hn _]]].
        replace (memory_profile_count (grow_memory_profiles s)
                 <? memory_profiles_capacity (grow_memory_profiles s)) with true.
        2:{ symmetry. apply Z.ltb_lt. rewrite Hn, Hc.
            destruct (memory_profiles_capacity s =? 0) eqn:E0;
              [apply Z.eqb_eq in E0 | apply Z.eqb_neq in E0]; lia. }
        destruct (memory_profiles (grow_memory_profiles s)) as [arr|];
          [|discriminate].
        intros H.
        apply (f_equal (fun r => match r with
                                 | Some (_, _, x) => memory_profiles_capacity x
                                 | None => 0
                                 end)) in H.
        cbn beta iota in H. rewrite <- H.
        cbn [with_profiles memory_profiles_capacity].
        rewrite Hc. destruct (memory_profiles_capacity s =? 0); lia.
      * apply Z.leb_gt in E.
        replace (memory_profile_count s <? memory_profiles_capacity s) with true
          by (symmetry; apply Z.ltb_lt; exact E).
        destruct (memory_profiles s) as [arr|]; [|discriminate].
        intros H.
        apply (f_equal (fun r => match r with
                                 | Some (_, _, x) => memory_profiles_capacity x
                                 | None => 0
                                 end)) in H.
        cbn beta iota in H. rewrite <- H.
        cbn [with_profiles memory_profiles_capacity]. lia.
Qed.

(** A reservation call faults only on [MAP_FAILED], and leaves
    [shared_data] there only when [mmap] fails. *)
Lemma reserve_memory_mb_safe host p child mb :
  host <> MmapFails -> shared_data p <> MapFailed ->
  exists rc p', reserve_memory_mb host p child mb = Some (rc, p') /\
                shared_data p' <> MapFailed.
Proof.
  intros Hhost Hp. unfold reserve_memory_mb, lazy_init.
  destruct (negb (memory_aware_flag p =? 0) && is_null (shared_data p)).
  - destruct host as [| |r0]; [| congruence |]; cbn.
    + exists 0, p. auto.
    + destruct (reserve_in_region _ child mb) as [rc r'].
      eexists _, _. split; [reflexivity | discriminate].
  - cbn. destruct (shared_data p) as [| |r] eqn:E; [| congruence |].
    + exists 0, p. rewrite E. split; [reflexivity | discriminate].
    + destruct (reserve_in_region r child mb) as [rc r'].
      eexists _, _. split; [reflexivity | discriminate].
Qed.

Lemma scan_descendants_prof (P : Z -> Prop) l : forall i child parent_pid di pi fp,
  Forall (fun d => P (profile_idx d)) l -> P pi ->
  P (snd (fst (scan_descendants l i child parent_pid di pi fp))).
Proof.
  induction l as [|d l IH]; intros i child parent_pid di pi fp Hall Hpi; cbn;
    [exact Hpi|].
  inversion Hall as [|? ? Hd Hl]; subst.
  set (pi' := if d_pid d =? child then profile_idx d else pi).
  assert (P pi') as Hpi' by (unfold pi'; destruct (d_pid d =? child); assumption).
  destruct ((0 <=? _) && (0 <=? _)); [exact Hpi'|].
  apply IH; assumption.
Qed.

Lemma scan_descendants_idx l : forall i child parent_pid di pi fp,
  fst (fst (scan_descendants l i child parent_pid di pi fp)) = di \/
  i <= fst (fst (scan_descendants l i child parent_pid di pi fp))
    < i + Z.of_nat (length l).
Proof.
  induction l as [|d l IH]; intros i child parent_pid di pi fp; cbn [scan_descendants];
    [left; reflexivity|].
  set (di' := if d_pid d =? child then i else di).
  assert (di' = di \/ di' = i) as Hdi'
    by (unfold di'; destruct (d_pid d =? child); auto).
  destruct ((0 <=? _) && (0 <=? _)).
  - cbn [fst length]. destruct Hdi' as [-> | ->]; [left; reflexivity | right; lia].
  - destruct (IH (i + 1) child parent_pid di'
                 (if d_pid d =? child then profile_idx d else pi)
                 (if d_pid d =? parent_pid then profile_idx d else fp)) as [H | H].
    + rewrite H. destruct Hdi' as [-> | ->]; [left; reflexivity | right].
      cbn [length]. lia.
    + right. cbn [length]. lia.
Qed.

Lemma linked_mono m s s' :
  memory_profile_count s <= memory_profile_count s' ->
  profiles_linked m s -> profiles_linked m s'.
Proof.
  intros Hle H. eapply Forall_impl; [exact H|]. cbn. intros d Hd. lia.
Qed.

Lemma linked_alter (f : descendant -> descendant) (i : nat) m s s' :
  (forall d, profile_idx (f d) = profile_idx d) ->
  memory_profile_count s <= memory_profile_count s' ->
  profiles_linked m s ->
  profiles_linked {| compile_count := compile_count m;
                     descendants := alter f i (descendants m) |} s'.
Proof.
  intros Hf Hle H. unfold profiles_linked, tracked in *. cbn [compile_count descendants].
  apply Forall_lookup. intros k x Hx.
  apply lookup_take_Some in Hx as [Hx Hk].
  destruct (decide (i = k)) as [-> | Hne].
  - rewrite list_lookup_alter_eq in Hx.
    destruct (descendants m !! k) as [d|] eqn:Hd; [|discriminate].
    cbn in Hx. injection Hx as <-. rewrite Hf.
    assert (take (Z.to_nat (compile_count m)) (descendants m) !! k = Some d) as Hin
      by (rewrite lookup_take_lt by lia; exact Hd).
    pose proof (proj1 (Forall_lookup _ _) H k d Hin) as Hlt. cbn in Hlt. lia.
  - rewrite list_lookup_alter_ne in Hx by assumption.
    assert (take (Z.to_nat (compile_count m)) (descendants m) !! k = Some x) as Hin
      by (rewrite lookup_take_lt by lia; exact Hx).
    pose proof (proj1 (Forall_lookup _ _) H k x Hin) as Hlt. cbn in Hlt. lia.
Qed.

(** The first half of the loop body never faults and keeps the invariant of
    the walk. *)
Lemma discover_total env child parent_pid parent_idx rss_kb cmdline st B :
  2 * B + 1000 < 2 ^ 30 -> env_host env <> MmapFails -> walker_inv B st ->
  exists dr,
    discover env child parent_pid parent_idx rss_kb cmdline st = Some dr /\
    walker_inv B (dr_state dr) /\
    store_extends (w_store st) (w_store (dr_state dr)) /\
    int_range (dr_profile_idx dr) /\
    dr_profile_idx dr < memory_profile_count (w_store (dr_state dr)).
Proof.
  intros HB Hhost Hinv.
  pose proof Hinv as [[Hcc [Hlen Hidx]] [Hwf [Hroom [Hcap [Hmap Hlink]]]]].
  pose proof Hwf as [Hcnt0 _].
  unfold discover.
  pose proof (scan_descendants_prof
                (fun z => int_range z /\ z < memory_profile_count (w_store st))
                (take (Z.to_nat (compile_count (w_monitoring st)))
                      (descendants (w_monitoring st)))
                0 child parent_pid (-1) (-1) parent_idx) as Hpi.
  destruct (scan_descendants _ _ _ _ _ _ _) as [[di pi] fp]. cbn [fst snd] in Hpi.
  assert (int_range pi /\ pi < memory_profile_count (w_store st)) as [Hpi' Hpic].
  { apply Hpi; [|unfold int_range; lia].
    apply Forall_and. split; [apply Forall_take; exact Hidx | exact Hlink]. }
  clear Hpi.
  set (pidx := if (di <? 0) && negb (parent_idx =? fp) then fp else parent_idx).
  destruct ((di <? 0) && (pidx <? 0)
            && (MAX_TRACKED_DESCENDANTS <=? compile_count (w_monitoring st)))
    eqn:Hskip.
  { eexists. split; [reflexivity|]. cbn [dr_state dr_profile_idx].
    split; [exact Hinv|]. split; [apply store_extends_refl | auto]. }
  assert (exists pk idx store',
             match (if (di <? 0) && (pidx <? 0)
                    then extract_filename_from_cmdline cmdline else None) with
             | Some name => attribute_profile (env_now env) rss_kb name (w_store st)
             | None => Some (0, pi, w_store st)
             end = Some (pk, idx, store') /\
             store_wf store' /\ store_extends (w_store st) store' /\
             (int_range idx /\ idx < memory_profile_count store') /\
             memory_profiles_capacity store' <= 2 * B + 1000 /\
             (memory_profile_count store' = memory_profile_count (w_store st) \/
              (memory_profile_count store' <= memory_profile_count (w_store st) + 1 /\
               (di <? 0) && (pidx <? 0) = true)))
    as (pk & idx & store' & -> & Hwf' & Hext & [Hidx' Hidxc] & Hcap' & Hcount').
  { assert (exists pk idx store',
               Some (0, pi, w_store st) = Some (pk, idx, store') /\
               store_wf store' /\ store_extends (w_store st) store' /\
               (int_range idx /\ idx < memory_profile_count store') /\
               memory_profiles_capacity store' <= 2 * B + 1000 /\
               (memory_profile_count store' = memory_profile_count (w_store st) \/
                (memory_profile_count store' <= memory_profile_count (w_store st) + 1 /\
                 (di <? 0) && (pidx <? 0) = true))) as Hsame.
    { exists 0, pi, (w_store st). split; [reflexivity|].
      split; [exact Hwf|]. split; [apply store_extends_refl|]. auto. }
    destruct ((di <? 0) && (pidx <? 0)) eqn:Hnew; [|exact Hsame].
    destruct (extract_filename_from_cmdline cmdline) as [name|]; [|exact Hsame].
    destruct (attribute_profile_total (env_now env) rss_kb name (w_store st) Hwf
                ltac:(lia)) as (pk & idx & s' & Hattr & Hwf' & Hext & Hidx' & Hcnt' & Hcap').
    exists pk, idx, s'. split; [exact Hattr|].
    split; [exact Hwf'|]. split; [exact Hext|]. split; [exact Hidx'|].
    unfold MAX_TRACKED_DESCENDANTS in *. split; [lia|]. right. split; [lia | reflexivity]. }
  pose proof Hext as [Hmono _].
  destruct (0 <=? di) eqn:Hdi.
  { eexists. split; [reflexivity|].
    cbn [dr_state dr_profile_idx w_monitoring w_store w_process].
    split; [|split; [assumption | split; assumption]].
    unfold walker_inv; cbn [w_monitoring w_store w_process].
    split; [exact (conj Hcc (conj Hlen Hidx))|]. split; [exact Hwf'|].
    split; [|split; [assumption | split; [assumption|]]].
    - destruct Hcount' as [-> | [_ Hnew]]; [exact Hroom|].
      apply Z.leb_le in Hdi. apply andb_true_iff in Hnew as [Hneg _].
      apply Z.ltb_lt in Hneg. lia.
    - eapply linked_mono; [exact Hmono | exact Hlink]. }
  assert (exists rc proc,
             (if 0 <? pk
              then reserve_memory_mb (env_host env) (w_process st) child
                                     (to_long (- pk))
              else Some (0, w_process st)) = Some (rc, proc) /\
             shared_data proc <> MapFailed) as (rc & proc & -> & Hproc).
  { destruct (0 <? pk); [apply reserve_memory_mb_safe; assumption|].
    exists 0, (w_process st). auto. }
  eexists. split; [reflexivity|].
  cbn [dr_state dr_profile_idx w_monitoring w_store w_process].
  split; [|split; [assumption | split; assumption]].
  unfold walker_inv; cbn [w_monitoring w_store w_process].
  destruct ((pidx <? 0)
            && (compile_count (w_monitoring st) <? MAX_TRACKED_DESCENDANTS)) eqn:Hadd.
  - apply andb_true_iff in Hadd as [_ Hlt]. apply Z.ltb_lt in Hlt.
    unfold table_wf. cbn [compile_count descendants].
    unfold MAX_TRACKED_DESCENDANTS in *.
    rewrite wrap_uint_small by (unfold UINT_MOD; lia).
    split; [split; [lia | split]|].
    + rewrite length_alter. exact Hlen.
    + apply Forall_alter; [exact Hidx|]. intros d _ _. cbn. exact Hidx'.
    + split; [exact Hwf'|]. split; [|split; [assumption | split; [assumption|]]].
      * destruct Hcount' as [-> | [Hle _]]; lia.
      * unfold profiles_linked, tracked in *. cbn [compile_count descendants].
        apply Forall_lookup. intros k x Hx.
        apply lookup_take_Some in Hx as [Hx Hk].
        destruct (decide (Z.to_nat (compile_count (w_monitoring st)) = k))
          as [Heq | Hne].
        -- rewrite Heq, list_lookup_alter_eq in Hx.
           destruct (descendants (w_monitoring st) !! k) as [d|]; [|discriminate].
           cbn in Hx. injection Hx as <-. cbn. exact Hidxc.
        -- rewrite list_lookup_alter_ne in Hx by assumption.
           assert (take (Z.to_nat (compile_count (w_monitoring st)))
                        (descendants (w_monitoring st)) !! k = Some x) as Hin
             by (rewrite lookup_take_lt by lia; exact Hx).
           pose proof (proj1 (Forall_lookup _ _) Hlink k x Hin) as Hold.
           cbn in Hold. lia.
  - split; [exact (conj Hcc (conj Hlen Hidx))|]. split; [exact Hwf'|].
    split; [|split; [assumption | split; [assumption|]]].
    + destruct Hcount' as [-> | [_ Hnew]]; [exact Hroom|].
      rewrite Hnew in Hskip. cbn [andb] in Hskip.
      apply andb_true_iff in Hnew as [_ Hneg]. rewrite Hneg in Hadd. cbn [andb] in Hadd.
      apply Z.leb_gt in Hskip. apply Z.ltb_ge in Hadd. lia.
    + eapply linked_mono; [exact Hmono | exact Hlink].
Qed.

(** The second half of the loop body never faults and keeps the invariant
    of the walk. *)
Lemma account_total env dr rss_kb child_rss_kb child_jobs jobs unused st B :
  walker_inv B st -> int_range (dr_profile_idx dr) ->
  exists jobs' unused' st',
    account env dr rss_kb child_rss_kb child_jobs jobs unused st
      = Some (jobs', unused', st') /\
    walker_inv B st' /\ store_extends (w_store st) (w_store st').
Proof.
  intros Hinv Hidx.
  pose proof Hinv as [[Hcc [Hlen Hall]] [Hwf [Hroom [Hcap [Hmap Hlink]]]]].
  unfold account.
  destruct ((0 <=? dr_descendant_idx dr) && (0 <=? dr_profile_idx dr));
    [|eexists _, _, _; split; [reflexivity|]; split;
      [exact Hinv | apply store_extends_refl]].
  set (new_current_mb := wrap_ulong (rss_kb + child_rss_kb) / 1024).
  set (d := descendant_at env (w_monitoring st) (dr_descendant_idx dr)).
  destruct ((current_mb d <? new_current_mb) || dr_new_descendant dr);
    [|eexists _, _, _; split; [reflexivity|]; split;
      [exact Hinv | apply store_extends_refl]].
  assert (exists store,
             (if peak_mb d <? new_current_mb
              then record_file_memory_usage_by_index (env_now env) (dr_profile_idx dr)
                     new_current_mb 0 (w_store st)
              else Some (w_store st)) = Some store /\
             store_wf store /\ store_extends (w_store st) store /\
             memory_profile_count store = memory_profile_count (w_store st) /\
             memory_profiles_capacity store = memory_profiles_capacity (w_store st))
    as (store & -> & Hwf' & Hext & Hcount' & Hcap').
  { destruct (peak_mb d <? new_current_mb).
    - apply record_nonfinal_total; assumption.
    - exists (w_store st). auto using store_extends_refl. }
  eexists _, _, _. split; [reflexivity|]. split; [|exact Hext].
  unfold walker_inv, table_wf, alter_descendant.
  cbn [w_monitoring w_store w_process compile_count descendants].
  rewrite length_alter, Hcount', Hcap'.
  split; [split; [exact Hcc | split; [exact Hlen|]]|].
  - apply Forall_alter; [exact Hall|]. intros x _ Hx. cbn. exact Hx.
  - split; [exact Hwf'|]. split; [exact Hroom|]. split; [exact Hcap|].
    split; [exact Hmap|].
    apply (linked_alter _ _ _ (w_store st)); [reflexivity | lia | exact Hlink].
Qed.

Lemma for_each_entry_total (Inv : walker -> Prop) body l :
  Forall (fun e => forall s, Inv (ps_walker s) ->
            exists s', body e s = Some s' /\ Inv (ps_walker s') /\
                       store_extends (w_store (ps_walker s))
                                     (w_store (ps_walker s'))) l ->
  forall s, Inv (ps_walker s) ->
    exists s', for_each_entry body l s = Some s' /\ Inv (ps_walker s') /\
               store_extends (w_store (ps_walker s)) (w_store (ps_walker s')).
Proof.
  induction 1 as [|e l He _ IH]; intros s Hs; cbn.
  - exists s. split; [reflexivity|]. split; [exact Hs | apply store_extends_refl].
  - destruct (He s Hs) as (s1 & -> & Hs1 & Hext1).
    destruct (IH s1 Hs1) as (s2 & Hloop & Hs2 & Hext2).
    exists s2. split; [exact Hloop|]. split; [exact Hs2|].
    eapply store_extends_trans; eassumption.
Qed.

Lemma walk_listing_total (Inv : walker -> Prop) visit listing
      parent_pid depth parent_idx unused st :
  match listing with
  | Some l =>
      Forall (fun e => forall pp dp s, Inv (ps_walker s) ->
                exists s', visit e pp dp s = Some s' /\ Inv (ps_walker s') /\
                           store_extends (w_store (ps_walker s))
                                         (w_store (ps_walker s'))) l
  | None => True
  end ->
  Inv st ->
  exists rss jobs unused' st',
    walk_listing visit listing parent_pid depth parent_idx unused st
      = Some (rss, jobs, unused', st') /\
    Inv st' /\ store_extends (w_store st) (w_store st').
Proof.
  unfold walk_listing. destruct listing as [l|]; intros Hall Hst.
  - destruct (for_each_entry_total Inv (fun e s => visit e parent_pid depth s) l)
      with (s := {| ps_parent_idx := parent_idx; ps_total_rss_kb := 0;
                    ps_jobs := 0; ps_unused := unused; ps_walker := st |})
      as (s' & -> & Hs' & Hext).
    + eapply Forall_impl; [exact Hall|]. cbn. intros e He s. apply He.
    + exact Hst.
    + eexists _, _, _, _. split; [reflexivity|]. split; [exact Hs' | exact Hext].
  - eexists _, _, _, _. split; [reflexivity|].
    split; [exact Hst | apply store_extends_refl].
Qed.

Lemma visit_entry_total env B e :
  2 * B + 1000 < 2 ^ 30 -> env_host env <> MmapFails ->
  forall parent_pid depth s,
    walker_inv B (ps_walker s) ->
    exists s', visit_entry env e parent_pid depth s = Some s' /\
               walker_inv B (ps_walker s') /\
               store_extends (w_store (ps_walker s)) (w_store (ps_walker s')).
Proof.
  intros HB Hhost.
  induction e as [numeric child status cmdline nested IH] using proc_entry_nested_ind.
  intros parent_pid depth s Hs. cbn [visit_entry].
  assert (exists s', Some s = Some s' /\ walker_inv B (ps_walker s') /\
                     store_extends (w_store (ps_walker s)) (w_store (ps_walker s')))
    as Hsame
    by (exists s; split; [reflexivity|]; split; [exact Hs | apply store_extends_refl]).
  destruct status as [[check_pid rss_kb]|]; [|exact Hsame].
  destruct (numeric && (0 <? child) && (check_pid =? parent_pid)); [|exact Hsame].
  destruct (discover_total env child parent_pid (ps_parent_idx s) rss_kb cmdline
              (ps_walker s) B HB Hhost Hs) as (dr & -> & Hdr & Hext0 & Hidx & _).
  destruct (dr_skip dr).
  { eexists. split; [reflexivity|]. split; [exact Hdr | exact Hext0]. }
  destruct (walk_listing_total (walker_inv B) (visit_entry env) nested child
              (depth + 1)
              (if 0 <=? dr_profile_idx dr then dr_profile_idx dr else dr_parent_idx dr)
              (ps_unused s) (dr_state dr))
    as (child_rss_kb & child_jobs & unused1 & st1 & -> & Hst1 & Hext1);
    [exact IH | exact Hdr |].
  destruct (account_total env dr rss_kb child_rss_kb child_jobs (ps_jobs s) unused1
              st1 B Hst1 Hidx) as (jobs2 & unused2 & st2 & -> & Hst2 & Hext2).
  eexists. split; [reflexivity|]. cbn [ps_walker]. split; [exact Hst2|].
  eapply store_extends_trans; [exact Hext0|].
  eapply store_extends_trans; eassumption.
Qed.

(** One call of the walker from a state that satisfies the invariant
    returns, in a state that satisfies it. *)
Lemma walk_total env B listing parent_pid depth parent_idx unused st :
  2 * B + 1000 < 2 ^ 30 -> env_host env <> MmapFails -> walker_inv B st ->
  exists rss jobs unused' st',
    find_child_descendants env listing parent_pid depth parent_idx unused st
      = Some (rss, jobs, unused', st') /\
    walker_inv B st' /\ store_extends (w_store st) (w_store st').
Proof.
  intros HB Hhost Hst. unfold find_child_descendants.
  apply walk_listing_total; [|exact Hst].
  destruct listing as [l|]; [|exact I].
  apply Forall_forall. intros e _. apply visit_entry_total; assumption.
Qed.

Lemma walker_inv_intro st :
  table_wf (w_monitoring st) -> store_wf (w_store st) ->
  profiles_linked (w_monitoring st) (w_store st) ->
  memory_profiles_capacity (w_store st) < 2 ^ 28 ->
  shared_data (w_process st) <> MapFailed ->
  walker_inv (memory_profiles_capacity (w_store st) + 100) st /\
  2 * (memory_profiles_capacity (w_store st) + 100) + 1000 < 2 ^ 30.
Proof.
  intros Htable Hwf Hlink Hcap Hmap. split; [|lia].
  pose proof Htable as [Hcc _]. pose proof Hwf as [Hcnt _].
  unfold MAX_TRACKED_DESCENDANTS in Hcc.
  split; [exact Htable|]. split; [exact Hwf|].
  unfold MAX_TRACKED_DESCENDANTS. split; [lia|]. split; [lia|].
  split; [exact Hmap | exact Hlink].
Qed.

Lemma lookup_profile_extends s s' name (j : nat) :
  store_extends s s' ->
  lookup_profile s name = Some j ->
  lookup_profile s' name = Some j /\
  exists e e', profile_at s (Z.of_nat j) = Some e /\
               profile_at s' (Z.of_nat j) = Some e' /\
               filename e' = Some name /\
               peak_memory_mb e <= peak_memory_mb e'.
Proof.
  intros [Hcount Hext] Hlook.
  assert (forall k : nat, (k <= j)%nat -> exists ek, profile_at s (Z.of_nat k) = Some ek)
    as Hdefined.
  { unfold lookup_profile in Hlook. destruct (memory_profiles s) as [arr|] eqn:Harr;
      [|discriminate].
    apply first_index_Some in Hlook as [[e [He _]] _].
    apply lookup_take_Some in He as [He _]. apply lookup_lt_Some in He.
    intros k Hk. rewrite (profile_at_lookup s arr k Harr).
    apply lookup_lt_is_Some_2. lia. }
  apply lookup_profile_Some in Hlook as [Hj [[e [He Hn]] Hbefore]].
  destruct (Hext j e ltac:(lia) He) as [e' [He' [Hname Hpeak]]].
  assert (filename e = Some name) as Hfile.
  { unfold profile_named in Hn. destruct (filename e) as [f|]; [|discriminate].
    apply cstring_eqb_eq in Hn. congruence. }
  split.
  - apply lookup_profile_Some. split; [lia|]. split.
    + exists e'. split; [exact He'|]. unfold profile_named in *.
      rewrite Hname. exact Hn.
    + intros k e'' Hk He''.
      destruct (Hdefined k ltac:(lia)) as [ek Hek].
      destruct (Hext k ek ltac:(lia) Hek) as [ek' [Hek' [Hnk _]]].
      assert (e'' = ek') as -> by congruence.
      pose proof (Hbefore k ek Hk Hek) as Hnot.
      unfold profile_named in *. rewrite Hnk. exact Hnot.
  - exists e, e'. split; [exact He|]. split; [exact He'|].
    split; [congruence | exact Hpeak].
Qed.

(** A walk over the process tree always returns.  From a well-formed table
    and store in which every tracked entry carries -1 or the index of a
    profile in use, with [shared_data] mapped or NULL and a host on which
    [mmap] does not fail, no step of the walk, at any depth of the tree and
    for whatever [/proc] shows, writes or updates a profile outside the
    array or dereferences [MAP_FAILED]; the state it leaves satisfies the
    same conditions, so the next walk and the exit detection can rely on
    them. *)
Theorem walk_never_faults
    (env : walk_env) (listing : option (list proc_entry))
    (parent_pid depth parent_idx unused : Z) (st : walker) :
  table_wf (w_monitoring st) -> store_wf (w_store st) ->
  profiles_linked (w_monitoring st) (w_store st) ->
  memory_profiles_capacity (w_store st) < 2 ^ 28 ->
  env_host env <> MmapFails -> shared_data (w_process st) <> MapFailed ->
  exists rss jobs unused' st',
    find_child_descendants env listing parent_pid depth parent_idx unused st
      = Some (rss, jobs, unused', st') /\
    table_wf (w_monitoring st') /\ store_wf (w_store st') /\
    profiles_linked (w_monitoring st') (w_store st') /\
    shared_data (w_process st') <> MapFailed.
Proof.
  intros Htable Hwf Hlink Hcap Hhost Hmap.
  destruct (walker_inv_intro st Htable Hwf Hlink Hcap Hmap) as [Hinv HB].
  destruct (walk_total env _ listing parent_pid depth parent_idx unused st
              HB Hhost Hinv)
    as (rss & jobs & unused' & st' & Hwalk & [Ht' [Hs' [_ [_ [Hm' Hl']]]]] & _).
  exists rss, jobs, unused', st'. auto.
Qed.

Lemma walker_c_table_wf : table_wf (w_monitoring walker_c).
Proof.
  split; [cbn; unfold MAX_TRACKED_DESCENDANTS; lia|]. split; [reflexivity|].
  cbn. apply Forall_replicate. unfold int_range. cbn. lia.
Qed.

Lemma walk_never_faults_witness :
  exists rss jobs unused' st',
    find_child_descendants env_c (Some proc_c) 100 0 (-1) 0 walker_c
      = Some (rss, jobs, unused', st') /\
    table_wf (w_monitoring st') /\ store_wf (w_store st') /\
    profiles_linked (w_monitoring st') (w_store st') /\
    shared_data (w_process st') <> MapFailed.
Proof.
  apply (walk_never_faults env_c (Some proc_c) 100 0 (-1) 0 walker_c).
  - exact walker_c_table_wf.
  - unfold store_wf; cbn. lia.
  - constructor.
  - cbn. lia.
  - discriminate.
  - discriminate.
Defined.

(** Profiles survive a walk: a file that had a profile before the walk is
    found at the same index after it, and its stored peak is not lower; the
    walker only ever raises peaks and appends entries. *)
Theorem walk_keeps_profiles
    (env : walk_env) (listing : option (list proc_entry))
    (parent_pid depth parent_idx unused : Z) (st st' : walker)
    (rss jobs unused' : Z) :
  table_wf (w_monitoring st) -> store_wf (w_store st) ->
  profiles_linked (w_monitoring st) (w_store st) ->
  memory_profiles_capacity (w_store st) < 2 ^ 28 ->
  env_host env <> MmapFails -> shared_data (w_process st) <> MapFailed ->
  find_child_descendants env listing parent_pid depth parent_idx unused st
    = Some (rss, jobs, unused', st') ->
  forall name (j : nat),
    lookup_profile (w_store st) name = Some j ->
    lookup_profile (w_store st') name = Some j /\
    exists e e', profile_at (w_store st) (Z.of_nat j) = Some e /\
                 profile_at (w_store st') (Z.of_nat j) = Some e' /\
                 filename e' = Some name /\
                 peak_memory_mb e <= peak_memory_mb e'.
Proof.
  intros Htable Hwf Hlink Hcap Hhost Hmap Hwalk name j Hlook.
  destruct (walker_inv_intro st Htable Hwf Hlink Hcap Hmap) as [Hinv HB].
  destruct (walk_total env _ listing parent_pid depth parent_idx unused st
              HB Hhost Hinv)
    as (rss0 & jobs0 & unused0 & st0 & Hwalk0 & _ & Hext).
  rewrite Hwalk in Hwalk0. injection Hwalk0 as _ _ _ <-.
  exact (lookup_profile_extends _ _ name j Hext Hlook).
Qed.

Lemma walk_keeps_profiles_witness :
  lookup_profile (w_store walker_c1) (lit "src/c.cpp") = Some 0%nat /\
  exists e e', profile_at (w_store walker_c) 0 = Some e /\
               profile_at (w_store walker_c1) 0 = Some e' /\
               filename e' = Some (lit "src/c.cpp") /\
               peak_memory_mb e <= peak_memory_mb e'.
Proof.
  assert (find_child_descendants env_c (Some proc_c) 100 0 (-1) 0 walker_c
          = Some (51200, 1, 150, walker_c1)) as Hwalk by (vm_compute; reflexivity).
  apply (walk_keeps_profiles env_c (Some proc_c) 100 0 (-1) 0 walker_c walker_c1
           51200 1 150).
  - exact walker_c_table_wf.
  - unfold store_wf; cbn. lia.
  - constructor.
  - cbn. lia.
  - discriminate.
  - discriminate.
  - exact Hwalk.
  - vm_compute. reflexivity.
Defined.

(** The slot the walker updates: the index the first half of the loop body
    hands to the second is -1 (the process is not tracked) or the index of
    an entry in use, so the updates of [current_mb] and [peak_mb] never go
    past the entries in use, let alone the array. *)
Theorem tracked_index_in_bounds
    (env : walk_env) (child parent_pid parent_idx rss_kb : Z)
    (cmdline : option (list ascii)) (st : walker) (dr : discovery) :
  table_wf (w_monitoring st) ->
  discover env child parent_pid parent_idx rss_kb cmdline st = Some dr ->
  dr_descendant_idx dr = -1 \/
  0 <= dr_descendant_idx dr < compile_count (w_monitoring (dr_state dr))
    /\ compile_count (w_monitoring (dr_state dr)) <= MAX_TRACKED_DESCENDANTS.
Proof.
  intros [Hcc [Hlen _]]. unfold discover.
  pose proof (scan_descendants_idx
                (take (Z.to_nat (compile_count (w_monitoring st)))
                      (descendants (w_monitoring st)))
                0 child parent_pid (-1) (-1) parent_idx) as Hdi.
  destruct (scan_descendants _ _ _ _ _ _ _) as [[di pi] fp]. cbn [fst] in Hdi.
  rewrite length_take in Hdi.
  assert (di = -1 \/ 0 <= di < compile_count (w_monitoring st)) as Hdi' by lia.
  clear Hdi.
  set (pidx := if (di <? 0) && negb (parent_idx =? fp) then fp else parent_idx).
  destruct ((di <? 0) && (pidx <? 0)
            && (MAX_TRACKED_DESCENDANTS <=? compile_count (w_monitoring st))).
  { intros H. injection H as <-. cbn. lia. }
  destruct (match (if (di <? 0) && (pidx <? 0)
                   then extract_filename_from_cmdline cmdline else None) with
            | Some name => attribute_profile (env_now env) rss_kb name (w_store st)
            | None => Some (0, pi, w_store st)
            end) as [[[pk idx] store]|]; [|discriminate].
  destruct (0 <=? di) eqn:E.
  { intros H. injection H as <-. cbn. lia. }
  apply Z.leb_gt in E.
  destruct (if 0 <? pk
            then reserve_memory_mb (env_host env) (w_process st) child
                                   (to_long (- pk))
            else Some (0, w_process st)) as [[rc proc]|]; [|discriminate].
  intros H. injection H as <-. cbn.
  destruct ((pidx <? 0)
            && (compile_count (w_monitoring st) <? MAX_TRACKED_DESCENDANTS)) eqn:Hadd.
  - apply andb_true_iff in Hadd as [_ Hlt]. apply Z.ltb_lt in Hlt.
    unfold MAX_TRACKED_DESCENDANTS in *. cbn.
    rewrite to_int_small by lia.
    rewrite wrap_uint_small by (unfold UINT_MOD; lia). lia.
  - lia.
Qed.

Lemma tracked_index_in_bounds_witness :
  exists dr,
    discover env_c 5000 100 (-1) 51200 (Some cmdline_c) walker_c = Some dr /\
    (dr_descendant_idx dr = -1 \/
     0 <= dr_descendant_idx dr < compile_count (w_monitoring (dr_state dr))
       /\ compile_count (w_monitoring (dr_state dr)) <= MAX_TRACKED_DESCENDANTS).
Proof.
  destruct (discover env_c 5000 100 (-1) 51200 (Some cmdline_c) walker_c)
    as [dr|] eqn:E; [|vm_compute in E; discriminate].
  exists dr. split; [reflexivity|].
  exact (tracked_index_in_bounds env_c 5000 100 (-1) 51200 (Some cmdline_c)
           walker_c dr walker_c_table_wf E).
Defined.

(** ** Exit detection *)

Lemma shift_down_length i count l :
  (i < count)%nat -> (count <= length l)%nat ->
  length (shift_down i count l) = length l.
Proof.
  intros Hi Hc. unfold shift_down.
  rewrite !length_app, !length_take, !length_drop. lia.
Qed.

Lemma shift_down_tracked i count l :
  (i < count)%nat -> (count <= length l)%nat ->
  take (count - 1) (shift_down i count l) = take i l ++ drop (i + 1) (take count l).
Proof.
  intros Hi Hc. unfold shift_down.
  rewrite take_app_ge by (rewrite length_take; lia).
  rewrite length_take, Nat.min_l by lia.
  rewrite take_app_le by (rewrite length_take, length_drop; lia).
  rewrite take_take, Nat.min_l by lia.
  rewrite take_drop_commute. f_equal. f_equal. f_equal. lia.
Qed.

Lemma reap_exited_spec alive now fuel :
  forall i m s m' s',
    0 <= i <= compile_count m ->
    compile_count m <= Z.of_nat (length (descendants m)) ->
    compile_count m < 2 ^ 31 ->
    fuel = Z.to_nat (compile_count m - i) ->
    reap_exited alive now fuel i m s = Some (m', s') ->
    tracked m' =
      take (Z.to_nat i) (descendants m)
      ++ filter (fun d => alive (d_pid d) = true) (drop (Z.to_nat i) (tracked m)) /\
    compile_count m' = Z.of_nat (length (tracked m')) /\
    length (descendants m') = length (descendants m).
Proof.
  induction fuel as [|fuel IH]; intros i m s m' s' Hi Hlen Hint Hfuel H; cbn in H.
  - injection H as <- <-. assert (i = compile_count m) as -> by lia.
    unfold tracked. rewrite drop_ge by (rewrite length_take; lia).
    cbn. rewrite app_nil_r. split; [reflexivity|]. split; [|reflexivity].
    rewrite length_take. lia.
  - assert (i < compile_count m) as Hlt by lia.
    replace (i <? compile_count m) with true in H by (symmetry; apply Z.ltb_lt; lia).
    destruct (descendants m !! Z.to_nat i) as [d|] eqn:Hd; [|discriminate].
    assert (drop (Z.to_nat i) (tracked m)
            = d :: drop (Z.to_nat i + 1) (tracked m)) as Hdrop.
    { unfold tracked. rewrite Nat.add_1_r. apply drop_S.
      rewrite lookup_take_lt by lia. exact Hd. }
    rewrite Hdrop, filter_cons.
    destruct (alive (d_pid d)) eqn:Halive.
    + rewrite wrap_uint_small in H by (unfold UINT_MOD; lia).
      apply IH in H; [|lia | lia | lia | lia].
      destruct H as [Htr [Hcount Hlen']].
      split; [|split; assumption].
      rewrite Htr. replace (Z.to_nat (i + 1)) with (S (Z.to_nat i)) by lia.
      rewrite (take_S_r _ _ d Hd), <- app_assoc. cbn [app].
      destruct (decide (true = true)) as [_|]; [|congruence].
      rewrite Nat.add_1_r. reflexivity.
    + destruct (final_update now d s) as [s1|]; [|discriminate].
      destruct (decide (false = true)) as [|_]; [discriminate|].
      assert (wrap_uint (compile_count m - 1) = compile_count m - 1) as Hcc'
        by (apply wrap_uint_small; unfold UINT_MOD; lia).
      assert (wrap_uint (wrap_uint (i - 1) + 1) = i) as Hi'.
      { unfold wrap_uint, UINT_MOD. rewrite Zplus_mod_idemp_l.
        replace (i - 1 + 1) with i by lia. apply Z.mod_small. lia. }
      rewrite Hcc', Hi' in H.
      set (l := if i <? compile_count m - 1
                then shift_down (Z.to_nat i) (Z.to_nat (compile_count m)) (descendants m)
                else descendants m) in H.
      assert (length l = length (descendants m) /\
              take (Z.to_nat (compile_count m - 1)) l
              = take (Z.to_nat i) (descendants m)
                ++ drop (Z.to_nat i + 1) (tracked m)) as [Hl Hshift].
      { unfold l. destruct (i <? compile_count m - 1) eqn:E;
          [apply Z.ltb_lt in E | apply Z.ltb_ge in E].
        - split; [apply shift_down_length; lia|].
          replace (Z.to_nat (compile_count m - 1))
            with (Z.to_nat (compile_count m) - 1)%nat by lia.
          apply shift_down_tracked; lia.
        - split; [reflexivity|]. assert (i = compile_count m - 1) as Hlast by lia.
          rewrite (drop_ge (tracked m)) by (unfold tracked; rewrite length_take; lia).
          rewrite app_nil_r. f_equal. lia. }
      apply IH in H; cbn [compile_count descendants]; [|lia | lia | lia | lia].
      destruct H as [Htr [Hcount Hlen']]. cbn [descendants] in *.
      split; [|split; [assumption | congruence]].
      rewrite Htr. unfold tracked at 1. cbn [compile_count descendants].
      rewrite Hshift.
      assert (take (Z.to_nat i) l = take (Z.to_nat i) (descendants m)) as ->.
      { replace (take (Z.to_nat i) l)
          with (take (Z.to_nat i) (take (Z.to_nat (compile_count m - 1)) l))
          by (rewrite take_take; f_equal; lia).
        rewrite Hshift, take_app_le by (rewrite length_take; lia).
        rewrite take_take. f_equal. lia. }
      rewrite drop_app_length' by (rewrite length_take; lia).
      reflexivity.
Qed.

Lemma same_names_refl s : same_names s s.
Proof. split; [reflexivity|]. split; [reflexivity|]. intros j e He. exists e. auto. Qed.

Lemma same_names_trans s1 s2 s3 :
  same_names s1 s2 -> same_names s2 s3 -> same_names s1 s3.
Proof.
  intros [Hc12 [Hp12 H12]] [Hc23 [Hp23 H23]].
  split; [congruence|]. split; [congruence|]. intros j e He.
  destruct (H12 j e He) as [e2 [He2 Hn2]]. destruct (H23 j e2 He2) as [e3 [He3 Hn3]].
  exists e3. split; [assumption | congruence].
Qed.

(** An update, final or not, never faults on a well-formed store and
    changes neither the number of profiles nor their names. *)
Lemma record_keeps_names now idx mb final s :
  store_wf s -> int_range idx ->
  exists s', record_file_memory_usage_by_index now idx mb final s = Some s' /\
             store_wf s' /\ same_names s s'.
Proof.
  intros Hwf Hidx. pose proof Hwf as [Hcnt [Hcap Harr]].
  unfold record_file_memory_usage_by_index.
  destruct ((idx <? 0) || (memory_profile_count s <=? wrap_uint idx)) eqn:Hout.
  { exists s. auto using same_names_refl. }
  apply orb_false_iff in Hout as [Hneg Hlt].
  apply Z.ltb_ge in Hneg. apply Z.leb_gt in Hlt.
  unfold int_range in Hidx.
  rewrite wrap_uint_small in Hlt by (unfold UINT_MOD; lia).
  destruct (memory_profiles s) as [arr|] eqn:Earr.
  2:{ exists s. auto using same_names_refl. }
  destruct (lookup_lt_is_Some_2 arr (Z.to_nat idx) ltac:(lia)) as [e He].
  rewrite He.
  destruct ((mb <=? peak_memory_mb e) && (final =? 0)).
  { exists s. auto using same_names_refl. }
  eexists. split; [reflexivity|]. split.
  - unfold store_wf. cbn. rewrite length_insert. auto.
  - split; [reflexivity|]. split; [reflexivity|]. intros j e0 He0.
    rewrite (profile_at_lookup s arr j Earr) in He0.
    unfold profile_at. cbn.
    replace (Z.of_nat j <? 0) with false by (symmetry; apply Z.ltb_ge; lia).
    rewrite Nat2Z.id.
    destruct (decide (Z.to_nat idx = j)) as [Heq | Hne].
    + rewrite Heq in *. rewrite list_lookup_insert_eq by (apply lookup_lt_Some in He0; lia).
      eexists. split; [reflexivity|]. cbn. congruence.
    + rewrite list_lookup_insert_ne by assumption.
      exists e0. auto.
Qed.

Lemma final_update_total now d s :
  store_wf s -> int_range (profile_idx d) ->
  profile_idx d < memory_profile_count s ->
  exists s', final_update now d s = Some s' /\ store_wf s' /\ same_names s s'.
Proof.
  intros Hwf Hint Hidx. unfold final_update.
  destruct ((0 <=? profile_idx d) && ((0 <? peak_mb d) || (0 <? old_peak_mb d)))
    eqn:E; [|exists s; auto using same_names_refl].
  apply andb_true_iff in E as [Hpos _]. apply Z.leb_le in Hpos.
  pose proof Hwf as [Hcnt _].
  destruct (store_wf_profile_at s (Z.to_nat (profile_idx d)) Hwf) as [e He]; [lia|].
  rewrite Z2Nat.id in He by lia. rewrite He.
  apply record_keeps_names; assumption.
Qed.

Lemma reap_exited_total alive now fuel :
  forall i m s,
    0 <= i <= compile_count m ->
    compile_count m <= Z.of_nat (length (descendants m)) ->
    compile_count m < 2 ^ 31 ->
    store_wf s ->
    Forall (fun d => int_range (profile_idx d)
                     /\ profile_idx d < memory_profile_count s) (tracked m) ->
    exists m' s', reap_exited alive now fuel i m s = Some (m', s') /\
                  store_wf s' /\ same_names s s'.
Proof.
  induction fuel as [|fuel IH]; intros i m s Hi Hlen Hint Hwf Hall; cbn.
  { exists m, s. auto using same_names_refl. }
  destruct (i <? compile_count m) eqn:Hlt;
    [apply Z.ltb_lt in Hlt | exists m, s; auto using same_names_refl].
  destruct (lookup_lt_is_Some_2 (descendants m) (Z.to_nat i) ltac:(lia)) as [d Hd].
  rewrite Hd.
  destruct (alive (d_pid d)).
  - rewrite wrap_uint_small by (unfold UINT_MOD; lia).
    apply IH; try assumption; lia.
  - assert (tracked m !! Z.to_nat i = Some d) as Hin
      by (unfold tracked; rewrite lookup_take_lt by lia; exact Hd).
    pose proof (proj1 (Forall_lookup _ _) Hall _ _ Hin) as [Hdint Hdidx].
    destruct (final_update_total now d s Hwf Hdint Hdidx) as (s1 & -> & Hwf1 & Hn1).
    assert (wrap_uint (compile_count m - 1) = compile_count m - 1) as Hcc'
      by (apply wrap_uint_small; unfold UINT_MOD; lia).
    assert (wrap_uint (wrap_uint (i - 1) + 1) = i) as Hi'.
    { unfold wrap_uint, UINT_MOD. rewrite Zplus_mod_idemp_l.
      replace (i - 1 + 1) with i by lia. apply Z.mod_small. lia. }
    rewrite Hcc', Hi'.
    set (l := if i <? compile_count m - 1
              then shift_down (Z.to_nat i) (Z.to_nat (compile_count m)) (descendants m)
              else descendants m).
    assert (length l = length (descendants m) /\
            take (Z.to_nat (compile_count m - 1)) l
            = take (Z.to_nat i) (tracked m)
              ++ drop (Z.to_nat i + 1) (tracked m)) as [Hl Hshift].
    { unfold tracked. rewrite take_take, Nat.min_l by lia.
      unfold l. destruct (i <? compile_count m - 1) eqn:E;
        [apply Z.ltb_lt in E | apply Z.ltb_ge in E].
      - split; [apply shift_down_length; lia|].
        replace (Z.to_nat (compile_count m - 1))
          with (Z.to_nat (compile_count m) - 1)%nat by lia.
        apply shift_down_tracked; lia.
      - split; [reflexivity|]. assert (i = compile_count m - 1) as Hlast by lia.
        rewrite (drop_ge (take _ _)) by (rewrite length_take; lia).
        rewrite app_nil_r. f_equal. lia. }
    destruct (IH i {| compile_count := compile_count m - 1; descendants := l |} s1)
      as (m' & s' & Hrun & Hwf' & Hn'); cbn [compile_count descendants];
      try assumption; try lia.
    + unfold tracked. cbn [compile_count descendants]. rewrite Hshift.
      destruct Hn1 as [Hc1 _]. rewrite Hc1.
      apply Forall_app. split; [apply Forall_take | apply Forall_drop]; exact Hall.
    + exists m', s'. split; [exact Hrun|]. split; [exact Hwf'|].
      eapply same_names_trans; eassumption.
Qed.

(** Exit detection keeps exactly the live entries: after the loop the
    entries in use are the entries that were in use and whose process still
    exists, in the same order, [compile_count] is their number, and the
    array has the size it had. *)
Theorem exited_entries_are_removed
    (alive : Z -> bool) (now : Z) (m m' : monitoring_data) (s s' : profile_store) :
  table_wf m ->
  check_exited alive now m s = Some (m', s') ->
  tracked m' = filter (fun d => alive (d_pid d) = true) (tracked m) /\
  compile_count m' = Z.of_nat (length (tracked m')) /\
  length (descendants m') = length (descendants m).
Proof.
  intros [Hcc [Hlen _]] H. unfold check_exited in H.
  unfold MAX_TRACKED_DESCENDANTS in *.
  apply reap_exited_spec in H; [| lia | lia | lia | f_equal; lia].
  cbn [Z.to_nat] in H. rewrite take_0, drop_0 in H. exact H.
Qed.

Lemma monitoring_three_wf : table_wf monitoring_three.
Proof.
  split; [cbn; unfold MAX_TRACKED_DESCENDANTS; lia|]. split; [reflexivity|].
  unfold monitoring_three. cbn [descendants]. apply Forall_app. split.
  - repeat constructor; cbn; lia.
  - apply Forall_replicate. unfold int_range. cbn. lia.
Qed.

Lemma exited_entries_are_removed_witness :
  exists m' s',
    check_exited (fun p => negb (p =? 12)) 1000 monitoring_three store_two
      = Some (m', s') /\
    tracked m' = filter (fun d => negb (d_pid d =? 12) = true)
                        (tracked monitoring_three) /\
    compile_count m' = Z.of_nat (length (tracked m')) /\
    length (descendants m') = length (descendants monitoring_three).
Proof.
  destruct (check_exited (fun p => negb (p =? 12)) 1000 monitoring_three store_two)
    as [[m' s']|] eqn:E; [|vm_compute in E; discriminate].
  exists m', s'. split; [reflexivity|].
  exact (exited_entries_are_removed (fun p => negb (p =? 12)) 1000
           monitoring_three m' store_two s' monitoring_three_wf E).
Defined.

Lemma shift_down_Forall (P : descendant -> Prop) i count l :
  Forall P l -> Forall P (shift_down i count l).
Proof.
  intros H. unfold shift_down.
  repeat apply Forall_app_2; auto using Forall_take, Forall_drop.
Qed.

Lemma reap_exited_Forall (P : descendant -> Prop) alive now fuel :
  forall i m s m' s',
    Forall P (descendants m) ->
    reap_exited alive now fuel i m s = Some (m', s') ->
    Forall P (descendants m').
Proof.
  induction fuel as [|fuel IH]; intros i m s m' s' Hall H; cbn in H.
  { injection H as <- _. exact Hall. }
  destruct (i <? compile_count m); [|injection H as <- _; exact Hall].
  destruct (descendants m !! Z.to_nat i) as [d|]; [|discriminate].
  destruct (alive (d_pid d)); [exact (IH _ _ _ _ _ Hall H)|].
  destruct (final_update now d s) as [s1|]; [|discriminate].
  apply IH in H; [exact H|]. cbn [descendants].
  destruct (i <? wrap_uint (compile_count m - 1));
    [apply shift_down_Forall|]; exact Hall.
Qed.

(** Exit detection never faults when every tracked entry carries -1 or the
    index of a profile in use; it leaves the profiles under their names (the
    final updates change peaks and time stamps only), and the table and the
    store it leaves satisfy the same conditions again. *)
Theorem exit_detection_returns
    (alive : Z -> bool) (now : Z) (m : monitoring_data) (s : profile_store) :
  table_wf m -> store_wf s -> profiles_linked m s ->
  exists m' s',
    check_exited alive now m s = Some (m', s') /\
    table_wf m' /\ store_wf s' /\ profiles_linked m' s' /\ same_names s s'.
Proof.
  intros Htable Hwf Hall. pose proof Htable as [Hcc [Hlen Hint]].
  unfold MAX_TRACKED_DESCENDANTS in *.
  destruct (reap_exited_total alive now (Z.to_nat (compile_count m)) 0 m s)
    as (m' & s' & Hrun & Hwf' & Hnames); try assumption; try lia.
  { apply Forall_and. split; [apply Forall_take; exact Hint | exact Hall]. }
  exists m', s'. split; [exact Hrun|].
  pose proof (reap_exited_Forall _ _ _ _ _ _ _ _ _ Hint Hrun) as Hint'.
  apply reap_exited_spec in Hrun; [| lia | lia | lia | f_equal; lia].
  cbn [Z.to_nat] in Hrun. rewrite take_0, drop_0 in Hrun. cbn [app] in Hrun.
  destruct Hrun as [Htr [Hcount Hlen']].
  assert (length (tracked m') <= length (tracked m))%nat as Hshort
    by (rewrite Htr; apply length_filter).
  assert (length (tracked m) <= 100)%nat as Hmax
    by (unfold tracked; rewrite length_take; lia).
  split; [|split; [exact Hwf'|split; [|exact Hnames]]].
  - unfold table_wf, MAX_TRACKED_DESCENDANTS.
    split; [lia|]. split; [congruence | exact Hint'].
  - unfold profiles_linked. rewrite Htr. destruct Hnames as [-> _].
    apply Forall_forall. intros d Hd. apply list_elem_of_filter in Hd as [_ Hd].
    exact (proj1 (Forall_forall _ _) Hall d Hd).
Qed.

Lemma exit_detection_returns_witness :
  exists m' s',
    check_exited (fun p => negb (p =? 12)) 1000 monitoring_three store_two
      = Some (m', s') /\
    table_wf m' /\ store_wf s' /\ profiles_linked m' s' /\ same_names store_two s'.
Proof.
  apply (exit_detection_returns (fun p => negb (p =? 12)) 1000 monitoring_three
           store_two).
  - exact monitoring_three_wf.
  - unfold store_wf; cbn. lia.
  - unfold tracked, monitoring_three. cbn. repeat constructor; cbn; lia.
Defined.

(** ** Memory debug level *)

Lemma mask_bits k :
  0 <= k -> Z.testbit DB_MEM_LEVEL_MASK k = (9 <=? k) && (k <? 12).
Proof.
  intros Hk. unfold DB_MEM_LEVEL_MASK.
  destruct (Z_lt_ge_dec k 12) as [Hlt | Hge].
  - assert (k = 0 \/ k = 1 \/ k = 2 \/ k = 3 \/ k = 4 \/ k = 5 \/ k = 6 \/ k = 7
            \/ k = 8 \/ k = 9 \/ k = 10 \/ k = 11) as Hcases by lia.
    repeat (destruct Hcases as [-> | Hcases]; [reflexivity|]).
    subst k. reflexivity.
  - rewrite Z.bits_above_log2 by (cbn; lia).
    replace (k <? 12) with false by (symmetry; apply Z.ltb_ge; lia).
    rewrite andb_false_r. reflexivity.
Qed.

Lemma level_bits level k :
  0 <= level <= 7 -> 3 <= k -> Z.testbit level k = false.
Proof.
  intros Hl Hk. destruct (Z.eq_dec level 0) as [-> | Hne]; [apply Z.bits_0|].
  apply Z.bits_above_log2; [lia|].
  assert (Z.log2 level < 3); [|lia].
  apply Z.log2_lt_pow2; lia.
Qed.

(** Setting the memory debug level and reading it back returns the level,
    whatever the other bits of [db_level] are, and a message of level [k]
    is then shown exactly when [0 < k <= level]. *)
Theorem mem_level_round_trip (l level : Z) :
  0 <= level <= 7 ->
  DB_MEM_GET_LEVEL (DB_MEM_SET_LEVEL l level) = level /\
  forall k, ISDB_MEM k (DB_MEM_SET_LEVEL l level) = (0 <? k) && (k <=? level).
Proof.
  intros Hlevel.
  assert (DB_MEM_GET_LEVEL (DB_MEM_SET_LEVEL l level) = level) as Hget.
  { unfold DB_MEM_GET_LEVEL, DB_MEM_SET_LEVEL, DB_MEM_LEVEL_SHIFT.
    apply Z.bits_inj'. intros n Hn.
    rewrite Z.shiftr_spec, Z.land_spec, Z.lor_spec, Z.land_spec, Z.lnot_spec,
      Z.shiftl_spec by lia.
    rewrite mask_bits by lia. replace (n + 9 - 9) with n by lia.
    destruct (Z_lt_ge_dec n 3) as [Hlt | Hge].
    - replace (9 <=? n + 9) with true by (symmetry; apply Z.leb_le; lia).
      replace (n + 9 <? 12) with true by (symmetry; apply Z.ltb_lt; lia).
      cbn. rewrite andb_false_r, andb_true_r. reflexivity.
    - replace (n + 9 <? 12) with false by (symmetry; apply Z.ltb_ge; lia).
      rewrite andb_false_r, andb_false_r. symmetry. apply level_bits; lia. }
  split; [exact Hget|]. intros k. unfold ISDB_MEM. rewrite Hget. reflexivity.
Qed.

Lemma mem_level_round_trip_witness :
  DB_MEM_GET_LEVEL (DB_MEM_SET_LEVEL 0x1ff 5) = 5 /\
  forall k, ISDB_MEM k (DB_MEM_SET_LEVEL 0x1ff 5) = (0 <? k) && (k <=? 5).
Proof. apply (mem_level_round_trip 0x1ff 5). lia. Defined.

(** Setting the memory debug level leaves every other debug flag as it
    was: [ISDB] of a flag outside the three level bits answers the same
    before and after. *)
Theorem mem_level_keeps_flags (l level flag : Z) :
  0 <= level <= 7 ->
  Z.land flag DB_MEM_LEVEL_MASK = 0 ->
  ISDB flag (DB_MEM_SET_LEVEL l level) = ISDB flag l.
Proof.
  intros Hlevel Hflag. unfold ISDB. f_equal. f_equal.
  unfold DB_MEM_SET_LEVEL, DB_MEM_LEVEL_SHIFT.
  apply Z.bits_inj'. intros n Hn.
  rewrite !Z.land_spec, Z.lor_spec, Z.land_spec, Z.lnot_spec by lia.
  pose proof (f_equal (fun z => Z.testbit z n) Hflag) as Hbit. cbn beta in Hbit.
  rewrite Z.land_spec, Z.bits_0, mask_bits in Hbit by lia.
  rewrite mask_bits by lia.
  destruct (Z.testbit flag n); [|reflexivity]. cbn [andb] in *.
  rewrite Hbit. cbn [negb]. rewrite andb_true_r.
  destruct (Z_lt_ge_dec n 9) as [Hlt | Hge].
  - rewrite Z.shiftl_spec_low by lia. rewrite orb_false_r. reflexivity.
  - rewrite Z.shiftl_spec by lia.
    rewrite (level_bits level (n - 9)); [rewrite orb_false_r; reflexivity | lia|].
    apply andb_false_iff in Hbit as [H | H];
      [apply Z.leb_gt in H | apply Z.ltb_ge in H]; lia.
Qed.

Lemma mem_level_keeps_flags_witness :
  ISDB 0x004 (DB_MEM_SET_LEVEL 0x1ff 5) = ISDB 0x004 0x1ff.
Proof. apply (mem_level_keeps_flags 0x1ff 5 0x004); [lia | reflexivity]. Defined.

(** ** Cleanup, host memory and the status bar *)


Lemma to_int_range z : int_range z -> to_int z = z.
Proof.
  intros [Hlo Hhi]. destruct (Z_lt_ge_dec z 0) as [Hneg | Hpos];
    [|apply to_int_small; lia].
  unfold to_int, wrap_uint, UINT_MOD.
  assert (z mod 2 ^ 32 = z + 2 ^ 32) as ->.
  { symmetry. apply (Z.mod_unique z (2 ^ 32) (-1)); lia. }
  replace (z + 2 ^ 32 <? 2 ^ 31) with false by (symmetry; apply Z.ltb_ge; lia).
  lia.
Qed.

Lemma get_memory_stats_spec (lines : list meminfo_line) (total avail : Z) :
  scan_meminfo lines 0 0 = (total, avail) ->
  0 < avail <= total -> total * 100 < 2 ^ 64 ->
  get_memory_stats (Some lines) = (avail / 1024, 100 - avail * 100 / total) /\
  0 <= 100 - avail * 100 / total <= 100 /\
  (100 - avail * 100 / total = 0 <-> avail = total) /\
  (100 - avail * 100 / total = 100 <-> avail * 100 < total).
Proof.
  intros Hscan Havail Htotal. unfold get_memory_stats. rewrite Hscan.
  replace (0 <? avail) with true by (symmetry; apply Z.ltb_lt; lia).
  replace (0 <? total) with true by (symmetry; apply Z.ltb_lt; lia).
  assert (0 <= avail * 100 / total <= 100) as Hq.
  { split; [apply Z.div_pos; lia|].
    apply Z.div_le_upper_bound; lia. }
  unfold wrap_ulong, wrap_uint, ULONG_MOD, UINT_MOD.
  rewrite (Z.mod_small (avail * 100)) by lia.
  rewrite (Z.mod_small (100 - _) (2 ^ 64)) by lia.
  rewrite Z.mod_small by lia.
  split; [reflexivity|]. split; [lia|]. split.
  - split.
    + intros H. assert (100 <= avail * 100 / total) as Hge by lia.
      assert (total * 100 <= avail * 100); [|lia].
      pose proof (Z.mul_div_le (avail * 100) total ltac:(lia)). nia.
    + intros ->. rewrite (Z.mul_comm total 100), Z.div_mul by lia. lia.
  - split.
    + intros H. assert (avail * 100 / total = 0) as H0 by lia.
      apply Z.div_small_iff in H0; lia.
    + intros H. rewrite Z.div_small by lia. lia.
Qed.

(** The percentage [get_memory_stats] reports: with [MemAvailable] between
    1 kB and [MemTotal] it is [100 - avail * 100 / total], a number from 0
    to 100; it is 0 only when all of the memory is available, and 100 as
    soon as less than a hundredth of it is. *)
Theorem memory_percent_range (lines : list meminfo_line) (total avail : Z) :
  scan_meminfo lines 0 0 = (total, avail) ->
  0 < avail <= total -> total * 100 < 2 ^ 64 ->
  get_memory_stats (Some lines) = (avail / 1024, 100 - avail * 100 / total) /\
  0 <= 100 - avail * 100 / total <= 100 /\
  (100 - avail * 100 / total = 0 <-> avail = total) /\
  (100 - avail * 100 / total = 100 <-> avail * 100 < total).
Proof. exact (get_memory_stats_spec lines total avail). Qed.

Lemma memory_percent_range_witness :
  get_memory_stats (Some meminfo_short)
  = (102400 / 1024, 100 - 102400 * 100 / 16777216).
Proof.
  apply (memory_percent_range meminfo_short 16777216 102400); [reflexivity | lia | lia].
Defined.

Lemma bar_zones_total mem_percent free_mb :
  0 <= mem_percent < 100 -> 0 <= free_mb -> free_mb * 100 < 2 ^ 64 ->
  wrap_uint (100 - mem_percent) = 100 - mem_percent /\
  wrap_ulong (free_mb / wrap_uint (100 - mem_percent) * 100)
  = free_mb / (100 - mem_percent) * 100 /\
  0 <= free_mb / (100 - mem_percent) * 100 <= free_mb * 100.
Proof.
  intros Hp Hfree Hbig.
  assert (wrap_uint (100 - mem_percent) = 100 - mem_percent) as ->
    by (apply wrap_uint_small; unfold UINT_MOD; lia).
  assert (0 <= free_mb / (100 - mem_percent) <= free_mb) as Hq.
  { split; [apply Z.div_pos; lia|]. apply Z.div_le_upper_bound; nia. }
  split; [reflexivity|]. split; [|lia].
  apply wrap_ulong_small. unfold ulong_range, ULONG_MOD. lia.
Qed.

(** When the status bar divides by zero: with a percentage from 0 to 100,
    the computation of the bar faults exactly when the percentage is 100 or
    the free memory in MiB is below the percentage of memory available. *)
Theorem bar_faults_iff (mem_percent free_mb make_usage_mb imminent_mb : Z) :
  0 <= mem_percent <= 100 -> 0 <= free_mb -> free_mb * 100 < 2 ^ 64 ->
  bar_zones mem_percent free_mb make_usage_mb imminent_mb = None <->
  mem_percent = 100 \/ free_mb < 100 - mem_percent.
Proof.
  intros Hp Hfree Hbig. unfold bar_zones.
  destruct (Z.eq_dec mem_percent 100) as [-> | Hne].
  { cbn. split; [auto | reflexivity]. }
  destruct (bar_zones_total mem_percent free_mb ltac:(lia) Hfree Hbig)
    as [-> [-> Hrange]].
  replace (100 - mem_percent =? 0) with false by (symmetry; apply Z.eqb_neq; lia).
  destruct (free_mb / (100 - mem_percent) * 100 =? 0) eqn:E;
    [apply Z.eqb_eq in E | apply Z.eqb_neq in E].
  - split; [|reflexivity]. intros _. right.
    assert (free_mb / (100 - mem_percent) = 0) as H0 by lia.
    apply Z.div_small_iff in H0; lia.
  - split; [discriminate|]. intros [Heq | Hlt]; [lia|].
    rewrite Z.div_small in E by lia. lia.
Qed.

Lemma bar_faults_iff_witness :
  bar_zones 40 50 10 0 = None <-> 40 = 100 \/ 50 < 100 - 40.
Proof. apply (bar_faults_iff 40 50 10 0); lia. Defined.

(** Under memory pressure the status line faults: when [/proc/meminfo]
    shows less than a hundredth of the memory available, the percentage
    [get_memory_stats] hands to [display_memory_status] is 100, and a status
    line that is due divides by zero. *)
Theorem display_faults_under_pressure
    (lines : list meminfo_line) (total avail : Z)
    (memory_aware disable_memory_display force elapsed_ms : Z)
    (make_usage_mb imminent_mb : Z) :
  scan_meminfo lines 0 0 = (total, avail) ->
  0 < avail -> avail * 100 < total -> total * 100 < 2 ^ 64 ->
  memory_aware <> 0 -> disable_memory_display = 0 ->
  force <> 0 \/ 300 <= elapsed_ms ->
  display_memory_status memory_aware disable_memory_display force elapsed_ms
    (snd (get_memory_stats (Some lines))) (fst (get_memory_stats (Some lines)))
    make_usage_mb imminent_mb = None.
Proof.
  intros Hscan Hpos Hshort Htotal Haware Hshown Hdue.
  destruct (get_memory_stats_spec lines total avail Hscan ltac:(lia) Htotal)
    as [-> [_ [_ Hfull]]].
  cbn [fst snd]. rewrite (proj2 Hfull Hshort).
  unfold display_memory_status.
  replace (memory_aware =? 0) with false by (symmetry; apply Z.eqb_neq; exact Haware).
  rewrite Hshown. cbn [Z.eqb negb orb].
  replace ((force =? 0) && (elapsed_ms <? 300)) with false.
  2:{ symmetry. apply andb_false_iff.
      destruct Hdue as [H | H]; [left; apply Z.eqb_neq | right; apply Z.ltb_ge];
        assumption. }
  reflexivity.
Qed.

Lemma display_faults_under_pressure_witness :
  display_memory_status 1 0 0 300
    (snd (get_memory_stats (Some meminfo_short)))
    (fst (get_memory_stats (Some meminfo_short))) 2048 512 = None.
Proof.
  apply (display_faults_under_pressure meminfo_short 16777216 102400 1 0 0 300
           2048 512); try lia; reflexivity.
Defined.

(** The width of the bar: with a percentage below 100 and enough free
    memory for the total to be positive, the four zones are not negative,
    the first two cover the used part or the part of make, whichever is
    larger, and the bar has 20 cells unless used and imminent memory
    together exceed it, in which case it is longer. *)
Theorem bar_has_twenty_cells (mem_percent free_mb make_usage_mb imminent_mb : Z) :
  0 <= mem_percent < 100 -> 100 - mem_percent <= free_mb ->
  free_mb * 100 < 2 ^ 64 ->
  0 <= make_usage_mb < 2 ^ 25 -> 0 <= imminent_mb < 2 ^ 25 ->
  exists mk ot im fr,
    bar_zones mem_percent free_mb make_usage_mb imminent_mb = Some (mk, ot, im, fr) /\
    0 <= mk /\ 0 <= ot /\ 0 <= im /\ 0 <= fr /\
    mk + ot = Z.max mk (mem_percent * bar_len / 100) /\
    mk + ot + im + fr = Z.max bar_len (mk + ot + im).
Proof.
  intros Hp Hfree Hbig Hmake Himm. unfold bar_zones.
  destruct (bar_zones_total mem_percent free_mb Hp ltac:(lia) Hbig)
    as [-> [-> Hrange]].
  set (total_mb := free_mb / (100 - mem_percent) * 100) in *.
  assert (0 < total_mb) as Htot.
  { unfold total_mb.
    assert (1 <= free_mb / (100 - mem_percent)); [|lia].
    apply Z.div_le_lower_bound; lia. }
  replace (100 - mem_percent =? 0) with false by (symmetry; apply Z.eqb_neq; lia).
  replace (total_mb =? 0) with false by (symmetry; apply Z.eqb_neq; lia).
  unfold bar_len.
  assert (forall x, 0 <= x < 2 ^ 25 ->
            wrap_ulong (x * 20) = x * 20 /\ 0 <= x * 20 / total_mb < 2 ^ 30) as Hcell.
  { intros x Hx. split; [apply wrap_ulong_small; unfold ulong_range, ULONG_MOD; lia|].
    split; [apply Z.div_pos; lia|].
    apply Z.div_lt_upper_bound; nia. }
  destruct (Hcell make_usage_mb Hmake) as [-> Hmk].
  destruct (Hcell imminent_mb Himm) as [-> Him].
  rewrite (wrap_uint_small (mem_percent * 20)) by (unfold UINT_MOD; lia).
  assert (0 <= mem_percent * 20 / 100 <= 20) as Hused.
  { split; [apply Z.div_pos; lia|]. apply Z.div_le_upper_bound; lia. }
  set (mk := make_usage_mb * 20 / total_mb) in *.
  set (im := imminent_mb * 20 / total_mb) in *.
  set (used := mem_percent * 20 / 100) in *.
  rewrite (to_int_small mk), (to_int_small im), (to_int_small used) by lia.
  rewrite (to_int_range (used - mk)) by (unfold int_range; lia).
  set (ot := if used - mk <? 0 then 0 else used - mk).
  assert (0 <= ot <= 20 /\ mk + ot = Z.max mk used) as [Hot Hcover].
  { unfold ot. destruct (used - mk <? 0) eqn:E;
      [apply Z.ltb_lt in E | apply Z.ltb_ge in E]; lia. }
  rewrite (to_int_range (20 - mk - ot - im)) by (unfold int_range; lia).
  eexists _, _, _, _. split; [reflexivity|].
  destruct (20 - mk - ot - im <? 0) eqn:E;
    [apply Z.ltb_lt in E | apply Z.ltb_ge in E]; lia.
Qed.

Lemma bar_has_twenty_cells_witness :
  exists mk ot im fr,
    bar_zones 50 8000 4000 6000 = Some (mk, ot, im, fr) /\
    0 <= mk /\ 0 <= ot /\ 0 <= im /\ 0 <= fr /\
    mk + ot = Z.max mk (50 * bar_len / 100) /\
    mk + ot + im + fr = Z.max bar_len (mk + ot + im).
Proof. apply (bar_has_twenty_cells 50 8000 4000 6000); lia. Defined.
